(** * Rehearsal scheduler (scheduler.py): a shallow embedding and its properties

    The development follows the four classes of [scheduler.py]:
    [Actor] (the availability ledger), [Scene], [Calendar] and [Scheduler].

    Modelling conventions.
    - A Python number used as a time or as the interval ([7], [7.5], [0.5],
      [0.1]) is modelled by its value, a rational of [Qc]; for [0.1] that is
      the value of the float, not one tenth.  Dictionary keys compare by
      numeric value in Python ([1 == 1.0]), and so do [Qc] values.
    - The arithmetic of [scene_works] and [generate_times] is float
      arithmetic: each of [+], [-], [*], [/] gives the float nearest to the
      exact result (ties to even, IEEE 754 binary64), computed with the
      Standard Library's [SpecFloat]; [int] truncates.  An int converts to
      the nearest float, which is the int itself below 2^53.  Results
      beyond the range of floats ([inf], [nan]) are not modelled.
    - A [dict] is a [gmap]; [d[k]] raises [KeyError] on a missing key and
      [d[k] = v] inserts.
    - Methods run in a state-and-exception monad over the object they are
      called on: a method receives the object, returns the object as it left
      it, and either a value or the exception it raised.
    - Python list objects handed to [Scene.__init__] live in a store of
      list objects, since the constructor keeps references to them.
    - The recursion of [schedule_solve] is bounded by fuel, one unit per
      scene still to place; [schedule_never_out_of_fuel] shows the bound is
      never hit.  The interpreter's own recursion limit is not modelled.
    - [return_times_for_scene] and [return_scenes_that_fit] print numbers
      with [str] and walk dictionaries in key order; the printing function
      and the key order are arguments of their models. *)

From Stdlib Require Import QArith Qcanon ZArith Lia.
From Stdlib Require Import Floats.SpecFloat.
From stdpp Require Import base option numbers list gmap strings fin_maps.

Local Open Scope Z_scope.
Local Open Scope string_scope.
Local Open Scope list_scope.

(** ** Python run-time model *)

Inductive exn : Type :=
  | KeyError
  | IndexError
  | ZeroDivisionError
  | OutOfFuel.

Inductive outcome (A : Type) : Type :=
  | Ret (a : A)
  | Raise (e : exn).
Arguments Ret {A} a.
Arguments Raise {A} e.

(** A computation over a mutable object of type [S]. *)
Definition M (S A : Type) : Type := S -> S * outcome A.

Definition ret {S A} (a : A) : M S A := fun s => (s, Ret a).
Definition raise {S A} (e : exn) : M S A := fun s => (s, Raise e).
Definition bind {S A B} (m : M S A) (k : A -> M S B) : M S B :=
  fun s => match m s with
           | (s', Ret a) => k a s'
           | (s', Raise e) => (s', Raise e)
           end.
Definition gets {S A} (f : S -> A) : M S A := fun s => (s, Ret (f s)).
Definition modify {S} (f : S -> S) : M S unit := fun s => (f s, Ret tt).

(** [try: m except: h]; a bare [except] catches every exception, and
    whatever [m] changed before raising stays changed. *)
Definition try_except {S A} (m h : M S A) : M S A :=
  fun s => match m s with
           | (s', Ret a) => (s', Ret a)
           | (s', Raise _) => h s'
           end.

(** Run a method of a sub-object [T] reached through a field of [S]. *)
Definition zoom {S T A} (proj : S -> T) (upd : T -> S -> S) (m : M T A) : M S A :=
  fun s => match m (proj s) with (t', r) => (upd t' s, r) end.

Declare Scope py_scope.
Delimit Scope py_scope with py.
Notation "'let*' x ':=' m 'in' k" := (bind m (fun x => k))
  (at level 10, x name, m at level 100, k at level 200) : py_scope.
Notation "m1 ';;' m2" := (bind m1 (fun _ => m2))
  (at level 100, m2 at level 200, right associativity) : py_scope.
Local Open Scope py_scope.

(** [for x in l: body x] *)
Fixpoint for_each {S A} (l : list A) (body : A -> M S unit) : M S unit :=
  match l with
  | [] => ret tt
  | x :: l' => body x ;; for_each l' body
  end.

(** [d[k]] on a dict *)
Definition getitem {S K V} `{Countable K} (d : gmap K V) (k : K) : M S V :=
  match d !! k with
  | Some v => ret v
  | None => raise KeyError
  end.

(** [l[i]] on a list, for an index [i >= 0] *)
Definition index {S A} (l : list A) (i : nat) : M S A :=
  match l !! i with
  | Some v => ret v
  | None => raise IndexError
  end.

(** [range(lo, lo + n)] for [lo >= 0] and an integer [n] of either sign *)
Definition py_range (lo : nat) (n : Z) : list nat := seq lo (Z.to_nat n).

(** Times and the interval are Python numbers. *)
Abbreviation time := Qc (only parsing).

(** [int(x)]: truncation towards zero *)
Definition py_int (x : Qc) : Z := Z.quot (Qnum x) (Zpos (Qden x)).

(** *** Floats

    [float_of_Q x] is the binary64 float nearest to the rational [x], ties
    to even: the correctly rounded quotient of numerator and denominator,
    by [SFdiv] of the Standard Library's specification of IEEE 754. *)
Definition binary64_prec : Z := 53.
Definition binary64_emax : Z := 1024.

Definition float_of_Z (n : Z) : spec_float :=
  match n with
  | Z0 => S754_zero false
  | Zpos p => S754_finite false p 0
  | Zneg p => S754_finite true p 0
  end.

Definition float_of_Q (x : Qc) : spec_float :=
  SFdiv binary64_prec binary64_emax (float_of_Z (Qnum x)) (float_of_Z (Zpos (Qden x))).

Definition pow2 (e : Z) : Q :=
  match e with
  | Z0 => 1%Q
  | Zpos p => inject_Z (Z.pow_pos 2 p)
  | Zneg p => (1 # Pos.pow 2 p)%Q
  end.

(** The value of a finite float. *)
Definition Q_of_float (f : spec_float) : Qc :=
  match f with
  | S754_finite s m e => Q2Qc (inject_Z (if s then Zneg m else Zpos m) * pow2 e)
  | _ => 0%Qc
  end.

(** [float(x)]: the value of the float nearest to [x] *)
Definition py_float (x : Qc) : Qc := Q_of_float (float_of_Q x).

(** An int operand of a float operation *)
Definition float_of_int (n : Z) : Qc := py_float (Qc_of_Z n).

(** [x + y], [x - y], [x * y] on floats *)
Definition py_add (x y : Qc) : Qc := py_float (x + y)%Qc.
Definition py_sub (x y : Qc) : Qc := py_float (x - y)%Qc.
Definition py_mul (x y : Qc) : Qc := py_float (x * y)%Qc.

(** [x / y] *)
Definition py_div {S} (x y : Qc) : M S Qc :=
  if decide (y = 0%Qc) then raise ZeroDivisionError else ret (py_float (x / y)%Qc).

(** ** class Actor *)

Module Actor.

Record t : Type := mk {
  name : string;
  conflict_chart : gmap string (gmap Qc bool)
}.

Definition set_conflict_chart (c : gmap string (gmap Qc bool)) (self : t) : t :=
  {| name := name self; conflict_chart := c |}.

(** [create_conflict_chart]: every timeblock of every day starts out
    available.  The constructor only reads the calendar's
    [day_time_chart], which is what it is given here. *)
Definition create_conflict_chart (day_time_chart : gmap string (list Qc))
  : gmap string (gmap Qc bool) :=
  (fun times => foldl (fun temp_d timeblock => <[timeblock := true]> temp_d) ∅ times)
    <$> day_time_chart.

Definition init (name : string) (day_time_chart : gmap string (list Qc)) : t :=
  {| name := name; conflict_chart := create_conflict_chart day_time_chart |}.

(** [self.conflict_chart[day][time] = v] *)
Definition set_slot (day : string) (time : Qc) (v : bool) : M t unit :=
  let* chart := gets conflict_chart in
  let* row := getitem chart day in
  modify (set_conflict_chart (<[day := <[time := v]> row]> chart)).

Definition add_conflict (day : string) (time : Qc) : M t unit :=
  set_slot day time false.

Definition remove_conflict (day : string) (time : Qc) : M t unit :=
  set_slot day time true.

Fixpoint is_available (day : string) (times : list Qc) : M t bool :=
  match times with
  | [] => ret true
  | time :: times' =>
      let* chart := gets conflict_chart in
      let* row := getitem chart day in
      let* v := getitem row time in
      if negb v then ret false else is_available day times'
  end.

End Actor.

(** ** class Scene *)

Module Scene.

(** A scene as the scheduler reads it. *)
Record t : Type := mk {
  name : string;
  speaking_actors : list string;
  all_actors : list string;
  length : Z
}.

(** A scene object: the two actor attributes are references to list
    objects in the store. *)
Record obj : Type := mk_obj {
  o_name : string;
  o_speaking_actors : positive;
  o_all_actors : positive;
  o_length : Z
}.

(** The store of list objects, by reference. *)
Abbreviation store := (gmap positive (list string)) (only parsing).

(** [l.extend(other)]: [other] is read when the call is made.  A reference
    that is not in the store does not arise in Python; the lookup of one
    answers [KeyError] here. *)
Definition extend (l other : positive) : M store unit :=
  let* st := gets id in
  let* xs := getitem st l in
  let* ys := getitem st other in
  modify (<[l := xs ++ ys]>).

(** [l.append(x)] *)
Definition append (l : positive) (x : string) : M store unit :=
  let* st := gets id in
  let* xs := getitem st l in
  modify (<[l := xs ++ [x]]>).

(** [Scene.__init__(name, length, speaking_actors, nonspeaking_actors)] *)
Definition init (name : string) (length : Z)
    (speaking_actors nonspeaking_actors : positive) : M store obj :=
  let self_speaking_actors := speaking_actors in
  let self_all_actors := speaking_actors in
  extend self_all_actors nonspeaking_actors ;;
  ret {| o_name := name;
         o_speaking_actors := self_speaking_actors;
         o_all_actors := self_all_actors;
         o_length := length |}.

(** [add_actor(name, speaking=True)] *)
Definition add_actor (self : obj) (name : string) (speaking : bool) : M store unit :=
  append (o_all_actors self) name ;;
  if speaking then append (o_speaking_actors self) name else ret tt.

(** What a reader of the scene object sees in a given store. *)
Definition view (st : store) (self : obj) : option t :=
  match st !! o_speaking_actors self, st !! o_all_actors self with
  | Some sp, Some al =>
      Some {| name := o_name self; speaking_actors := sp;
              all_actors := al; length := o_length self |}
  | _, _ => None
  end.

End Scene.

(** ** class Calendar *)

Module Calendar.

Record t : Type := mk {
  names : list string;
  day_time_chart : gmap string (list Qc);
  days : list string;
  interval : Qc;
  actor_objects : gmap string Actor.t
}.

(** A conflict is the list [[name, day, times]]. *)
Definition conflict : Type := string * string * list Qc.

Definition set_actor_objects (objs : gmap string Actor.t) (self : t) : t :=
  {| names := names self; day_time_chart := day_time_chart self;
     days := days self; interval := interval self; actor_objects := objs |}.

(** [self.actor_objects[name].method(...)]: the lookup raises [KeyError]
    for an unknown name; the actor object is shared with the dictionary,
    so what the method does to it is seen through the dictionary. *)
Definition on_actor {A} (name : string) (m : M Actor.t A) : M t A :=
  fun self =>
    match actor_objects self !! name with
    | None => (self, Raise KeyError)
    | Some a =>
        match m a with
        | (a', r) => (set_actor_objects (<[name := a']> (actor_objects self)) self, r)
        end
    end.

Definition create_actor_objects : M t unit :=
  let* names := gets names in
  let* chart := gets day_time_chart in
  modify (set_actor_objects
            (foldl (fun objs name => <[name := Actor.init name chart]> objs) ∅ names)).

Definition add_conflict (c : conflict) : M t unit :=
  let '(name, day, times) := c in
  for_each times (fun time => on_actor name (Actor.add_conflict day time)).

Definition remove_conflict (c : conflict) : M t unit :=
  let '(name, day, times) := c in
  for_each times (fun time => on_actor name (Actor.remove_conflict day time)).

Fixpoint is_available (names : list string) (day : string) (times : list Qc)
  : M t bool :=
  match names with
  | [] => ret true
  | name :: names' =>
      let* ok := on_actor name (Actor.is_available day times) in
      if negb ok then ret false else is_available names' day times
  end.

Definition clear_conflicts : M t unit := create_actor_objects.

(** [Calendar(names, day_time_chart, days, interval, conflicts)]: the
    object as the constructor leaves it, and the exception if an initial
    conflict raised one. *)
Definition init (names : list string) (day_time_chart : gmap string (list Qc))
    (days : list string) (interval : Qc) (conflicts : list conflict)
  : t * outcome unit :=
  (create_actor_objects ;; for_each conflicts add_conflict)
    {| names := names; day_time_chart := day_time_chart; days := days;
       interval := interval; actor_objects := ∅ |}.

End Calendar.

(** ** class Scheduler *)

Module Scheduler.

Record t : Type := mk {
  calendar : Calendar.t;
  scenes : gmap string Scene.t
}.

Definition set_calendar (c : Calendar.t) (self : t) : t :=
  {| calendar := c; scenes := scenes self |}.

(** [self.calendar.method(...)] *)
Definition on_calendar {A} (m : M Calendar.t A) : M t A :=
  zoom calendar set_calendar m.

Definition generate_times (time_start time_end : Qc) : M t (list Qc) :=
  let* interval := gets (fun self => Calendar.interval (calendar self)) in
  let* q := py_div (py_sub time_end time_start) interval in
  let num_timeblocks := py_int q in
  ret ((fun i : nat => py_add time_start (py_mul interval (float_of_int (Z.of_nat i))))
         <$> py_range 0 num_timeblocks).

(** The default of the [time_end] argument. *)
Definition default_time_end : Qc := Qc_of_Z 9000000.

Definition scene_works (scene day : string) (time_start time_end : Qc) : M t bool :=
  let* registry := gets scenes in
  let* sc := getitem registry scene in
  let num_timeblocks := Scene.length sc in
  let* interval := gets (fun self => Calendar.interval (calendar self)) in
  let scene_time_end := py_add time_start (py_mul (float_of_int num_timeblocks) interval) in
  if bool_decide (time_end < scene_time_end)%Qc then ret false else
  let* times := generate_times time_start scene_time_end in
  try_except
    (let* registry := gets scenes in
     let* sc := getitem registry scene in
     on_calendar (Calendar.is_available (Scene.all_actors sc) day times))
    (ret false).

Definition schedule_is_valid (scene day : string) (time_start : Qc) : M t bool :=
  scene_works scene day time_start default_time_end.

(** *** The backtracking search

    [schedule] and [current_arrangement] are two objects shared by every
    level of the recursion; together with [self] they are the state the
    search runs on.  [timeblocks] and [scene_list] are only read. *)

(** A value of the arrangement: the list [[day, block]] taken from
    [timeblocks], or the empty string left behind by a withdrawn
    placement. *)
Inductive entry : Type :=
  | Slot (day : string) (block : Qc)
  | Blank.

Record search : Type := mk_search {
  self_ : t;
  schedule_ : list Z;
  arrangement_ : gmap string entry
}.

Definition on_self {A} (m : M t A) : M search A :=
  zoom self_ (fun s st => {| self_ := s; schedule_ := schedule_ st;
                             arrangement_ := arrangement_ st |}) m.

(** [schedule[j] = v] *)
Definition set_schedule (j : nat) (v : Z) : M search unit :=
  let* sched := gets schedule_ in
  let* _ := index sched j in
  modify (fun st => {| self_ := self_ st; schedule_ := <[j := v]> (schedule_ st);
                       arrangement_ := arrangement_ st |}).

(** [current_arrangement[scene] = e] *)
Definition set_arrangement (scene : string) (e : entry) : M search unit :=
  modify (fun st => {| self_ := self_ st; schedule_ := schedule_ st;
                       arrangement_ := <[scene := e]> (arrangement_ st) |}).

(** The loop that checks whether the schedule has space; an index past
    the end of [schedule] raises inside the [try] and closes the slot. *)
Fixpoint check_open (js : list nat) (schedule_open : bool) : M search bool :=
  match js with
  | [] => ret schedule_open
  | j :: js' =>
      let* o := try_except
                  (let* sched := gets schedule_ in
                   let* v := index sched j in
                   if decide (v = 1) then ret false else ret schedule_open)
                  (ret false) in
      check_open js' o
  end.

(** The loop over the candidate positions [i] of one scene; [recurse] is
    the recursive call for the next scene. *)
Fixpoint try_positions (recurse : M search bool) (timeblocks : list (string * Qc))
    (scene : string) (timeblocks_required : Z) (positions : list nat)
  : M search bool :=
  match positions with
  | [] => ret false
  | i :: positions' =>
      let* tb := index timeblocks i in
      let day := tb.1 in
      let time_start := tb.2 in
      let* schedule_open := check_open (py_range i timeblocks_required) true in
      let* ok := (if schedule_open
                  then on_self (schedule_is_valid scene day time_start)
                  else ret false) in
      if ok then
        for_each (py_range i timeblocks_required) (fun j => set_schedule j 1) ;;
        set_arrangement scene (Slot day time_start) ;;
        let* found := recurse in
        if found then ret true else
        for_each (py_range i timeblocks_required) (fun j => set_schedule j 0) ;;
        set_arrangement scene Blank ;;
        try_positions recurse timeblocks scene timeblocks_required positions'
      else
        try_positions recurse timeblocks scene timeblocks_required positions'
  end.

(** [schedule_solve]; [fuel] bounds the depth of the recursion. *)
Fixpoint schedule_solve_fuel (fuel : nat) (scene_list : list string)
    (timeblocks : list (string * Qc)) (scene_idx : nat) : M search bool :=
  if decide (scene_idx = List.length scene_list) then ret true else
  let* scene := index scene_list scene_idx in
  let* registry := gets (fun st => scenes (self_ st)) in
  let* sc := getitem registry scene in
  let timeblocks_required := Scene.length sc in
  let* sched := gets schedule_ in
  try_positions
    (match fuel with
     | O => raise OutOfFuel
     | S fuel' => schedule_solve_fuel fuel' scene_list timeblocks (scene_idx + 1)
     end)
    timeblocks scene timeblocks_required (seq 0 (List.length sched)).

Definition schedule_solve (scene_list : list string)
    (timeblocks : list (string * Qc)) (scene_idx : nat) : M search bool :=
  schedule_solve_fuel (List.length scene_list - scene_idx)
    scene_list timeblocks scene_idx.

(** The flat list of [[day, block]] pairs of the days to consider. *)
Fixpoint make_timeblocks (days : list string) : M t (list (string * Qc)) :=
  match days with
  | [] => ret []
  | day :: days' =>
      let* chart := gets (fun self => Calendar.day_time_chart (calendar self)) in
      let* blocks := getitem chart day in
      let* rest := make_timeblocks days' in
      ret (((fun block => (day, block)) <$> blocks) ++ rest)
  end.

(** [schedule(days, scenes)]: [Some] arrangement, or [None] *)
Definition schedule (days scenes : list string)
  : M t (option (gmap string entry)) :=
  let* timeblocks := make_timeblocks days in
  let schedule := replicate (List.length timeblocks) 0 in
  let final_arrangement : gmap string entry := ∅ in
  fun self =>
    match schedule_solve scenes timeblocks 0
            {| self_ := self; schedule_ := schedule;
               arrangement_ := final_arrangement |} with
    | (st, Ret true) => (self_ st, Ret (Some (arrangement_ st)))
    | (st, Ret false) => (self_ st, Ret None)
    | (st, Raise e) => (self_ st, Raise e)
    end.

(** *** The two queries

    Both build strings with [str(time)]; the text Python prints for a
    number is left open as [str_time].  Both walk the keys of a
    dictionary, [day_keys] for [self.calendar.day_time_chart.keys()] and
    [scene_keys] for [self.scenes.keys()], in the order the dictionary
    gives them. *)

(** The inner loop of [return_times_for_scene], over the times of a day. *)
Fixpoint times_for_scene_on (str_time : Qc -> string) (scene day : string)
    (times : list Qc) (working_times : list string) : M t (list string) :=
  match times with
  | [] => ret working_times
  | time :: times' =>
      let* ok := scene_works scene day time default_time_end in
      if ok then
        let tempStr := day +:+ " at " +:+ str_time time in
        times_for_scene_on str_time scene day times' (working_times ++ [tempStr])
      else times_for_scene_on str_time scene day times' working_times
  end.

(** The outer loop of [return_times_for_scene], over the days. *)
Fixpoint times_for_scene_days (str_time : Qc -> string) (scene : string)
    (days : list string) (working_times : list string) : M t (list string) :=
  match days with
  | [] => ret working_times
  | day :: days' =>
      let* chart := gets (fun self => Calendar.day_time_chart (calendar self)) in
      let* times := getitem chart day in
      let* working := times_for_scene_on str_time scene day times working_times in
      times_for_scene_days str_time scene days' working
  end.

Definition return_times_for_scene (str_time : Qc -> string) (day_keys : list string)
    (scene : string) : M t (list string) :=
  times_for_scene_days str_time scene day_keys [].

(** The inner loop of [return_scenes_that_fit], over the times of the
    window. *)
Fixpoint scenes_that_fit_on (str_time : Qc -> string) (scene day : string)
    (time_end : Qc) (times : list Qc) (working_scenes : list string)
  : M t (list string) :=
  match times with
  | [] => ret working_scenes
  | time :: times' =>
      let* ok := scene_works scene day time time_end in
      if ok then
        scenes_that_fit_on str_time scene day time_end times'
          (working_scenes ++ [scene +:+ " at " +:+ str_time time])
      else scenes_that_fit_on str_time scene day time_end times' working_scenes
  end.

(** The outer loop of [return_scenes_that_fit], over the scenes. *)
Fixpoint scenes_that_fit_scenes (str_time : Qc -> string) (day : string)
    (time_end : Qc) (times : list Qc) (scenes : list string)
    (working_scenes : list string) : M t (list string) :=
  match scenes with
  | [] => ret working_scenes
  | scene :: scenes' =>
      let* working := scenes_that_fit_on str_time scene day time_end times
                        working_scenes in
      scenes_that_fit_scenes str_time day time_end times scenes' working
  end.

Definition return_scenes_that_fit (str_time : Qc -> string) (scene_keys : list string)
    (day : string) (time_start time_end : Qc) : M t (list string) :=
  let* times := generate_times time_start time_end in
  scenes_that_fit_scenes str_time day time_end times scene_keys [].

End Scheduler.

(** ** Reading the state: the notions the properties are stated with *)

(** The ledger entry of an actor for a day and a slot. *)
Definition ledger (a : Actor.t) (day : string) (t : Qc) : option bool :=
  Actor.conflict_chart a !! day ≫= fun row => row !! t.

(** The ledger entry of a named participant of a calendar. *)
Definition ledger_of (cal : Calendar.t) (name day : string) (t : Qc) : option bool :=
  Calendar.actor_objects cal !! name ≫= fun a => ledger a day t.

(** A row after [row[t] = v] for each [t] of [times], in order. *)
Definition mark_row (v : bool) (row : gmap Qc bool) (times : list Qc) : gmap Qc bool :=
  foldl (fun r t => <[t := v]> r) row times.

(** The slots a scene of [n] timeblocks occupies from [time_start]:
    [time_start, time_start + interval, ...], [n] of them, in exact
    arithmetic. *)
Definition occupied (interval time_start : Qc) (n : Z) : list Qc :=
  (fun i : nat => (time_start + interval * Qc_of_Z (Z.of_nat i))%Qc) <$> seq 0 (Z.to_nat n).

(** [time_start + num_timeblocks*interval] as [scene_works] computes it. *)
Definition scene_end (interval time_start : Qc) (n : Z) : Qc :=
  py_add time_start (py_mul (float_of_int n) interval).

(** [time_start + interval*i] as [generate_times] computes it. *)
Definition slot_at (interval time_start : Qc) (i : nat) : Qc :=
  py_add time_start (py_mul interval (float_of_int (Z.of_nat i))).

(** The times [generate_times(time_start, time_end)] returns with a
    non-zero interval. *)
Definition window_times (interval time_start time_end : Qc) : list Qc :=
  slot_at interval time_start
    <$> py_range 0 (py_int (py_float (py_sub time_end time_start / interval)%Qc)).

(** The slots that [scene_works] looks at for a scene of [n] timeblocks
    from [time_start]: the times it generates up to the end it computed. *)
Definition checked (interval time_start : Qc) (n : Z) : list Qc :=
  window_times interval time_start (scene_end interval time_start n).

(** A value that is a float: rounding leaves it as it is. *)
Definition representable (x : Qc) : Prop := py_float x = x.

(** No operation of the check of a scene of [n] timeblocks from
    [time_start] rounds: the length, the products and the sums are floats
    as they stand. *)
Definition slot_unrounded (interval time_start : Qc) (i : nat) : Prop :=
  representable (Qc_of_Z (Z.of_nat i)) ∧
  representable (interval * Qc_of_Z (Z.of_nat i))%Qc ∧
  representable (time_start + interval * Qc_of_Z (Z.of_nat i))%Qc.

Definition unrounded (interval time_start : Qc) (n : Z) : Prop :=
  representable (Qc_of_Z n) ∧
  representable (Qc_of_Z n * interval)%Qc ∧
  representable (time_start + Qc_of_Z n * interval)%Qc ∧
  Forall (slot_unrounded interval time_start) (seq 0 (Z.to_nat n)).

(** No operation of [generate_times(time_start, time_end)] rounds. *)
Definition window_unrounded (interval time_start time_end : Qc) : Prop :=
  representable (time_end - time_start)%Qc ∧
  representable ((time_end - time_start) / interval)%Qc ∧
  Forall (slot_unrounded interval time_start)
         (seq 0 (Z.to_nat (py_int ((time_end - time_start) / interval)%Qc))).

(** The same as tests that can be run. *)
Definition representableb (x : Qc) : bool := Qc_eq_bool (py_float x) x.

Definition slot_unroundedb (interval time_start : Qc) (i : nat) : bool :=
  representableb (Qc_of_Z (Z.of_nat i)) &&
  representableb (interval * Qc_of_Z (Z.of_nat i))%Qc &&
  representableb (time_start + interval * Qc_of_Z (Z.of_nat i))%Qc.

Definition unroundedb (interval time_start : Qc) (n : Z) : bool :=
  representableb (Qc_of_Z n) &&
  representableb (Qc_of_Z n * interval)%Qc &&
  representableb (time_start + Qc_of_Z n * interval)%Qc &&
  forallb (slot_unroundedb interval time_start) (seq 0 (Z.to_nat n)).

Definition window_unroundedb (interval time_start time_end : Qc) : bool :=
  representableb (time_end - time_start)%Qc &&
  representableb ((time_end - time_start) / interval)%Qc &&
  forallb (slot_unroundedb interval time_start)
          (seq 0 (Z.to_nat (py_int ((time_end - time_start) / interval)%Qc))).

(** A slot exists in the grid of a day. *)
Definition in_grid (cal : Calendar.t) (day : string) (t : Qc) : Prop :=
  ∃ blocks, Calendar.day_time_chart cal !! day = Some blocks ∧ t ∈ blocks.

(** No ledger has a day or a slot that the grid does not have. *)
Definition ledgers_within_grid (cal : Calendar.t) : Prop :=
  ∀ name a day row t,
    Calendar.actor_objects cal !! name = Some a →
    Actor.conflict_chart a !! day = Some row →
    is_Some (row !! t) →
    in_grid cal day t.


(** The check of one participant, as [Calendar.is_available] runs it. *)
Definition participant_check (cal : Calendar.t) (name day : string) (times : list Qc)
  : outcome bool :=
  (Calendar.on_actor name (Actor.is_available day times) cal).2.

Definition is_true_outcome (o : outcome bool) : bool :=
  match o with Ret true => true | _ => false end.

(** The positions [i .. i+n-1] exist in the schedule and none is claimed. *)
Definition range_open (sched : list Z) (i : nat) (n : Z) : bool :=
  forallb (fun j => match sched !! j with
                    | Some v => bool_decide (v ≠ 1)
                    | None => false
                    end) (py_range i n).

(** The schedule after [schedule[j] = v] for each [j] of [js]. *)
Definition fill (v : Z) (sched : list Z) (js : list nat) : list Z :=
  foldl (fun s j => <[j := v]> s) sched js.

(** The search state after a scene is set into the schedule at position
    [i], and after that placement is withdrawn. *)
Definition place (st : Scheduler.search) (i : nat) (n : Z) (scene : string)
    (e : Scheduler.entry) : Scheduler.search :=
  {| Scheduler.self_ := Scheduler.self_ st;
     Scheduler.schedule_ := fill 1 (Scheduler.schedule_ st) (py_range i n);
     Scheduler.arrangement_ := <[scene := e]> (Scheduler.arrangement_ st) |}.

Definition withdraw (st : Scheduler.search) (i : nat) (n : Z) (scene : string)
  : Scheduler.search :=
  {| Scheduler.self_ := Scheduler.self_ st;
     Scheduler.schedule_ := fill 0 (Scheduler.schedule_ st) (py_range i n);
     Scheduler.arrangement_ := <[scene := Scheduler.Blank]> (Scheduler.arrangement_ st) |}.

(** The recursive call that [schedule_solve] makes for the next scene. *)
Definition next_scene (fuel : nat) (scene_list : list string)
    (timeblocks : list (string * Qc)) (scene_idx : nat) : M Scheduler.search bool :=
  match fuel with
  | O => raise OutOfFuel
  | S fuel' => Scheduler.schedule_solve_fuel fuel' scene_list timeblocks (scene_idx + 1)
  end.

(** [st'] comes after [st] in a search: same scheduler, same number of
    positions, and every position claimed in [st] still claimed. *)
Definition extends (st st' : Scheduler.search) : Prop :=
  Scheduler.self_ st' = Scheduler.self_ st ∧
  length (Scheduler.schedule_ st') = length (Scheduler.schedule_ st) ∧
  ∀ j, Scheduler.schedule_ st !! j = Some 1 → Scheduler.schedule_ st' !! j = Some 1.

(** A part of the search that places the scenes [rest]: whatever its
    outcome, the state after it extends the state before, and only the
    arrangement of the scenes of [rest] is written. *)
Definition keeps (rest : list string) (m : M Scheduler.search bool) : Prop :=
  ∀ st st' r, m st = (st', r) →
    extends st st' ∧
    ∀ s, s ∉ rest → Scheduler.arrangement_ st' !! s = Scheduler.arrangement_ st !! s.

(** The positions of the timeline that a scene placed at [i] claims. *)
Definition span_of (self : Scheduler.t) (p : string * nat) : list nat :=
  match Scheduler.scenes self !! p.1 with
  | Some sc => py_range p.2 (Scene.length sc)
  | None => []
  end.

(** A placement (scene, position) that the search may make on the
    schedule [sched]: the scene is registered, the position is on the
    timeline, the feasibility check passes there, and the claimed positions
    exist and are free. *)
Definition good_placement (self : Scheduler.t) (tb : list (string * Qc))
    (sched : list Z) (p : string * nat) : Prop :=
  ∃ sc day ts,
    Scheduler.scenes self !! p.1 = Some sc ∧
    tb !! p.2 = Some (day, ts) ∧
    (Scheduler.scene_works p.1 day ts Scheduler.default_time_end self).2 = Ret true ∧
    ∀ j, j ∈ span_of self p → (j < length sched)%nat ∧ sched !! j ≠ Some 1.

(** No two of the spans share a position. *)
Fixpoint all_disjoint (spans : list (list nat)) : Prop :=
  match spans with
  | [] => True
  | x :: rest => (∀ y, y ∈ rest → x ## y) ∧ all_disjoint rest
  end.

(** What a successful search for the scenes [rest] has done: one good
    placement per scene, on pairwise disjoint spans, each scene recorded in
    the arrangement with the timeblock of one of its placements. *)
Definition placed (rest : list string) (self : Scheduler.t) (tb : list (string * Qc))
    (sched : list Z) (arr : gmap string Scheduler.entry) (ps : list (string * nat)) : Prop :=
  ps.*1 = rest ∧
  Forall (good_placement self tb sched) ps ∧
  all_disjoint (span_of self <$> ps) ∧
  ∀ s, s ∈ rest →
    ∃ i day ts, (s, i) ∈ ps ∧ tb !! i = Some (day, ts) ∧
                arr !! s = Some (Scheduler.Slot day ts).

(** The timeline: each requested day's slot list, in the order the days are
    given; [None] when a day is not in the chart. *)
Fixpoint timeline (chart : gmap string (list Qc)) (days : list string)
  : option (list (string * Qc)) :=
  match days with
  | [] => Some []
  | day :: days' =>
      match chart !! day, timeline chart days' with
      | Some blocks, Some rest => Some (((fun block => (day, block)) <$> blocks) ++ rest)
      | _, _ => None
      end
  end.

(** The state a search starts from. *)
Definition initial_search (self : Scheduler.t) (tb : list (string * Qc))
  : Scheduler.search :=
  {| Scheduler.self_ := self;
     Scheduler.schedule_ := replicate (length tb) 0;
     Scheduler.arrangement_ := ∅ |}.

(** The feasibility condition in the words of the specification: the end
    of the task is within the window bound ([None] for no bound), every
    occupied slot exists in the grid of the day, and every required
    participant is available at every occupied slot. *)
Definition fits_spec (sch : Scheduler.t) (sc : Scene.t) (day : string)
    (time_start : Qc) (window_end : option Qc) : Prop :=
  let cal := Scheduler.calendar sch in
  let iv := Calendar.interval cal in
  let slots := occupied iv time_start (Scene.length sc) in
  match window_end with
  | Some bound => (time_start + Qc_of_Z (Scene.length sc) * iv ≤ bound)%Qc
  | None => True
  end ∧
  (∀ t, t ∈ slots → in_grid cal day t) ∧
  (∀ name t, name ∈ Scene.all_actors sc → t ∈ slots →
     ledger_of cal name day t = Some true).

(** Every ledger has exactly the days and slots of the grid, as the
    constructor builds it and as conflicts on grid slots leave it. *)
Definition ledgers_match_grid (cal : Calendar.t) : Prop :=
  ∀ name a day t,
    Calendar.actor_objects cal !! name = Some a →
    (is_Some (ledger a day t) ↔ in_grid cal day t).

(** Every entry of the schedule list is 0 or 1. *)
Definition binary (sched : list Z) : Prop := Forall (fun v => v = 0 ∨ v = 1) sched.

(** The scenes [rest] can all be placed on the schedule [sched]: there is
    one position per scene, in the order of the list, each a good placement
    ([good_placement]), on pairwise disjoint spans. *)
Definition completable (self : Scheduler.t) (tb : list (string * Qc))
    (sched : list Z) (rest : list string) : Prop :=
  ∃ ps : list (string * nat),
    ps.*1 = rest ∧
    Forall (good_placement self tb sched) ps ∧
    all_disjoint (span_of self <$> ps).

(** A part of the search that, when it fails, hands the schedule list
    back as it received it. *)
Definition restores (m : M Scheduler.search bool) : Prop :=
  ∀ st st', binary (Scheduler.schedule_ st) → m st = (st', Ret false) →
            Scheduler.schedule_ st' = Scheduler.schedule_ st.


(** Why a part of the search for the scenes [rest] may raise. *)
Definition raise_cause (sch : Scheduler.t) (rest : list string) (e : exn) : Prop :=
  (e = KeyError ∧ ∃ s, s ∈ rest ∧ Scheduler.scenes sch !! s = None) ∨
  (e = ZeroDivisionError ∧ Calendar.interval (Scheduler.calendar sch) = 0%Qc).


(** The ledger entry of an actor that has just been created from the
    grid [chart]: available at the slots of the day, nothing elsewhere. *)
Definition fresh_ledger (chart : gmap string (list Qc)) (day : string) (t : Qc)
  : option bool :=
  chart !! day ≫= fun blocks : list Qc => if decide (t ∈ blocks) then Some true else None.

(** The ledger of the participant has the day. *)
Definition has_day (cal : Calendar.t) (name day : string) : Prop :=
  ∃ a, Calendar.actor_objects cal !! name = Some a ∧
       is_Some (Actor.conflict_chart a !! day).

(** Some conflict of the list names the participant and the day and lists
    the slot. *)
Definition listed (conflicts : list Calendar.conflict) (name day : string) (t : Qc)
  : Prop :=
  ∃ times, (name, day, times) ∈ conflicts ∧ t ∈ times.

(** The feasibility check, with the default window, passes for the scene
    at a (day, slot) pair. *)
Definition feasible_start (sch : Scheduler.t) (scene : string) (p : string * Qc) : bool :=
  is_true_outcome (Scheduler.scene_works scene p.1 p.2 Scheduler.default_time_end sch).2.

(** The feasibility check with the window bound [time_end] passes for a
    (scene, slot) pair on the day. *)
Definition fits_window (sch : Scheduler.t) (day : string) (time_end : Qc)
    (p : string * Qc) : bool :=
  is_true_outcome (Scheduler.scene_works p.1 day p.2 time_end sch).2.

(** The text of one answer of a query: [x + " at " + str(time)]. *)
Definition at_text (str_time : Qc → string) (p : string * Qc) : string :=
  p.1 +:+ " at " +:+ str_time p.2.

(** ** Basic facts about the monad *)

Section monad_facts.
Context {S A B : Type}.

Lemma bind_ret_run (a : A) (k : A → M S B) (s : S) : bind (ret a) k s = k a s.
Proof. reflexivity. Qed.

Lemma bind_gets_run {T} (f : S → T) (k : T → M S B) (s : S) :
  bind (gets f) k s = k (f s) s.
Proof. reflexivity. Qed.

Lemma bind_run (m : M S A) (k : A → M S B) (s s' : S) (a : A) :
  m s = (s', Ret a) → bind m k s = k a s'.
Proof. unfold bind. by intros ->. Qed.

Lemma bind_raise_run (m : M S A) (k : A → M S B) (s s' : S) (e : exn) :
  m s = (s', Raise e) → bind m k s = (s', Raise e).
Proof. unfold bind. by intros ->. Qed.

Lemma getitem_run `{Countable K} (d : gmap K A) (k : K) (s : S) :
  getitem d k s = (s, match d !! k with Some v => Ret v | None => Raise KeyError end).
Proof. unfold getitem. by destruct (d !! k). Qed.

Lemma index_run (l : list A) (i : nat) (s : S) :
  index l i s = (s, match l !! i with Some v => Ret v | None => Raise IndexError end).
Proof. unfold index. by destruct (l !! i). Qed.
End monad_facts.

(** ** The ledger *)

Lemma mark_row_lookup v row times t :
  mark_row v row times !! t = if decide (t ∈ times) then Some v else row !! t.
Proof.
  unfold mark_row. revert row. induction times as [|x times IH]; intros row; cbn [foldl].
  - case_decide as H; [by apply elem_of_nil in H | done].
  - rewrite IH. destruct (decide (t ∈ times)) as [Hin|Hin].
    + rewrite decide_True; [done | by right].
    + destruct (decide (t = x)) as [->|Hne].
      * rewrite decide_True by left. by rewrite lookup_insert_eq.
      * rewrite decide_False; [by rewrite lookup_insert_ne|].
        intros [?|?]%elem_of_cons; congruence.
Qed.

Lemma mark_row_idemp v row times :
  mark_row v (mark_row v row times) times = mark_row v row times.
Proof.
  apply map_eq. intros t. rewrite !mark_row_lookup.
  by case_decide.
Qed.

Lemma mark_row_id v row times :
  (∀ t, t ∈ times → row !! t = Some v) → mark_row v row times = row.
Proof.
  intros H. apply map_eq. intros t. rewrite mark_row_lookup.
  case_decide; [by rewrite H | done].
Qed.

Lemma set_conflict_chart_id a : Actor.set_conflict_chart (Actor.conflict_chart a) a = a.
Proof. by destruct a. Qed.

Lemma set_slot_run day t v a :
  Actor.set_slot day t v a =
    match Actor.conflict_chart a !! day with
    | Some row =>
        (Actor.set_conflict_chart (<[day := <[t := v]> row]> (Actor.conflict_chart a)) a,
         Ret tt)
    | None => (a, Raise KeyError)
    end.
Proof.
  unfold Actor.set_slot. rewrite bind_gets_run. unfold bind.
  rewrite getitem_run. by destruct (Actor.conflict_chart a !! day).
Qed.

Lemma ledger_set_conflict_chart c a day t :
  ledger (Actor.set_conflict_chart c a) day t = c !! day ≫= fun row => row !! t.
Proof. reflexivity. Qed.

Lemma actor_is_available_cons day t times a :
  Actor.is_available day (t :: times) a =
    match ledger a day t with
    | Some true => Actor.is_available day times a
    | Some false => (a, Ret false)
    | None => (a, Raise KeyError)
    end.
Proof.
  cbn [Actor.is_available]. rewrite bind_gets_run. unfold bind, ledger.
  rewrite getitem_run.
  destruct (Actor.conflict_chart a !! day) as [row|]; simpl; [|done].
  rewrite getitem_run. by destruct (row !! t) as [[]|].
Qed.

(** [Actor.is_available] leaves the actor as it was. *)
Lemma actor_is_available_frame day times a :
  (Actor.is_available day times a).1 = a.
Proof.
  induction times as [|t times IH]; [done|].
  rewrite actor_is_available_cons. by destruct (ledger a day t) as [[]|].
Qed.

(** It answers [True] exactly when every requested slot is in the ledger
    and marked available. *)
Lemma actor_is_available_true day times a :
  (Actor.is_available day times a).2 = Ret true ↔
  ∀ t, t ∈ times → ledger a day t = Some true.
Proof.
  induction times as [|t times IH].
  - split; [|done]. intros _ t H. by apply elem_of_nil in H.
  - rewrite actor_is_available_cons.
    rewrite <-(list.Forall_forall (fun t => ledger a day t = Some true)), Forall_cons.
    rewrite list.Forall_forall, <-IH.
    destruct (ledger a day t) as [[]|]; cbn [snd]; split; try done.
    + by intros [_ ?].
    + by intros [[=] _].
    + by intros [[=] _].
Qed.

(** When every requested slot is in the ledger there is no lookup failure,
    and the answer is the conjunction over the slots. *)
Lemma actor_is_available_known day times a :
  (∀ t, t ∈ times → is_Some (ledger a day t)) →
  Actor.is_available day times a =
    (a, Ret (forallb (fun t => bool_decide (ledger a day t = Some true)) times)).
Proof.
  induction times as [|t times IH]; intros Hk; [done|].
  rewrite actor_is_available_cons. cbn [forallb].
  destruct (Hk t) as [v Hv]; [by left|]. rewrite Hv.
  destruct v; [|done].
  rewrite IH; [done|]. intros ??. apply Hk. by right.
Qed.

(** The only exception it can raise is [KeyError]. *)
Lemma actor_is_available_raise day times a e :
  (Actor.is_available day times a).2 = Raise e → e = KeyError.
Proof.
  induction times as [|t times IH]; [done|].
  rewrite actor_is_available_cons.
  destruct (ledger a day t) as [[]|]; simpl; congruence || done.
Qed.

(** ** The calendar *)

Lemma set_actor_objects_id cal :
  Calendar.set_actor_objects (Calendar.actor_objects cal) cal = cal.
Proof. by destruct cal. Qed.

Lemma on_actor_run {A} name (m : M Actor.t A) cal :
  Calendar.on_actor name m cal =
    match Calendar.actor_objects cal !! name with
    | None => (cal, Raise KeyError)
    | Some a =>
        (Calendar.set_actor_objects (<[name := (m a).1]> (Calendar.actor_objects cal)) cal,
         (m a).2)
    end.
Proof.
  unfold Calendar.on_actor.
  destruct (Calendar.actor_objects cal !! name) as [a|]; [|done]. by destruct (m a).
Qed.

Lemma actor_objects_set objs cal :
  Calendar.actor_objects (Calendar.set_actor_objects objs cal) = objs.
Proof. reflexivity. Qed.

Lemma set_actor_objects_set objs objs' cal :
  Calendar.set_actor_objects objs (Calendar.set_actor_objects objs' cal) =
  Calendar.set_actor_objects objs cal.
Proof. reflexivity. Qed.

Lemma conflict_chart_set c a :
  Actor.conflict_chart (Actor.set_conflict_chart c a) = c.
Proof. reflexivity. Qed.

Lemma set_conflict_chart_set c c' a :
  Actor.set_conflict_chart c (Actor.set_conflict_chart c' a) =
  Actor.set_conflict_chart c a.
Proof. reflexivity. Qed.

(** A method that leaves the actor alone leaves the calendar alone. *)
Lemma on_actor_readonly {A} name (m : M Actor.t A) cal a :
  Calendar.actor_objects cal !! name = Some a →
  (m a).1 = a →
  Calendar.on_actor name m cal = (cal, (m a).2).
Proof.
  intros Ha Hm. rewrite on_actor_run, Ha, Hm, insert_id by done.
  by rewrite set_actor_objects_id.
Qed.

Lemma participant_check_eq cal name day times :
  participant_check cal name day times =
    match Calendar.actor_objects cal !! name with
    | None => Raise KeyError
    | Some a => (Actor.is_available day times a).2
    end.
Proof.
  unfold participant_check. rewrite on_actor_run.
  by destruct (Calendar.actor_objects cal !! name).
Qed.

Lemma calendar_is_available_cons name names day times cal :
  Calendar.is_available (name :: names) day times cal =
    match participant_check cal name day times with
    | Ret true => Calendar.is_available names day times cal
    | Ret false => (cal, Ret false)
    | Raise e => (cal, Raise e)
    end.
Proof.
  rewrite participant_check_eq. cbn [Calendar.is_available]. unfold bind.
  destruct (Calendar.actor_objects cal !! name) as [a|] eqn:Ha.
  - rewrite (on_actor_readonly _ _ _ a Ha (actor_is_available_frame _ _ _)).
    by destruct (Actor.is_available day times a).2 as [[]|].
  - by rewrite on_actor_run, Ha.
Qed.

Lemma calendar_is_available_frame names day times cal :
  (Calendar.is_available names day times cal).1 = cal.
Proof.
  induction names as [|name names IH]; [done|].
  rewrite calendar_is_available_cons.
  by destruct (participant_check cal name day times) as [[]|].
Qed.

Lemma calendar_is_available_true names day times cal :
  (Calendar.is_available names day times cal).2 = Ret true ↔
  ∀ name, name ∈ names →
    ∃ a, Calendar.actor_objects cal !! name = Some a ∧
         ∀ t, t ∈ times → ledger a day t = Some true.
Proof.
  induction names as [|name names IH].
  - split; [|done]. intros _ ? H. by apply elem_of_nil in H.
  - rewrite calendar_is_available_cons, participant_check_eq. split.
    + intros H n [->|Hn]%elem_of_cons.
      * destruct (Calendar.actor_objects cal !! name) as [a|]; [|done].
        exists a. split; [done|]. apply actor_is_available_true.
        by destruct (Actor.is_available day times a).2 as [[]|].
      * apply IH; [|done].
        destruct (Calendar.actor_objects cal !! name) as [a|]; [|done].
        by destruct (Actor.is_available day times a).2 as [[]|].
    + intros H. destruct (H name) as (a & -> & Ha); [by left|].
      apply actor_is_available_true in Ha. rewrite Ha.
      apply IH. intros n Hn. apply H. by right.
Qed.

Lemma calendar_is_available_known names day times cal :
  (∀ name, name ∈ names →
     ∃ a, Calendar.actor_objects cal !! name = Some a ∧
          ∀ t, t ∈ times → is_Some (ledger a day t)) →
  Calendar.is_available names day times cal =
    (cal, Ret (forallb (fun name => is_true_outcome (participant_check cal name day times))
                 names)) ∧
  ∀ name, name ∈ names → ∃ b, participant_check cal name day times = Ret b.
Proof.
  induction names as [|name names IH]; intros Hk.
  - split; [done|]. intros ? H. by apply elem_of_nil in H.
  - destruct IH as [IH1 IH2]; [intros n Hn; apply Hk; by right|].
    destruct (Hk name) as (a & Ha & Hs); [by left|].
    assert (∃ b, participant_check cal name day times = Ret b) as [b Hb].
    { rewrite participant_check_eq, Ha, actor_is_available_known by done. eauto. }
    split.
    + rewrite calendar_is_available_cons. cbn [forallb]. rewrite Hb.
      destruct b; simpl; [apply IH1 | done].
    + intros n [->|Hn]%elem_of_cons; eauto.
Qed.

Lemma calendar_is_available_raise names day times cal e :
  (Calendar.is_available names day times cal).2 = Raise e → e = KeyError.
Proof.
  induction names as [|name names IH]; [done|].
  rewrite calendar_is_available_cons, participant_check_eq.
  destruct (Calendar.actor_objects cal !! name) as [a|]; [|simpl; congruence].
  destruct (Actor.is_available day times a).2 as [[]|e'] eqn:Hr; simpl; [done|done|].
  intros [= <-]. by apply actor_is_available_raise in Hr.
Qed.

(** *** Adding and removing conflicts *)

(** The loop shared by [add_conflict] and [remove_conflict]. *)
Lemma set_slots_run v name day times cal :
  for_each times (fun t => Calendar.on_actor name (Actor.set_slot day t v)) cal =
    match times with
    | [] => (cal, Ret tt)
    | _ :: _ =>
        match Calendar.actor_objects cal !! name with
        | None => (cal, Raise KeyError)
        | Some a =>
            match Actor.conflict_chart a !! day with
            | None => (cal, Raise KeyError)
            | Some row =>
                (Calendar.set_actor_objects
                   (<[name := Actor.set_conflict_chart
                                (<[day := mark_row v row times]> (Actor.conflict_chart a)) a]>
                      (Calendar.actor_objects cal)) cal,
                 Ret tt)
            end
        end
    end.
Proof.
  revert cal. induction times as [|t times IH]; intros cal; [done|].
  cbn [for_each]. unfold bind at 1. rewrite on_actor_run.
  destruct (Calendar.actor_objects cal !! name) as [a|] eqn:Ha; [|done].
  rewrite set_slot_run.
  destruct (Actor.conflict_chart a !! day) as [row|] eqn:Hrow; cbn [fst snd].
  - rewrite IH, actor_objects_set, lookup_insert_eq, conflict_chart_set, lookup_insert_eq.
    destruct times as [|t' times]; [done|].
    by rewrite set_actor_objects_set, insert_insert_eq, set_conflict_chart_set,
      insert_insert_eq.
  - by rewrite insert_id, set_actor_objects_id.
Qed.

Lemma add_conflict_run name day times cal :
  Calendar.add_conflict (name, day, times) cal =
    for_each times (fun t => Calendar.on_actor name (Actor.set_slot day t false)) cal.
Proof. reflexivity. Qed.

Lemma remove_conflict_run name day times cal :
  Calendar.remove_conflict (name, day, times) cal =
    for_each times (fun t => Calendar.on_actor name (Actor.set_slot day t true)) cal.
Proof. reflexivity. Qed.

(** ** The feasibility check *)

Lemma py_int_of_Z n : py_int (Qc_of_Z n) = n.
Proof. unfold py_int. simpl. apply Z.quot_1_r. Qed.

Lemma span_div (ts iv : Qc) n :
  iv ≠ 0%Qc → ((ts + Qc_of_Z n * iv - ts) / iv)%Qc = Qc_of_Z n.
Proof. intros Hiv. field. exact Hiv. Qed.

Lemma py_float_0 : py_float 0 = 0%Qc.
Proof. apply Qc_is_canon. by vm_compute. Qed.

(** [generate_times] on any window. *)
Lemma generate_times_general ts te sch :
  let iv := Calendar.interval (Scheduler.calendar sch) in
  Scheduler.generate_times ts te sch =
    if decide (iv = 0%Qc) then (sch, Raise ZeroDivisionError)
    else (sch, Ret (window_times iv ts te)).
Proof.
  intros iv. unfold Scheduler.generate_times. rewrite bind_gets_run.
  fold iv. unfold bind, py_div. by destruct (decide (iv = 0%Qc)).
Qed.

Lemma representableb_spec x : representableb x = true → representable x.
Proof. apply Qc_eq_bool_correct. Qed.

Lemma slots_unroundedb_spec iv ts l :
  forallb (slot_unroundedb iv ts) l = true → Forall (slot_unrounded iv ts) l.
Proof.
  intros Hslots. apply list.Forall_forall. intros i Hi.
  apply list_elem_of_In in Hi.
  pose proof (proj1 (forallb_forall _ _) Hslots i Hi) as H.
  unfold slot_unroundedb in H.
  rewrite !andb_true_iff in H. destruct H as [[H1 H2] H3].
  repeat split; by apply representableb_spec.
Qed.

Lemma unroundedb_spec iv ts n : unroundedb iv ts n = true → unrounded iv ts n.
Proof.
  unfold unroundedb, unrounded. rewrite !andb_true_iff.
  intros [[[Hn Hmul] Hend] Hslots].
  repeat split; try by apply representableb_spec.
  by apply slots_unroundedb_spec.
Qed.

Lemma window_unroundedb_spec iv ts te :
  window_unroundedb iv ts te = true → window_unrounded iv ts te.
Proof.
  unfold window_unroundedb, window_unrounded. rewrite !andb_true_iff.
  intros [[Hsub Hdiv] Hslots].
  repeat split; try by apply representableb_spec.
  by apply slots_unroundedb_spec.
Qed.

(** Slots computed without rounding are the exact ones. *)
Lemma slots_exact iv ts l :
  Forall (slot_unrounded iv ts) l →
  slot_at iv ts <$> l = (fun i : nat => (ts + iv * Qc_of_Z (Z.of_nat i))%Qc) <$> l.
Proof.
  intros Hslots. apply Forall_fmap_ext. eapply Forall_impl; [exact Hslots|].
  intros i (Hi & Himul & Hiadd). cbn beta.
  unfold slot_at, py_add, py_mul, float_of_int. by rewrite Hi, Himul, Hiadd.
Qed.

Lemma window_exact iv ts te :
  window_unrounded iv ts te →
  window_times iv ts te = occupied iv ts (py_int ((te - ts) / iv)%Qc).
Proof.
  intros (Hsub & Hdiv & Hslots). unfold window_times, py_sub, occupied, py_range.
  rewrite Hsub, Hdiv. by apply slots_exact.
Qed.

(** Where nothing rounds, the check computes the exact end and looks at
    exactly the slots the scene occupies. *)
Lemma unrounded_exact (iv ts : Qc) (n : Z) :
  iv ≠ 0%Qc → unrounded iv ts n →
  scene_end iv ts n = (ts + Qc_of_Z n * iv)%Qc ∧ checked iv ts n = occupied iv ts n.
Proof.
  intros Hiv (Hn & Hmul & Hend & Hslots).
  assert (scene_end iv ts n = (ts + Qc_of_Z n * iv)%Qc) as He.
  { unfold scene_end, py_add, py_mul, float_of_int. by rewrite Hn, Hmul, Hend. }
  split; [done|].
  unfold checked, window_times, py_sub. rewrite He.
  replace (ts + Qc_of_Z n * iv - ts)%Qc with (Qc_of_Z n * iv)%Qc by ring.
  rewrite Hmul.
  replace (Qc_of_Z n * iv / iv)%Qc with (Qc_of_Z n) by (field; exact Hiv).
  rewrite Hn, py_int_of_Z. unfold occupied, py_range. by apply slots_exact.
Qed.

Lemma set_calendar_id sch : Scheduler.set_calendar (Scheduler.calendar sch) sch = sch.
Proof. by destruct sch. Qed.

Lemma generate_times_run ts n sch :
  let iv := Calendar.interval (Scheduler.calendar sch) in
  Scheduler.generate_times ts (scene_end iv ts n) sch =
    if decide (iv = 0%Qc) then (sch, Raise ZeroDivisionError)
    else (sch, Ret (checked iv ts n)).
Proof. apply generate_times_general. Qed.

(** What one call of [scene_works] does, in terms of the state it reads. *)
Lemma scene_works_run scene day ts te sch :
  let iv := Calendar.interval (Scheduler.calendar sch) in
  Scheduler.scene_works scene day ts te sch =
    match Scheduler.scenes sch !! scene with
    | None => (sch, Raise KeyError)
    | Some sc =>
        let n := Scene.length sc in
        if bool_decide (te < scene_end iv ts n)%Qc then (sch, Ret false)
        else if decide (iv = 0%Qc) then (sch, Raise ZeroDivisionError)
        else (sch, Ret (is_true_outcome
                          (Calendar.is_available (Scene.all_actors sc) day
                             (checked iv ts n) (Scheduler.calendar sch)).2))
    end.
Proof.
  intros iv. unfold Scheduler.scene_works. rewrite bind_gets_run.
  unfold bind at 1. rewrite getitem_run.
  destruct (Scheduler.scenes sch !! scene) as [sc|] eqn:Hsc; [|done].
  rewrite bind_gets_run. fold iv. cbn zeta.
  fold (scene_end iv ts (Scene.length sc)).
  destruct (bool_decide _); [done|].
  unfold bind at 1. unfold iv at 1. rewrite generate_times_run. fold iv.
  destruct (decide (iv = 0%Qc)); [done|].
  unfold try_except. rewrite bind_gets_run. unfold bind at 1.
  rewrite getitem_run, Hsc. unfold Scheduler.on_calendar, zoom.
  pose proof (calendar_is_available_frame (Scene.all_actors sc) day
                (checked iv ts (Scene.length sc)) (Scheduler.calendar sch)) as Hf.
  destruct (Calendar.is_available _ _ _ _) as [cal' r]. simpl in Hf. subst cal'.
  rewrite set_calendar_id. by destruct r as [[]|].
Qed.

Lemma scene_works_frame scene day ts te sch :
  (Scheduler.scene_works scene day ts te sch).1 = sch.
Proof.
  rewrite scene_works_run.
  destruct (Scheduler.scenes sch !! scene); [|done]. cbn zeta.
  destruct (bool_decide _); [done|]. by destruct (decide _).
Qed.

(** The check answers [True] exactly in this case. *)
Lemma scene_works_true scene day ts te sch :
  let cal := Scheduler.calendar sch in
  let iv := Calendar.interval cal in
  (Scheduler.scene_works scene day ts te sch).2 = Ret true ↔
  ∃ sc, Scheduler.scenes sch !! scene = Some sc ∧
        (scene_end iv ts (Scene.length sc) ≤ te)%Qc ∧
        iv ≠ 0%Qc ∧
        ∀ name, name ∈ Scene.all_actors sc →
          ∃ a, Calendar.actor_objects cal !! name = Some a ∧
               ∀ t, t ∈ checked iv ts (Scene.length sc) → ledger a day t = Some true.
Proof.
  intros cal iv. rewrite scene_works_run. fold cal iv.
  destruct (Scheduler.scenes sch !! scene) as [sc|].
  2:{ split; [done|]. by intros (? & [=] & _). }
  cbn zeta. case_bool_decide as Hlt.
  { split; [done|]. intros (? & [= <-] & Hle & _). by apply Qcle_not_lt in Hle. }
  apply Qcnot_lt_le in Hlt.
  destruct (decide (iv = 0%Qc)) as [H0|H0].
  { split; [done|]. by intros (? & _ & _ & ? & _). }
  cbn [snd]. split.
  - intros Hr. exists sc. do 3 (split; [done|]).
    apply calendar_is_available_true.
    by destruct (Calendar.is_available _ _ _ _).2 as [[]|].
  - intros (? & [= <-] & _ & _ & Hall).
    apply calendar_is_available_true in Hall. by rewrite Hall.
Qed.

(** With a registered scene and a non-zero interval the check always
    answers, and never raises. *)
Lemma scene_works_total scene day ts te sch sc :
  Scheduler.scenes sch !! scene = Some sc →
  Calendar.interval (Scheduler.calendar sch) ≠ 0%Qc →
  ∃ b, Scheduler.scene_works scene day ts te sch = (sch, Ret b).
Proof.
  intros Hsc H0. rewrite scene_works_run, Hsc. cbn zeta.
  destruct (bool_decide _); [eauto|]. rewrite decide_False by done. eauto.
Qed.

(** ** The search: one step at a time *)

Lemma search_eta st :
  {| Scheduler.self_ := Scheduler.self_ st;
     Scheduler.schedule_ := Scheduler.schedule_ st;
     Scheduler.arrangement_ := Scheduler.arrangement_ st |} = st.
Proof. by destruct st. Qed.

Lemma fill_length v sched js : length (fill v sched js) = length sched.
Proof.
  unfold fill. revert sched. induction js as [|j js IH]; intros sched; [done|].
  cbn [foldl]. by rewrite IH, length_insert.
Qed.

Lemma fill_lookup v sched js j :
  fill v sched js !! j =
    if decide (j ∈ js ∧ (j < length sched)%nat) then Some v else sched !! j.
Proof.
  unfold fill. revert sched. induction js as [|x js IH]; intros sched; cbn [foldl].
  - rewrite decide_False; [done|]. intros [H _]. by apply elem_of_nil in H.
  - rewrite IH, length_insert.
    destruct (decide (j ∈ js ∧ (j < length sched)%nat)) as [[Hin Hlt]|Hn].
    + rewrite decide_True; [done|]. split; [by right|done].
    + destruct (decide (j = x)) as [->|Hne].
      * destruct (decide (x < length sched)%nat) as [Hlt|Hge].
        -- rewrite decide_True by (split; [by left|done]).
           by apply list_lookup_insert_eq.
        -- rewrite decide_False by (intros [_ ?]; done).
           by rewrite list_insert_ge by lia.
      * rewrite list_lookup_insert_ne by done.
        rewrite decide_False; [done|].
        intros [[?|?]%elem_of_cons ?]; [done|]. by apply Hn.
Qed.

Lemma check_open_run js o st :
  Scheduler.check_open js o st =
    (st, Ret (o && forallb (fun j => match Scheduler.schedule_ st !! j with
                                     | Some v => bool_decide (v ≠ 1)
                                     | None => false
                                     end) js)).
Proof.
  revert o. induction js as [|j js IH]; intros o; cbn [Scheduler.check_open forallb].
  - by rewrite andb_true_r.
  - unfold bind at 1, try_except. rewrite bind_gets_run. unfold bind at 1.
    rewrite index_run.
    destruct (Scheduler.schedule_ st !! j) as [v|]; cbn [ret].
    + destruct (decide (v = 1)) as [->|Hv]; cbn [ret]; rewrite IH.
      * by rewrite bool_decide_false, andb_false_r by (intros ?; done).
      * by rewrite bool_decide_true by done.
    + rewrite IH. by rewrite andb_false_r.
Qed.

Lemma range_open_spec sched i n :
  range_open sched i n = true ↔
  ∀ j, j ∈ py_range i n → (j < length sched)%nat ∧ sched !! j ≠ Some 1.
Proof.
  unfold range_open. rewrite <-Is_true_true, forallb_True, list.Forall_forall.
  split; intros H j Hj; specialize (H j Hj).
  - destruct (sched !! j) as [v|] eqn:Hv; [|done].
    apply bool_decide_unpack in H. split; [by eapply lookup_lt_Some|congruence].
  - destruct H as [Hlt Hne]. destruct (lookup_lt_is_Some_2 sched j Hlt) as [v Hv].
    rewrite Hv in Hne |- *. apply bool_decide_pack. congruence.
Qed.

Lemma for_each_set_schedule_run v js st :
  (∀ j, j ∈ js → (j < length (Scheduler.schedule_ st))%nat) →
  for_each js (fun j => Scheduler.set_schedule j v) st =
    ({| Scheduler.self_ := Scheduler.self_ st;
        Scheduler.schedule_ := fill v (Scheduler.schedule_ st) js;
        Scheduler.arrangement_ := Scheduler.arrangement_ st |}, Ret tt).
Proof.
  revert st. induction js as [|j js IH]; intros st Hjs; cbn [for_each].
  - by rewrite search_eta.
  - unfold bind at 1, Scheduler.set_schedule. rewrite bind_gets_run.
    unfold bind at 1. rewrite index_run.
    destruct (lookup_lt_is_Some_2 (Scheduler.schedule_ st) j) as [x Hx];
      [apply Hjs; by left|].
    rewrite Hx. unfold modify. rewrite IH.
    + done.
    + cbn. intros j' Hj'. rewrite length_insert. apply Hjs. by right.
Qed.

Lemma on_self_scene_works scene day ts te st :
  Scheduler.on_self (Scheduler.scene_works scene day ts te) st =
    (st, (Scheduler.scene_works scene day ts te (Scheduler.self_ st)).2).
Proof.
  unfold Scheduler.on_self, zoom.
  pose proof (scene_works_frame scene day ts te (Scheduler.self_ st)) as Hf.
  destruct (Scheduler.scene_works _ _ _ _ _) as [s r]. simpl in Hf. subst s.
  by rewrite search_eta.
Qed.

(** One turn of the loop over the candidate positions. *)
Lemma try_positions_cons recurse tb scene n i ps st :
  (∀ st0 st1 r, recurse st0 = (st1, r) →
     length (Scheduler.schedule_ st1) = length (Scheduler.schedule_ st0)) →
  Scheduler.try_positions recurse tb scene n (i :: ps) st =
    match tb !! i with
    | None => (st, Raise IndexError)
    | Some (day, ts) =>
        if range_open (Scheduler.schedule_ st) i n then
          match (Scheduler.scene_works scene day ts Scheduler.default_time_end
                   (Scheduler.self_ st)).2 with
          | Raise e => (st, Raise e)
          | Ret false => Scheduler.try_positions recurse tb scene n ps st
          | Ret true =>
              match recurse (place st i n scene (Scheduler.Slot day ts)) with
              | (st', Ret true) => (st', Ret true)
              | (st', Ret false) =>
                  Scheduler.try_positions recurse tb scene n ps (withdraw st' i n scene)
              | (st', Raise e) => (st', Raise e)
              end
          end
        else Scheduler.try_positions recurse tb scene n ps st
    end.
Proof.
  intros Hlen. cbn [Scheduler.try_positions]. unfold bind at 1. rewrite index_run.
  destruct (tb !! i) as [[day ts]|]; [|done]. cbn [fst snd].
  unfold bind at 1. rewrite check_open_run. cbn [andb]. fold (range_open (Scheduler.schedule_ st) i n).
  destruct (range_open (Scheduler.schedule_ st) i n) eqn:Hopen; [|done].
  unfold bind at 1, Scheduler.schedule_is_valid. rewrite on_self_scene_works.
  destruct (Scheduler.scene_works _ _ _ _ _).2 as [[]|e]; [|done|done].
  unfold bind at 1. rewrite for_each_set_schedule_run
    by (intros j Hj; by apply (range_open_spec _ i n)).
  unfold bind at 1, Scheduler.set_arrangement, modify. cbn [Scheduler.self_
    Scheduler.schedule_ Scheduler.arrangement_].
  fold (place st i n scene (Scheduler.Slot day ts)).
  unfold bind at 1.
  destruct (recurse (place st i n scene (Scheduler.Slot day ts))) as [st' [[]|e]] eqn:Hrec;
    [done| |done].
  unfold bind at 1. rewrite for_each_set_schedule_run.
  - done.
  - intros j Hj. rewrite (Hlen _ _ _ Hrec). cbn. rewrite fill_length.
    by apply (range_open_spec _ i n).
Qed.

(** ** The search: what every run preserves *)

Lemma extends_refl st : extends st st.
Proof. by repeat split. Qed.

Lemma extends_trans st1 st2 st3 : extends st1 st2 → extends st2 st3 → extends st1 st3.
Proof.
  intros (Hs1 & Hl1 & Hm1) (Hs2 & Hl2 & Hm2). repeat split.
  - congruence.
  - congruence.
  - intros j Hj. by apply Hm2, Hm1.
Qed.

Lemma place_extends st i n scene e : extends st (place st i n scene e).
Proof.
  repeat split; cbn.
  - apply fill_length.
  - intros j Hj. rewrite fill_lookup. by case_decide.
Qed.

Lemma withdraw_extends st st1 i n scene e :
  range_open (Scheduler.schedule_ st) i n = true →
  extends (place st i n scene e) st1 →
  extends st (withdraw st1 i n scene).
Proof.
  intros Hopen (Hs & Hl & Hm). repeat split; cbn.
  - by rewrite Hs.
  - rewrite fill_length, Hl. cbn. apply fill_length.
  - intros j Hj. rewrite fill_lookup. rewrite decide_False.
    + apply Hm. cbn. rewrite fill_lookup. by case_decide.
    + intros [Hin _]. by destruct (proj1 (range_open_spec _ i n) Hopen j Hin).
Qed.

Lemma keeps_length rest m :
  keeps rest m →
  ∀ st0 st1 r, m st0 = (st1, r) →
    length (Scheduler.schedule_ st1) = length (Scheduler.schedule_ st0).
Proof. intros Hk st0 st1 r Hm. by destruct (Hk _ _ _ Hm) as [(_ & ? & _) _]. Qed.

Lemma try_positions_keeps recurse tb scene n rest ps :
  keeps rest recurse →
  keeps (scene :: rest) (Scheduler.try_positions recurse tb scene n ps).
Proof.
  intros Hk. induction ps as [|i ps IH]; intros st st' r.
  { intros [= <- <-]. split; [apply extends_refl | done]. }
  rewrite try_positions_cons by (by eapply keeps_length).
  destruct (tb !! i) as [[day ts]|]; [|intros [= <- <-]; split; [apply extends_refl | done]].
  destruct (range_open _ _ _) eqn:Hopen; [|apply IH].
  destruct (Scheduler.scene_works _ _ _ _ _).2 as [[]|e];
    [|apply IH|intros [= <- <-]; split; [apply extends_refl | done]].
  destruct (recurse _) as [st1 r1] eqn:Hrec.
  destruct (Hk _ _ _ Hrec) as [Hext Harr].
  assert (extends st st1) as Hext1
    by (eapply extends_trans; [apply place_extends | exact Hext]).
  assert (∀ s, s ∉ scene :: rest →
            Scheduler.arrangement_ st1 !! s = Scheduler.arrangement_ st !! s) as Harr1.
  { intros s Hs. apply not_elem_of_cons in Hs as [Hne Hs].
    rewrite Harr by done. cbn. by rewrite lookup_insert_ne. }
  destruct r1 as [[]|e].
  - by intros [= <- <-].
  - intros Hrun. destruct (IH _ _ _ Hrun) as [Hext2 Harr2]. split.
    + eapply extends_trans; [|exact Hext2]. by eapply withdraw_extends.
    + intros s Hs. rewrite Harr2 by done. cbn.
      apply not_elem_of_cons in Hs as [Hne Hs].
      rewrite lookup_insert_ne by done. rewrite Harr by done.
      cbn. by rewrite lookup_insert_ne.
  - by intros [= <- <-].
Qed.

(** What one call of [schedule_solve] does. *)
Lemma schedule_solve_fuel_run fuel scene_list tb idx st :
  Scheduler.schedule_solve_fuel fuel scene_list tb idx st =
    if decide (idx = length scene_list) then (st, Ret true) else
    match scene_list !! idx with
    | None => (st, Raise IndexError)
    | Some scene =>
        match Scheduler.scenes (Scheduler.self_ st) !! scene with
        | None => (st, Raise KeyError)
        | Some sc =>
            Scheduler.try_positions (next_scene fuel scene_list tb idx) tb scene
              (Scene.length sc) (seq 0 (length (Scheduler.schedule_ st))) st
        end
    end.
Proof.
  destruct fuel; cbn [Scheduler.schedule_solve_fuel];
    (destruct (decide (idx = length scene_list)); [done|]);
    unfold bind at 1; rewrite index_run;
    (destruct (scene_list !! idx) as [scene|]; [|done]);
    rewrite bind_gets_run; unfold bind at 1; rewrite getitem_run;
    (destruct (Scheduler.scenes (Scheduler.self_ st) !! scene); [|done]);
    by rewrite bind_gets_run.
Qed.

Lemma schedule_solve_keeps fuel scene_list tb idx :
  keeps (drop idx scene_list) (Scheduler.schedule_solve_fuel fuel scene_list tb idx).
Proof.
  revert idx. induction fuel as [|fuel IH]; intros idx st st' r;
    rewrite schedule_solve_fuel_run;
    (destruct (decide _); [intros [= <- <-]; split; [apply extends_refl | done]|]);
    (destruct (scene_list !! idx) as [scene|] eqn:Hscene;
       [|intros [= <- <-]; split; [apply extends_refl | done]]);
    (destruct (Scheduler.scenes _ !! scene);
       [|intros [= <- <-]; split; [apply extends_refl | done]]);
    rewrite (drop_S _ _ _ Hscene); apply try_positions_keeps.
  - intros ??? [= <- <-]. split; [apply extends_refl | done].
  - replace (S idx) with (idx + 1)%nat by lia. apply IH.
Qed.

(** ** The search: what a successful run has done *)

Lemma good_placement_weaken self tb sched sched' p :
  length sched' = length sched →
  (∀ j, sched !! j = Some 1 → sched' !! j = Some 1) →
  good_placement self tb sched' p → good_placement self tb sched p.
Proof.
  intros Hl Hm (sc & day & ts & Hsc & Htb & Hw & Hfree).
  exists sc, day, ts. do 3 (split; [done|]).
  intros j Hj. destruct (Hfree j Hj) as [Hlt Hne]. split; [lia|].
  intros H1. by apply Hne, Hm.
Qed.

Lemma placed_weaken rest st st2 tb arr ps :
  extends st st2 →
  placed rest (Scheduler.self_ st2) tb (Scheduler.schedule_ st2) arr ps →
  placed rest (Scheduler.self_ st) tb (Scheduler.schedule_ st) arr ps.
Proof.
  intros (Hs & Hl & Hm) (Hfst & Hgood & Hdis & Harr). rewrite Hs in *.
  split; [done|]. split; [|done].
  eapply Forall_impl; [exact Hgood|]. intros p. by apply good_placement_weaken.
Qed.

Lemma try_positions_success recurse tb scene rest sc positions :
  keeps rest recurse →
  (∀ st st', recurse st = (st', Ret true) →
     ∃ ps, placed rest (Scheduler.self_ st) tb (Scheduler.schedule_ st)
             (Scheduler.arrangement_ st') ps) →
  ∀ st st',
    Scheduler.scenes (Scheduler.self_ st) !! scene = Some sc →
    Scheduler.try_positions recurse tb scene (Scene.length sc) positions st
      = (st', Ret true) →
    ∃ ps, placed (scene :: rest) (Scheduler.self_ st) tb (Scheduler.schedule_ st)
            (Scheduler.arrangement_ st') ps.
Proof.
  intros Hk Hrec. induction positions as [|i positions IH]; intros st st' Hsc; [done|].
  rewrite try_positions_cons by (by eapply keeps_length).
  destruct (tb !! i) as [[day ts]|] eqn:Htb; [|done].
  destruct (range_open _ _ _) eqn:Hopen; [|by apply IH].
  destruct (Scheduler.scene_works _ _ _ _ _).2 as [[]|e] eqn:Hw; [|by apply IH|done].
  destruct (recurse _) as [st1 r1] eqn:Hrun.
  destruct (Hk _ _ _ Hrun) as [Hext Harr].
  pose proof (proj1 (range_open_spec _ _ _) Hopen) as Hfree.
  destruct r1 as [[]|e]; [| |done].
  - intros [= <-]. destruct (Hrec _ _ Hrun) as (ps & Hfst & Hgood & Hdis & Hin).
    cbn in Hfst, Hgood, Hdis, Hin.
    assert (span_of (Scheduler.self_ st) (scene, i) = py_range i (Scene.length sc)) as Hspan
      by (unfold span_of; cbn; by rewrite Hsc).
    exists ((scene, i) :: ps). split; [by rewrite fmap_cons, Hfst|]. split; [|split].
    + apply Forall_cons. split.
      * exists sc, day, ts. do 3 (split; [done|]). rewrite Hspan. exact Hfree.
      * eapply Forall_impl; [exact Hgood|]. intros p.
        apply good_placement_weaken; [apply fill_length|].
        intros j Hj. rewrite fill_lookup. by case_decide.
    + rewrite fmap_cons. split; [|done].
      intros y (p & -> & Hp)%list_elem_of_fmap j Hj1 Hj2.
      rewrite list.Forall_forall in Hgood.
      destruct (Hgood p Hp) as (? & ? & ? & _ & _ & _ & Hpfree).
      destruct (Hpfree j Hj2) as [_ Hne]. apply Hne.
      rewrite Hspan in Hj1. rewrite fill_lookup, decide_True; [done|].
      split; [done|]. by apply Hfree.
    + intros s Hs. destruct (decide (s ∈ rest)) as [Hr|Hr].
      * destruct (Hin s Hr) as (i' & d' & t' & ? & ? & ?).
        exists i', d', t'. split; [by right|done].
      * apply elem_of_cons in Hs as [->|?]; [|done].
        exists i, day, ts. split; [by left|]. split; [done|].
        rewrite Harr by done. cbn. by rewrite lookup_insert_eq.
  - intros Hrest.
    assert (extends st (withdraw st1 i (Scene.length sc) scene)) as Hext2.
    { eapply withdraw_extends; [done|exact Hext]. }
    assert (Scheduler.scenes (Scheduler.self_ (withdraw st1 i (Scene.length sc) scene))
              !! scene = Some sc) as Hsc2 by (by rewrite (proj1 Hext2)).
    destruct (IH _ _ Hsc2 Hrest) as [ps Hps].
    exists ps. eapply placed_weaken; [exact Hext2 | exact Hps].
Qed.

Lemma schedule_solve_success fuel scene_list tb :
  ∀ idx st st',
    Scheduler.schedule_solve_fuel fuel scene_list tb idx st = (st', Ret true) →
    ∃ ps, placed (drop idx scene_list) (Scheduler.self_ st) tb (Scheduler.schedule_ st)
            (Scheduler.arrangement_ st') ps.
Proof.
  induction fuel as [|fuel IH]; intros idx st st'; rewrite schedule_solve_fuel_run.
  all: destruct (decide _) as [->|Hne];
    [intros _; exists []; rewrite drop_all; split; [done|]; split; [done|];
      split; [done|]; intros s Hs; by apply elem_of_nil in Hs|].
  all: destruct (scene_list !! idx) as [scene|] eqn:Hscene; [|done].
  all: destruct (Scheduler.scenes _ !! scene) as [sc|] eqn:Hsc; [|done].
  all: rewrite (drop_S _ _ _ Hscene); apply try_positions_success; try done.
  - by intros ??? [= <- <-].
  - replace (S idx) with (idx + 1)%nat by lia. apply schedule_solve_keeps.
  - intros st0 st1. cbn. replace (S idx) with (idx + 1)%nat by lia. apply IH.
Qed.

(** ** The timeline and [schedule] *)

Lemma make_timeblocks_run days sch :
  Scheduler.make_timeblocks days sch =
    (sch, match timeline (Calendar.day_time_chart (Scheduler.calendar sch)) days with
          | Some tb => Ret tb
          | None => Raise KeyError
          end).
Proof.
  induction days as [|day days IH]; [done|].
  cbn [Scheduler.make_timeblocks timeline]. rewrite bind_gets_run.
  unfold bind at 1. rewrite getitem_run.
  destruct (Calendar.day_time_chart (Scheduler.calendar sch) !! day) as [blocks|]; [|done].
  unfold bind at 1. rewrite IH. by destruct (timeline _ days).
Qed.

Lemma schedule_run days scene_list sch :
  Scheduler.schedule days scene_list sch =
    match timeline (Calendar.day_time_chart (Scheduler.calendar sch)) days with
    | None => (sch, Raise KeyError)
    | Some tb =>
        match Scheduler.schedule_solve scene_list tb 0 (initial_search sch tb) with
        | (st, Ret true) => (Scheduler.self_ st, Ret (Some (Scheduler.arrangement_ st)))
        | (st, Ret false) => (Scheduler.self_ st, Ret None)
        | (st, Raise e) => (Scheduler.self_ st, Raise e)
        end
    end.
Proof.
  unfold Scheduler.schedule, bind. rewrite make_timeblocks_run.
  by destruct (timeline _ days).
Qed.


Lemma timeline_blocks chart days tb i day t :
  timeline chart days = Some tb → tb !! i = Some (day, t) →
  ∃ blocks, chart !! day = Some blocks ∧ t ∈ blocks.
Proof.
  revert tb i. induction days as [|d days IH]; intros tb i; cbn [timeline].
  - by intros [= <-].
  - destruct (chart !! d) as [blocks|] eqn:Hd; [|done].
    destruct (timeline chart days) as [rest|]; [|done].
    intros [= <-] [H|[_ H]]%lookup_app_Some.
    + rewrite list_lookup_fmap in H.
      destruct (blocks !! i) as [b|] eqn:Hb; [|done]. injection H as <- <-.
      exists blocks. split; [done|]. by eapply list_elem_of_lookup_2.
    + by eapply IH.
Qed.


(** ** Properties of the ledger and of the calendar *)

Lemma for_each_singleton {S A} (x : A) (body : A → M S unit) (s : S) :
  for_each [x] body s = body x s.
Proof.
  cbn [for_each]. unfold bind. destruct (body x s) as [s' [[]|e]]; done.
Qed.

(** C5 (as amended).  [Actor.add_conflict(day, time)] on a day the ledger
    has: the slot is marked unavailable, whether or not the slot was in the
    ledger before (an unknown slot is added), nothing else changes, and
    nothing changes at all when the slot was already unavailable.  On a
    day the ledger does not have it raises [KeyError] and changes nothing.
    [Calendar.add_conflict] with a one-slot conflict does this to the named
    actor's object, and raises [KeyError] for an unknown name. *)
Theorem add_conflict_effect (a : Actor.t) (day : string) (t : Qc) :
  match Actor.conflict_chart a !! day with
  | Some row =>
      ∃ a', Actor.add_conflict day t a = (a', Ret tt) ∧
            Actor.name a' = Actor.name a ∧
            ledger a' day t = Some false ∧
            (∀ d' t', (d', t') ≠ (day, t) → ledger a' d' t' = ledger a d' t') ∧
            (ledger a day t = Some false → a' = a)
  | None => Actor.add_conflict day t a = (a, Raise KeyError)
  end ∧
  ∀ cal name,
    Calendar.add_conflict (name, day, [t]) cal =
      match Calendar.actor_objects cal !! name with
      | Some a0 =>
          (Calendar.set_actor_objects
             (<[name := (Actor.add_conflict day t a0).1]> (Calendar.actor_objects cal)) cal,
           (Actor.add_conflict day t a0).2)
      | None => (cal, Raise KeyError)
      end.
Proof.
  split.
  - unfold Actor.add_conflict. rewrite set_slot_run.
    destruct (Actor.conflict_chart a !! day) as [row|] eqn:Hrow; [|done].
    eexists. split; [done|]. split; [done|]. split; [|split].
    + rewrite ledger_set_conflict_chart, lookup_insert_eq. cbn.
      by rewrite lookup_insert_eq.
    + intros d' t' Hne. rewrite ledger_set_conflict_chart. unfold ledger.
      destruct (decide (d' = day)) as [->|Hd].
      * rewrite lookup_insert_eq, Hrow. cbn. rewrite lookup_insert_ne; [done|].
        congruence.
      * by rewrite lookup_insert_ne.
    + unfold ledger. rewrite Hrow. cbn. intros Hf.
      rewrite (insert_id row), (insert_id (Actor.conflict_chart a)) by done.
      apply set_conflict_chart_id.
  - intros cal name. rewrite add_conflict_run, for_each_singleton.
    apply on_actor_run.
Qed.

(** C5 (as stated) fails: on an unknown day the call raises [KeyError], and
    on an unknown slot of a known day it adds the slot to the ledger. *)
Lemma add_conflict_unknown_not_silent :
  let a := Actor.init "A" {[ "D1" := [1%Qc] ]} in
  (Actor.add_conflict "D2" 1%Qc a).2 = Raise KeyError ∧
  ledger a "D1" 2%Qc = None ∧
  ledger (Actor.add_conflict "D1" 2%Qc a).1 "D1" 2%Qc = Some false ∧
  (Actor.add_conflict "D1" 2%Qc a).1 ≠ a.
Proof.
  cbv zeta. split; [by vm_compute|]. split; [by vm_compute|].
  split; [by vm_compute|].
  intros H. apply (f_equal (fun x => ledger x "D1" 2%Qc)) in H.
  vm_compute in H. discriminate H.
Qed.

(** C8.  Applying a conflict a second time changes nothing: the calendar
    after the second application is the calendar after the first, and the
    second application ends the way the first did. *)
Theorem add_conflict_idempotent (cal : Calendar.t) (c : Calendar.conflict) :
  let once := Calendar.add_conflict c cal in
  let twice := Calendar.add_conflict c once.1 in
  twice.1 = once.1 ∧ twice.2 = once.2.
Proof.
  destruct c as [[name day] times]. cbv zeta.
  rewrite !add_conflict_run, (set_slots_run false name day times cal).
  destruct times as [|t times]; [done|].
  destruct (Calendar.actor_objects cal !! name) as [a|] eqn:Ha;
    [|cbn [fst]; by rewrite set_slots_run, Ha].
  destruct (Actor.conflict_chart a !! day) as [row|] eqn:Hrow;
    [|cbn [fst]; by rewrite set_slots_run, Ha, Hrow].
  cbn [fst snd]. rewrite set_slots_run, actor_objects_set, lookup_insert_eq,
    conflict_chart_set, lookup_insert_eq.
  by rewrite set_actor_objects_set, insert_insert_eq, set_conflict_chart_set,
    insert_insert_eq, mark_row_idemp.
Qed.

Lemma ledger_of_eq cal name a day t :
  Calendar.actor_objects cal !! name = Some a → ledger_of cal name day t = ledger a day t.
Proof. unfold ledger_of. by intros ->. Qed.

(** C6 (as amended).  When every named participant is known and has every
    requested slot in its ledger for the day, [Calendar.is_available]
    answers without raising and without changing the calendar; the answer
    is [False] exactly when some named participant is unavailable at some
    requested slot; it is the conjunction of the checks of the
    participants, each of which answers; and listing the participants in
    another order gives the same answer. *)
Theorem is_available_conjunction (cal : Calendar.t) (names : list string)
    (day : string) (times : list Qc) :
  (∀ name, name ∈ names →
     ∃ a, Calendar.actor_objects cal !! name = Some a ∧
          ∀ t, t ∈ times → is_Some (ledger a day t)) →
  ∃ b, Calendar.is_available names day times cal = (cal, Ret b) ∧
       (b = false ↔
          ∃ name t, name ∈ names ∧ t ∈ times ∧ ledger_of cal name day t = Some false) ∧
       b = forallb (fun name => is_true_outcome (participant_check cal name day times)) names ∧
       (∀ name, name ∈ names → ∃ bn, participant_check cal name day times = Ret bn) ∧
       ∀ names', names' ≡ₚ names →
         Calendar.is_available names' day times cal = (cal, Ret b).
Proof.
  intros Hk. destruct (calendar_is_available_known _ _ _ _ Hk) as [Hrun Hret].
  eexists. split; [exact Hrun|]. split; [|split; [done|split; [done|]]].
  - pose proof (calendar_is_available_true names day times cal) as Htrue.
    rewrite Hrun in Htrue. cbn [snd] in Htrue. split.
    + intros Hf.
      assert (¬ Forall (fun name => Forall (fun t => ledger_of cal name day t = Some true)
                                      times) names) as Hnot.
      { intros Hall. rewrite list.Forall_forall in Hall.
        assert (Ret (forallb (fun name => is_true_outcome
                      (participant_check cal name day times)) names) = Ret true) as Ht.
        { apply Htrue. intros name Hn. destruct (Hk name Hn) as (a & Ha & _).
          exists a. split; [done|]. intros t Ht.
          specialize (Hall name Hn). rewrite list.Forall_forall in Hall.
          by rewrite <-(ledger_of_eq cal name a), Hall. }
        congruence. }
      apply not_Forall_Exists in Hnot; [|intros ?; apply _].
      apply Exists_exists in Hnot as (name & Hn & Hnot). cbn in Hnot.
      apply not_Forall_Exists in Hnot; [|intros ?; apply _].
      apply Exists_exists in Hnot as (t & Ht & Hnot). cbn in Hnot.
      exists name, t. do 2 (split; [done|]).
      destruct (Hk name Hn) as (a & Ha & Hs). destruct (Hs t Ht) as [v Hv].
      rewrite (ledger_of_eq cal name a) in Hnot |- * by done.
      rewrite Hv in Hnot |- *. by destruct v.
    + intros (name & t & Hn & Ht & Hf).
      destruct (forallb _ names) eqn:Hb; [|done].
      destruct (proj1 Htrue eq_refl name Hn) as (a & Ha & Hav).
      rewrite (ledger_of_eq cal name a), (Hav t Ht) in Hf by done. done.
  - intros names' Hperm.
    assert (∀ name, name ∈ names' →
              ∃ a, Calendar.actor_objects cal !! name = Some a ∧
                   ∀ t, t ∈ times → is_Some (ledger a day t)) as Hk'.
    { intros name Hn. apply Hk. by rewrite <-Hperm. }
    destruct (calendar_is_available_known _ _ _ _ Hk') as [Hrun' _].
    rewrite Hrun'. do 2 f_equal.
    pose proof (calendar_is_available_true names day times cal) as Htrue.
    pose proof (calendar_is_available_true names' day times cal) as Htrue'.
    rewrite Hrun in Htrue. rewrite Hrun' in Htrue'. cbn [snd] in Htrue, Htrue'.
    destruct (forallb _ names') eqn:Hb'; destruct (forallb _ names) eqn:Hb; try done.
    + assert (Ret false = Ret true) as Hbad; [|done].
      apply Htrue. intros name Hn. apply (proj1 Htrue' eq_refl). by rewrite Hperm.
    + assert (Ret false = Ret true) as Hbad; [|done].
      apply Htrue'. intros name Hn. apply (proj1 Htrue eq_refl). by rewrite <-Hperm.
Qed.

(** C6 (as stated) fails when a requested slot is missing from a ledger:
    with A unavailable at 1.5 and the slot 2 in nobody's ledger, asking for
    the slots [1.5, 2] answers [False] when A is listed first and raises
    [KeyError] when B is listed first. *)
Lemma is_available_order_dependent :
  let cal := (Calendar.init ["A"; "B"] {[ "D1" := [1%Qc; Q2Qc (3 # 2)] ]} ["D1"]
                (Q2Qc (1 # 2)) [("A", "D1", [Q2Qc (3 # 2)])]).1 in
  Calendar.actor_objects cal !! "A" ≠ None ∧
  Calendar.actor_objects cal !! "B" ≠ None ∧
  (Calendar.is_available ["A"; "B"] "D1" [Q2Qc (3 # 2); 2%Qc] cal).2 = Ret false ∧
  (Calendar.is_available ["B"; "A"] "D1" [Q2Qc (3 # 2); 2%Qc] cal).2 = Raise KeyError.
Proof. cbv zeta. repeat split; by vm_compute. Qed.

(** The amended C6 at work: A and B on a day of two slots, A with a
    conflict at 1.5, asked about both slots. *)
Lemma is_available_conjunction_witness :
  let cal := (Calendar.init ["A"; "B"] {[ "D1" := [1%Qc; Q2Qc (3 # 2)] ]} ["D1"]
                (Q2Qc (1 # 2)) [("A", "D1", [Q2Qc (3 # 2)])]).1 in
  ∃ b, Calendar.is_available ["A"; "B"] "D1" [1%Qc; Q2Qc (3 # 2)] cal = (cal, Ret b) ∧
       (b = false ↔
          ∃ name t, name ∈ ["A"; "B"] ∧ t ∈ [1%Qc; Q2Qc (3 # 2)] ∧
                    ledger_of cal name "D1" t = Some false) ∧
       b = forallb (fun name => is_true_outcome
                      (participant_check cal name "D1" [1%Qc; Q2Qc (3 # 2)])) ["A"; "B"] ∧
       (∀ name, name ∈ ["A"; "B"] →
          ∃ bn, participant_check cal name "D1" [1%Qc; Q2Qc (3 # 2)] = Ret bn) ∧
       ∀ names', names' ≡ₚ ["A"; "B"] →
         Calendar.is_available names' "D1" [1%Qc; Q2Qc (3 # 2)] cal = (cal, Ret b).
Proof.
  cbv zeta. apply is_available_conjunction.
  intros name Hn. apply elem_of_cons in Hn as [->|Hn];
    [|apply elem_of_cons in Hn as [->|Hn]; [|by apply elem_of_nil in Hn]].
  - eexists. split; [by vm_compute|].
    intros t Ht. apply elem_of_cons in Ht as [->|Ht];
      [|apply elem_of_cons in Ht as [->|Ht]; [|by apply elem_of_nil in Ht]];
      eexists; vm_compute; reflexivity.
  - eexists. split; [by vm_compute|].
    intros t Ht. apply elem_of_cons in Ht as [->|Ht];
      [|apply elem_of_cons in Ht as [->|Ht]; [|by apply elem_of_nil in Ht]];
      eexists; vm_compute; reflexivity.
Defined.






(** ** Properties of the feasibility check *)

Lemma generate_times_frame a b sch : (Scheduler.generate_times a b sch).1 = sch.
Proof.
  unfold Scheduler.generate_times. rewrite bind_gets_run. unfold bind, py_div.
  by destruct (decide _).
Qed.

(** C9.  [scene_works] leaves the scheduler exactly as it found it: the
    ledgers, the grid, the interval and the scene registry are unchanged,
    and a second call with the same arguments gives the same result.  The
    helper [generate_times] changes nothing either. *)
Theorem scene_works_no_mutation (sch : Scheduler.t) (scene day : string) (ts te : Qc) :
  let after := (Scheduler.scene_works scene day ts te sch).1 in
  after = sch ∧
  Calendar.actor_objects (Scheduler.calendar after)
    = Calendar.actor_objects (Scheduler.calendar sch) ∧
  (∀ name d t, ledger_of (Scheduler.calendar after) name d t
               = ledger_of (Scheduler.calendar sch) name d t) ∧
  Calendar.day_time_chart (Scheduler.calendar after)
    = Calendar.day_time_chart (Scheduler.calendar sch) ∧
  Calendar.interval (Scheduler.calendar after) = Calendar.interval (Scheduler.calendar sch) ∧
  Scheduler.scenes after = Scheduler.scenes sch ∧
  Scheduler.scene_works scene day ts te after = Scheduler.scene_works scene day ts te sch ∧
  ∀ a b, (Scheduler.generate_times a b sch).1 = sch.
Proof.
  cbv zeta. rewrite scene_works_frame. repeat split; try done.
  intros a b. apply generate_times_frame.
Qed.




(** ** Scene construction *)

Lemma extend_run l other (st : gmap positive (list string)) xs ys :
  st !! l = Some xs → st !! other = Some ys →
  Scene.extend l other st = (<[l := xs ++ ys]> st, Ret tt).
Proof.
  intros Hl Ho. unfold Scene.extend. rewrite bind_gets_run. unfold bind, id.
  by rewrite !getitem_run, Hl, Ho.
Qed.

(** C10.  [Scene.__init__] appends the nonspeaking actors to the list
    object it was given as [speaking_actors]: afterwards that list object
    holds the speaking actors followed by the nonspeaking ones, which is a
    change of the caller's list as soon as there is a nonspeaking actor;
    [speaking_actors] and [all_actors] of the scene are that same list
    object; and [scene_works] asks for every one of these actors, speaking
    or not, at every slot it looks at. *)
Theorem scene_init_shares_list (st : gmap positive (list string)) (name : string)
    (len : Z) (speaking nonspeaking : positive) (l1 l2 : list string) :
  st !! speaking = Some l1 →
  st !! nonspeaking = Some l2 →
  ∃ self st',
    Scene.init name len speaking nonspeaking st = (st', Ret self) ∧
    Scene.o_speaking_actors self = speaking ∧
    Scene.o_all_actors self = speaking ∧
    st' !! speaking = Some (l1 ++ l2) ∧
    (l2 ≠ [] → st' !! speaking ≠ st !! speaking) ∧
    (∀ r, r ≠ speaking → st' !! r = st !! r) ∧
    Scene.view st' self =
      Some {| Scene.name := name; Scene.speaking_actors := l1 ++ l2;
              Scene.all_actors := l1 ++ l2; Scene.length := len |} ∧
    ∀ sch day ts te,
      Scheduler.scenes sch !! name = Scene.view st' self →
      (Scheduler.scene_works name day ts te sch).2 = Ret true →
      ∀ actor t,
        actor ∈ l1 ++ l2 →
        t ∈ checked (Calendar.interval (Scheduler.calendar sch)) ts len →
        ledger_of (Scheduler.calendar sch) actor day t = Some true.
Proof.
  intros Hsp Hns.
  exists {| Scene.o_name := name; Scene.o_speaking_actors := speaking;
            Scene.o_all_actors := speaking; Scene.o_length := len |},
         (<[speaking := l1 ++ l2]> st).
  assert (Scene.view (<[speaking := l1 ++ l2]> st)
            {| Scene.o_name := name; Scene.o_speaking_actors := speaking;
               Scene.o_all_actors := speaking; Scene.o_length := len |} =
          Some {| Scene.name := name; Scene.speaking_actors := l1 ++ l2;
                  Scene.all_actors := l1 ++ l2; Scene.length := len |}) as Hview.
  { unfold Scene.view. cbn. by rewrite lookup_insert_eq. }
  split; [|split; [done|split; [done|split; [|split; [|split; [|split; [done|]]]]]]].
  - unfold Scene.init, bind. by rewrite (extend_run _ _ _ l1 l2).
  - by rewrite lookup_insert_eq.
  - intros Hne. rewrite lookup_insert_eq, Hsp. intros [= Heq].
    apply (f_equal length) in Heq. rewrite length_app in Heq.
    destruct l2; [done|]. cbn in Heq. lia.
  - intros r Hr. by rewrite lookup_insert_ne.
  - intros sch day ts te Hreg Hw actor t Hactor Ht. rewrite Hview in Hreg.
    destruct (proj1 (scene_works_true name day ts te sch) Hw)
      as (sc & Hsc & _ & _ & Hall).
    rewrite Hreg in Hsc. injection Hsc as <-. cbn in Hall.
    destruct (Hall actor Hactor) as (a & Ha & Hav).
    rewrite (ledger_of_eq _ _ a) by done. by apply Hav.
Qed.

(** C10 at work: a scene built from the list objects ["Kacie"] and
    ["Tal"]. *)
Lemma scene_init_shares_list_witness :
  let st : gmap positive (list string) := {[ 1%positive := ["Kacie"]; 2%positive := ["Tal"] ]} in
  ∃ self st',
    Scene.init "Scene 1" 4 1%positive 2%positive st = (st', Ret self) ∧
    Scene.o_speaking_actors self = 1%positive ∧
    Scene.o_all_actors self = 1%positive ∧
    st' !! 1%positive = Some (["Kacie"] ++ ["Tal"]) ∧
    (["Tal"] ≠ [] → st' !! 1%positive ≠ st !! 1%positive) ∧
    (∀ r, r ≠ 1%positive → st' !! r = st !! r) ∧
    Scene.view st' self =
      Some {| Scene.name := "Scene 1"; Scene.speaking_actors := ["Kacie"] ++ ["Tal"];
              Scene.all_actors := ["Kacie"] ++ ["Tal"]; Scene.length := 4 |} ∧
    ∀ sch day ts te,
      Scheduler.scenes sch !! "Scene 1" = Scene.view st' self →
      (Scheduler.scene_works "Scene 1" day ts te sch).2 = Ret true →
      ∀ actor t,
        actor ∈ ["Kacie"] ++ ["Tal"] →
        t ∈ checked (Calendar.interval (Scheduler.calendar sch)) ts 4 →
        ledger_of (Scheduler.calendar sch) actor day t = Some true.
Proof.
  intros st. apply scene_init_shares_list; by vm_compute.
Defined.

(** ** The scenario of the specification *)

(** C4.  One participant A, one day D1 with the slots 1, 1.5, 2, 2.5 at
    interval 0.5, one task of two timeblocks requiring A, no conflicts:
    [schedule(["D1"], [task])] returns the arrangement that puts the task
    on D1 at slot 1, and no slot of the day is earlier than 1. *)
Theorem schedule_single_task :
  let chart : gmap string (list Qc) :=
    {[ "D1" := [1%Qc; Q2Qc (3 # 2); 2%Qc; Q2Qc (5 # 2)] ]} in
  let built := Calendar.init ["A"] chart ["D1"] (Q2Qc (1 # 2)) [] in
  let task := {| Scene.name := "T"; Scene.speaking_actors := ["A"];
                 Scene.all_actors := ["A"]; Scene.length := 2 |} in
  let sch := {| Scheduler.calendar := built.1; Scheduler.scenes := {[ "T" := task ]} |} in
  built.2 = Ret tt ∧
  Scheduler.schedule ["D1"] ["T"] sch
    = (sch, Ret (Some {[ "T" := Scheduler.Slot "D1" 1%Qc ]})) ∧
  (∀ t, t ∈ [1%Qc; Q2Qc (3 # 2); 2%Qc; Q2Qc (5 # 2)] → (1 ≤ t)%Qc) ∧
  (Scheduler.scene_works "T" "D1" 1%Qc Scheduler.default_time_end sch).2 = Ret true.
Proof.
  cbv zeta. split; [by vm_compute|]. split; [by vm_compute|]. split; [|by vm_compute].
  intros t Ht. repeat (apply elem_of_cons in Ht as [->|Ht]; [by vm_compute|]).
  by apply elem_of_nil in Ht.
Qed.

(** ** What [schedule] returns *)

Lemma schedule_some days scene_list sch arr :
  (Scheduler.schedule days scene_list sch).2 = Ret (Some arr) →
  ∃ tb ps,
    timeline (Calendar.day_time_chart (Scheduler.calendar sch)) days = Some tb ∧
    placed scene_list sch tb (replicate (length tb) 0) arr ps ∧
    ∀ s, s ∉ scene_list → arr !! s = None.
Proof.
  rewrite schedule_run.
  destruct (timeline _ days) as [tb|]; [|done].
  unfold Scheduler.schedule_solve.
  destruct (Scheduler.schedule_solve_fuel _ _ _ _ _) as [st r] eqn:Hrun.
  destruct r as [[]|e]; [|done|done]. intros [= <-].
  exists tb. destruct (schedule_solve_success _ _ _ _ _ _ Hrun) as [ps Hps].
  exists ps. split; [done|]. split; [exact Hps|].
  intros s Hs. destruct (schedule_solve_keeps _ _ _ _ _ _ _ Hrun) as [_ Harr].
  by rewrite Harr.
Qed.




Lemma slot_mono (t0 iv : Qc) (a b : Z) :
  (0 < iv)%Qc → (a ≤ b)%Z → (t0 + iv * Qc_of_Z a ≤ t0 + iv * Qc_of_Z b)%Qc.
Proof.
  intros Hiv Hab. apply Qcplus_le_mono_l. apply Qcmult_le_mono_nonneg_l.
  - by apply Qclt_le_weak.
  - exact (proj1 (Z2Qc_inj_le a b) Hab).
Qed.



Lemma elem_of_occupied iv ts n t :
  t ∈ occupied iv ts n ↔
  ∃ k : nat, (k < Z.to_nat n)%nat ∧ t = (ts + iv * Qc_of_Z (Z.of_nat k))%Qc.
Proof.
  unfold occupied. rewrite list_elem_of_fmap. split.
  - intros (k & -> & Hk). apply elem_of_seq in Hk. exists k. split; [lia|done].
  - intros (k & Hk & ->). exists k. split; [done|]. apply elem_of_seq. lia.
Qed.




(** ** Tasks that do not fit in a day *)

Lemma occupied_length iv ts n : length (occupied iv ts n) = Z.to_nat n.
Proof. unfold occupied. by rewrite length_fmap, length_seq. Qed.




(** *** A search that cannot succeed *)


Lemma next_scene_keeps fuel scene_list tb idx :
  keeps (drop (S idx) scene_list) (next_scene fuel scene_list tb idx).
Proof.
  destruct fuel as [|fuel]; cbn.
  - intros ??? [= <- <-]. split; [apply extends_refl | done].
  - replace (S idx) with (idx + 1)%nat by lia. apply schedule_solve_keeps.
Qed.


(** *** Ledgers built by the constructor stay within the grid *)

Lemma created_objects_lookup chart names (objs : gmap string Actor.t) name a :
  foldl (fun objs name => <[name := Actor.init name chart]> objs) objs names !! name = Some a →
  a = Actor.init name chart ∨ objs !! name = Some a.
Proof.
  revert objs. induction names as [|n names IH]; intros objs; cbn [foldl]; [by right|].
  intros H. destruct (IH _ H) as [->|Hl]; [by left|].
  destruct (decide (n = name)) as [->|Hne].
  - rewrite lookup_insert_eq in Hl. left. congruence.
  - rewrite lookup_insert_ne in Hl by done. by right.
Qed.





(** ** Fuel, and the reading of the specification *)

Lemma scene_works_raise scene day ts te sch e :
  (Scheduler.scene_works scene day ts te sch).2 = Raise e →
  e = KeyError ∨ e = ZeroDivisionError.
Proof.
  rewrite scene_works_run.
  destruct (Scheduler.scenes sch !! scene); [|intros [= <-]; by left]. cbn zeta.
  destruct (bool_decide _); [done|].
  destruct (decide _); [intros [= <-]; by right|done].
Qed.

Lemma try_positions_fuel recurse tb scene n rest positions :
  keeps rest recurse →
  (∀ st st', recurse st ≠ (st', Raise OutOfFuel)) →
  ∀ st st', Scheduler.try_positions recurse tb scene n positions st
            ≠ (st', Raise OutOfFuel).
Proof.
  intros Hk Hrec. induction positions as [|i positions IH]; intros st st'; [done|].
  rewrite try_positions_cons by (by eapply keeps_length).
  destruct (tb !! i) as [[day ts]|]; [|done].
  destruct (range_open _ _ _); [|apply IH].
  destruct (Scheduler.scene_works _ _ _ _ _).2 as [[]|e] eqn:Hw; [|apply IH|].
  - destruct (recurse _) as [st1 [[]|e]] eqn:Hrun; [done|apply IH|].
    intros [= -> ->]. by eapply Hrec.
  - intros [= _ ->]. by destruct (scene_works_raise _ _ _ _ _ _ Hw).
Qed.

(** The fuel [schedule_solve] starts with is enough: the search never
    stops for lack of it. *)
Lemma schedule_solve_fuel_enough scene_list tb fuel :
  ∀ idx st st',
    (length scene_list - idx ≤ fuel)%nat →
    Scheduler.schedule_solve_fuel fuel scene_list tb idx st ≠ (st', Raise OutOfFuel).
Proof.
  induction fuel as [|fuel IH]; intros idx st st' Hfuel; rewrite schedule_solve_fuel_run.
  all: destruct (decide _) as [->|Hne]; [done|].
  all: destruct (scene_list !! idx) as [scene|] eqn:Hscene; [|done].
  all: destruct (Scheduler.scenes _ !! scene) as [sc|]; [|done].
  - apply lookup_lt_Some in Hscene. lia.
  - apply (try_positions_fuel _ _ _ _ (drop (S idx) scene_list)).
    + apply next_scene_keeps.
    + intros st0 st1. cbn. apply IH. apply lookup_lt_Some in Hscene. lia.
Qed.

Lemma schedule_never_out_of_fuel days scene_list sch :
  (Scheduler.schedule days scene_list sch).2 ≠ Raise OutOfFuel.
Proof.
  rewrite schedule_run. destruct (timeline _ days) as [tb|]; [|done].
  destruct (Scheduler.schedule_solve _ _ _ _) as [st [[]|e]] eqn:Hrun; [done|done|].
  cbn. intros [= ->]. unfold Scheduler.schedule_solve in Hrun.
  by eapply schedule_solve_fuel_enough; [|exact Hrun].
Qed.

(** [schedule] leaves the scheduler as it found it, whatever it returns. *)
Lemma schedule_frame days scene_list sch :
  (Scheduler.schedule days scene_list sch).1 = sch.
Proof.
  rewrite schedule_run. destruct (timeline _ days) as [tb|]; [|done].
  unfold Scheduler.schedule_solve.
  destruct (Scheduler.schedule_solve_fuel _ _ _ _ _) as [st r] eqn:Hrun.
  destruct (schedule_solve_keeps _ _ _ _ _ _ _ Hrun) as [(Hs & _) _].
  by destruct r as [[]|].
Qed.

(** On a calendar whose ledgers match the grid, for a scene whose
    actors are all known and at least one, and where the arithmetic of the
    check does not round, the check is the condition of the specification
    with the bound [time_end]. *)
Lemma scene_works_fits_spec sch scene sc day ts te :
  let cal := Scheduler.calendar sch in
  Scheduler.scenes sch !! scene = Some sc →
  Calendar.interval cal ≠ 0%Qc →
  ledgers_match_grid cal →
  Scene.all_actors sc ≠ [] →
  (∀ name, name ∈ Scene.all_actors sc → is_Some (Calendar.actor_objects cal !! name)) →
  unrounded (Calendar.interval cal) ts (Scene.length sc) →
  (Scheduler.scene_works scene day ts te sch).2 = Ret true ↔
  fits_spec sch sc day ts (Some te).
Proof.
  intros cal Hsc Hiv Hmatch Hactors Hknown Hexact.
  destruct (unrounded_exact _ _ _ Hiv Hexact) as [Hend Hslots].
  rewrite scene_works_true. fold cal. unfold fits_spec. fold cal.
  rewrite <-Hend, <-Hslots. split.
  - intros (sc' & Hsc' & Hle & _ & Hall). assert (sc' = sc) as -> by congruence.
    split; [done|]. split.
    + intros t Ht. destruct (Scene.all_actors sc) as [|name names]; [done|].
      destruct (Hall name) as (a & Ha & Hav); [by left|].
      apply (Hmatch name a day t Ha). rewrite (Hav t Ht). eauto.
    + intros name t Hn Ht. destruct (Hall name Hn) as (a & Ha & Hav).
      rewrite (ledger_of_eq _ _ a) by done. by apply Hav.
  - intros (Hle & _ & Hav). exists sc. do 3 (split; [done|]).
    intros name Hn. destruct (Hknown name Hn) as [a Ha]. exists a. split; [done|].
    intros t Ht. rewrite <-(ledger_of_eq cal name a) by done. by apply Hav.
Qed.

(** A calendar built without initial conflicts matches its grid. *)
Lemma init_matches_grid names chart days iv :
  ledgers_match_grid (Calendar.init names chart days iv []).1.
Proof.
  intros name a day t Ha. cbn in Ha.
  apply created_objects_lookup in Ha as [->|Ha]; [|by rewrite lookup_empty in Ha].
  unfold ledger, in_grid. cbn. unfold Actor.create_conflict_chart.
  rewrite lookup_fmap. destruct (chart !! day) as [blocks|]; cbn.
  - fold (mark_row true ∅ blocks). rewrite mark_row_lookup. split.
    + intros Hs. exists blocks. split; [done|].
      destruct (decide (t ∈ blocks)); [done|]. rewrite lookup_empty in Hs. by destruct Hs.
    + intros (? & [= <-] & Hin). rewrite decide_True by done. eauto.
  - split; [by intros []|]. by intros (? & [=] & _).
Qed.

(** ** Conflicts on grid slots keep the ledgers within the grid *)

Lemma set_slots_within_grid v name day times cal :
  ledgers_within_grid cal →
  (∀ t, t ∈ times → in_grid cal day t) →
  ledgers_within_grid
    (for_each times (fun t => Calendar.on_actor name (Actor.set_slot day t v)) cal).1.
Proof.
  intros Hwithin Htimes. rewrite set_slots_run.
  destruct times as [|t0 times]; [done|].
  destruct (Calendar.actor_objects cal !! name) as [a|] eqn:Ha; [|done].
  destruct (Actor.conflict_chart a !! day) as [row|] eqn:Hrow; [|done].
  cbn [fst]. intros name' a' day' row' t Ha' Hrow' Ht.
  rewrite actor_objects_set in Ha'. change (in_grid cal day' t).
  destruct (decide (name = name')) as [<-|Hne].
  - rewrite lookup_insert_eq in Ha'. injection Ha' as <-.
    rewrite conflict_chart_set in Hrow'.
    destruct (decide (day = day')) as [<-|Hd].
    + rewrite lookup_insert_eq in Hrow'. injection Hrow' as <-.
      rewrite mark_row_lookup in Ht.
      destruct (decide (t ∈ times)) as [Hin|_]; [apply Htimes; by right|].
      destruct (decide (t = t0)) as [->|Hne]; [apply Htimes; by left|].
      rewrite lookup_insert_ne in Ht by done.
      by apply (Hwithin name a day row t).
    + rewrite lookup_insert_ne in Hrow' by done.
      by apply (Hwithin name a day' row' t).
  - rewrite lookup_insert_ne in Ha' by done.
    by apply (Hwithin name' a' day' row' t).
Qed.

Lemma add_conflict_within_grid name day times cal :
  ledgers_within_grid cal →
  (∀ t, t ∈ times → in_grid cal day t) →
  ledgers_within_grid (Calendar.add_conflict (name, day, times) cal).1.
Proof. rewrite add_conflict_run. apply set_slots_within_grid. Qed.

Lemma remove_conflict_within_grid name day times cal :
  ledgers_within_grid cal →
  (∀ t, t ∈ times → in_grid cal day t) →
  ledgers_within_grid (Calendar.remove_conflict (name, day, times) cal).1.
Proof. rewrite remove_conflict_run. apply set_slots_within_grid. Qed.

(** ** Further inputs outside the amended statements *)

(** With slots closer together than the interval, two scenes at
    neighbouring positions of one day overlap in time: S occupies
    [1, 1.5) and T occupies [1.25, 1.75). *)
Lemma schedule_overlap_uneven_grid :
  let cal := (Calendar.init ["A"] {[ "D1" := [1%Qc; Q2Qc (5 # 4)] ]} ["D1"]
                (Q2Qc (1 # 2)) []).1 in
  let s := {| Scene.name := "S"; Scene.speaking_actors := ["A"];
              Scene.all_actors := ["A"]; Scene.length := 1 |} in
  let t := {| Scene.name := "T"; Scene.speaking_actors := ["A"];
              Scene.all_actors := ["A"]; Scene.length := 1 |} in
  let sch := {| Scheduler.calendar := cal;
                Scheduler.scenes := {[ "S" := s; "T" := t ]} |} in
  (Scheduler.schedule ["D1"] ["S"; "T"] sch).2
    = Ret (Some {[ "S" := Scheduler.Slot "D1" 1%Qc;
                   "T" := Scheduler.Slot "D1" (Q2Qc (5 # 4)) ]}) ∧
  (Q2Qc (5 # 4) < 1 + Qc_of_Z 1 * Q2Qc (1 # 2))%Qc.
Proof. cbv zeta. split; by vm_compute. Qed.

(** After [remove_conflict] has been given slots the grid does not have,
    A's ledger holds them as available, and a task of three timeblocks for
    A is placed on a day of two slots. *)
Lemma schedule_off_grid_ledger :
  let chart : gmap string (list Qc) := {[ "D1" := [1%Qc; Q2Qc (3 # 2)] ]} in
  let cal := (Calendar.remove_conflict ("A", "D1", [2%Qc; Q2Qc (5 # 2)])
                (Calendar.init ["A"] chart ["D1"] (Q2Qc (1 # 2)) []).1).1 in
  let l := {| Scene.name := "L"; Scene.speaking_actors := ["A"];
              Scene.all_actors := ["A"]; Scene.length := 3 |} in
  let sch := {| Scheduler.calendar := cal; Scheduler.scenes := {[ "L" := l ]} |} in
  ledger_of cal "A" "D1" 2%Qc = Some true ∧
  (Scheduler.scene_works "L" "D1" 1%Qc Scheduler.default_time_end sch).2 = Ret true.
Proof. cbv zeta. split; by vm_compute. Qed.

(** *** Where the arithmetic of the check rounds

    The interval 0.1 is the float nearest to one tenth, and 1/3 the float
    nearest to one third. *)

(** With the interval 1/3, the check of a task of one timeblock at 7
    computes [int((7.333333333333333 - 7) / 0.3333333333333333)], which
    is 0, and looks at no slot: the task is placed at 7, where A is marked
    unavailable. *)
Lemma schedule_unchecked_slot :
  let third := py_float (Q2Qc (1 # 3)) in
  let cal := (Calendar.init ["A"] {[ "D1" := [Qc_of_Z 7] ]} ["D1"] third
                [("A", "D1", [Qc_of_Z 7])]).1 in
  let task := {| Scene.name := "T"; Scene.speaking_actors := ["A"];
                 Scene.all_actors := ["A"]; Scene.length := 1 |} in
  let sch := {| Scheduler.calendar := cal; Scheduler.scenes := {[ "T" := task ]} |} in
  ledger_of cal "A" "D1" (Qc_of_Z 7) = Some false ∧
  checked third (Qc_of_Z 7) 1 = [] ∧
  (Scheduler.schedule ["D1"] ["T"] sch).2
    = Ret (Some {[ "T" := Scheduler.Slot "D1" (Qc_of_Z 7) ]}).
Proof.
  cbv zeta. split; [by vm_compute|]. split; [|by vm_compute].
  apply (bool_decide_unpack _). by vm_compute.
Qed.

(** With the interval 0.1 and two days of one slot each, at 0.5, a task of
    two timeblocks for A is checked at 0.5 only and is placed on the first
    day, over the day boundary. *)
Lemma schedule_spans_days_rounding :
  let tenth := py_float (Q2Qc (1 # 10)) in
  let half := Q2Qc (1 # 2) in
  let chart : gmap string (list Qc) := {[ "D1" := [half]; "D2" := [half] ]} in
  let cal := (Calendar.init ["A"] chart ["D1"; "D2"] tenth []).1 in
  let task := {| Scene.name := "T"; Scene.speaking_actors := ["A"];
                 Scene.all_actors := ["A"]; Scene.length := 2 |} in
  let sch := {| Scheduler.calendar := cal; Scheduler.scenes := {[ "T" := task ]} |} in
  unroundedb tenth half 2 = false ∧
  (Scheduler.schedule ["D1"; "D2"] ["T"] sch).2
    = Ret (Some {[ "T" := Scheduler.Slot "D1" half ]}).
Proof. cbv zeta. split; by vm_compute. Qed.

(** With the interval 0.1, the end of a scene of length -3 from 1 is
    computed as 0.7, which is not after the bound 0.7, while the exact end
    is: the check passes. *)
Lemma scene_works_rounded_end :
  let tenth := py_float (Q2Qc (1 # 10)) in
  let bound := py_float (Q2Qc (7 # 10)) in
  let cal := (Calendar.init ["A"] {[ "D1" := [1%Qc] ]} ["D1"] tenth []).1 in
  let back := {| Scene.name := "N"; Scene.speaking_actors := ["A"];
                 Scene.all_actors := ["A"]; Scene.length := -3 |} in
  let sch := {| Scheduler.calendar := cal; Scheduler.scenes := {[ "N" := back ]} |} in
  (Scheduler.scene_works "N" "D1" 1%Qc bound sch).2 = Ret true ∧
  scene_end tenth 1 (-3) = bound ∧
  (bound < 1 + Qc_of_Z (-3) * tenth)%Qc.
Proof.
  cbv zeta. split; [by vm_compute|]. split; [|by vm_compute].
  apply Qc_is_canon. by vm_compute.
Qed.

(** * Further properties of the code *)

(** ** The search undoes what it tried *)

Lemma fill_binary v sched js : (v = 0 ∨ v = 1) → binary sched → binary (fill v sched js).
Proof.
  intros Hv Hb. unfold binary. rewrite list.Forall_forall. intros x Hx.
  apply list_elem_of_lookup in Hx as [j Hj]. rewrite fill_lookup in Hj.
  case_decide; [by injection Hj as <-|].
  unfold binary in Hb. rewrite list.Forall_forall in Hb.
  apply Hb. by eapply list_elem_of_lookup_2.
Qed.

Lemma fill_undo sched js :
  binary sched →
  (∀ j, j ∈ js → (j < length sched)%nat ∧ sched !! j ≠ Some 1) →
  fill 0 (fill 1 sched js) js = sched.
Proof.
  intros Hb Hfree. apply list_eq. intros j. rewrite !fill_lookup, fill_length.
  case_decide as Hj; [|done].
  destruct Hj as [Hin Hlt]. destruct (Hfree j Hin) as [_ Hne].
  destruct (lookup_lt_is_Some_2 sched j Hlt) as [x Hx]. rewrite Hx in Hne |- *.
  unfold binary in Hb. rewrite list.Forall_forall in Hb.
  destruct (Hb x) as [->| ->]; [by eapply list_elem_of_lookup_2|done|done].
Qed.

Lemma try_positions_restores recurse tb scene n rest positions :
  keeps rest recurse → restores recurse →
  restores (Scheduler.try_positions recurse tb scene n positions).
Proof.
  intros Hk Hres. induction positions as [|i positions IH]; intros st st' Hb.
  { by intros [= <-]. }
  rewrite try_positions_cons by (by eapply keeps_length).
  destruct (tb !! i) as [[day ts]|]; [|done].
  destruct (range_open _ _ _) eqn:Hopen; [|by apply IH].
  destruct (Scheduler.scene_works _ _ _ _ _).2 as [[]|e]; [|by apply IH|done].
  destruct (recurse _) as [st1 [[]|e]] eqn:Hrun; [done| |done].
  intros Hrest.
  assert (Scheduler.schedule_ (withdraw st1 i n scene) = Scheduler.schedule_ st) as Heq.
  { assert (binary (Scheduler.schedule_ (place st i n scene (Scheduler.Slot day ts))))
      as Hb1 by (cbn; apply fill_binary; [by right|done]).
    cbn. rewrite (Hres _ _ Hb1 Hrun). cbn.
    apply fill_undo; [done|]. by apply range_open_spec. }
  rewrite <-Heq. apply IH; [|done]. by rewrite Heq.
Qed.

Lemma schedule_solve_restores fuel scene_list tb :
  ∀ idx, restores (Scheduler.schedule_solve_fuel fuel scene_list tb idx).
Proof.
  induction fuel as [|fuel IH]; intros idx st st' Hb; rewrite schedule_solve_fuel_run.
  all: destruct (decide _); [done|].
  all: destruct (scene_list !! idx) as [scene|]; [|done].
  all: destruct (Scheduler.scenes _ !! scene) as [sc|]; [|done].
  all: apply (try_positions_restores _ _ _ _ (drop (S idx) scene_list));
    [apply next_scene_keeps| |done].
  - by intros ?? _ [=].
  - cbn. apply IH.
Qed.

(** ** The search is exhaustive *)

Lemma span_of_registered sch scene sc i :
  Scheduler.scenes sch !! scene = Some sc →
  span_of sch (scene, i) = py_range i (Scene.length sc).
Proof. unfold span_of. cbn. by intros ->. Qed.

Lemma good_placement_placed sch tb sched scene sc i p :
  Scheduler.scenes sch !! scene = Some sc →
  span_of sch (scene, i) ## span_of sch p →
  good_placement sch tb sched p →
  good_placement sch tb (fill 1 sched (py_range i (Scene.length sc))) p.
Proof.
  intros Hsc Hdis (sc' & day & ts & Hsc' & Htb & Hw & Hfree).
  exists sc', day, ts. do 3 (split; [done|]).
  intros j Hj. destruct (Hfree j Hj) as [Hlt Hne].
  rewrite fill_length, fill_lookup. split; [done|].
  rewrite decide_False; [done|]. intros [Hin _].
  apply (Hdis j); [|done]. by rewrite (span_of_registered _ _ sc).
Qed.

Lemma try_positions_complete sch tb scene sc recurse rest :
  Scheduler.scenes sch !! scene = Some sc →
  keeps rest recurse → restores recurse →
  (∀ st st', binary (Scheduler.schedule_ st) → Scheduler.self_ st = sch →
     length (Scheduler.schedule_ st) = length tb →
     recurse st = (st', Ret false) →
     ¬ completable sch tb (Scheduler.schedule_ st) rest) →
  ∀ positions st st',
    binary (Scheduler.schedule_ st) → Scheduler.self_ st = sch →
    length (Scheduler.schedule_ st) = length tb →
    Scheduler.try_positions recurse tb scene (Scene.length sc) positions st
      = (st', Ret false) →
    ∀ i ps,
      i ∈ positions → ps.*1 = rest →
      Forall (good_placement sch tb (Scheduler.schedule_ st)) ((scene, i) :: ps) →
      all_disjoint (span_of sch <$> ((scene, i) :: ps)) → False.
Proof.
  intros Hsc Hk Hres Hrec. induction positions as [|i0 positions IH];
    intros st st' Hb Hself Hlen Hrun i ps Hi Hfst Hgood Hdis;
    [by apply elem_of_nil in Hi|].
  rewrite try_positions_cons in Hrun by (by eapply keeps_length).
  pose proof Hgood as Hgood0. apply Forall_cons in Hgood0 as [Hhead Htail].
  destruct Hhead as (sc' & day & ts & Hsc' & Htb & Hw & Hfree).
  cbn [fst snd] in Hsc', Htb, Hw.
  assert (sc' = sc) as -> by congruence.
  rewrite (span_of_registered _ _ sc) in Hfree by done.
  destruct (tb !! i0) as [[day0 ts0]|] eqn:Htb0; [|done].
  destruct (range_open _ _ _) eqn:Hopen.
  2:{ apply elem_of_cons in Hi as [->|Hi]; [|by eapply IH].
      apply range_open_spec in Hfree. congruence. }
  rewrite Hself in Hrun.
  destruct (Scheduler.scene_works _ _ _ _ _).2 as [[]|e] eqn:Hw0; [| |done].
  2:{ apply elem_of_cons in Hi as [->|Hi]; [|by eapply IH]. congruence. }
  destruct (recurse _) as [st1 [[]|e]] eqn:Hrec1; [done| |done].
  assert (binary (Scheduler.schedule_ (place st i0 (Scene.length sc) scene
                                         (Scheduler.Slot day0 ts0)))) as Hb1
    by (cbn; apply fill_binary; [by right|done]).
  assert (Scheduler.schedule_ (withdraw st1 i0 (Scene.length sc) scene)
          = Scheduler.schedule_ st) as Heq.
  { cbn. rewrite (Hres _ _ Hb1 Hrec1). cbn.
    apply fill_undo; [done|]. by apply range_open_spec. }
  apply elem_of_cons in Hi as [->|Hi].
  - apply (Hrec _ _ Hb1 Hself) in Hrec1; [|by cbn; rewrite fill_length].
    apply Hrec1. exists ps. split; [done|]. split.
    + cbn. rewrite list.Forall_forall in Htail |- *. intros p Hp.
      apply (good_placement_placed sch tb _ scene sc i0); [done| |by apply Htail].
      rewrite fmap_cons in Hdis. destruct Hdis as [Hd _].
      apply Hd. by apply list_elem_of_fmap_2.
    + rewrite fmap_cons in Hdis. by destruct Hdis.
  - eapply (IH (withdraw st1 i0 (Scene.length sc) scene) st'); try done.
    + by rewrite Heq.
    + cbn. destruct (Hk _ _ _ Hrec1) as [(-> & _) _]. done.
    + by rewrite Heq.
    + by rewrite Heq.
Qed.

Lemma schedule_solve_complete sch tb scene_list fuel :
  ∀ idx st st',
    binary (Scheduler.schedule_ st) → Scheduler.self_ st = sch →
    length (Scheduler.schedule_ st) = length tb →
    Scheduler.schedule_solve_fuel fuel scene_list tb idx st = (st', Ret false) →
    ¬ completable sch tb (Scheduler.schedule_ st) (drop idx scene_list).
Proof.
  induction fuel as [|fuel IH]; intros idx st st' Hb Hself Hlen;
    rewrite schedule_solve_fuel_run.
  all: destruct (decide _); [done|].
  all: destruct (scene_list !! idx) as [scene|] eqn:Hscene; [|done].
  all: rewrite Hself.
  all: destruct (Scheduler.scenes sch !! scene) as [sc|] eqn:Hsc; [|done].
  all: rewrite (drop_S _ _ _ Hscene).
  all: intros Hrun (ps & Hfst & Hgood & Hdis).
  all: destruct ps as [|[s i] ps]; [done|].
  all: rewrite fmap_cons in Hfst; cbn in Hfst; injection Hfst as -> Hfst.
  all: assert (i ∈ seq 0 (length (Scheduler.schedule_ st))) as Hi
    by (apply Forall_cons in Hgood as [(? & ? & ? & _ & Htb & _) _]; cbn in Htb;
        apply lookup_lt_Some in Htb; apply elem_of_seq; lia).
  all: eapply (try_positions_complete sch tb scene sc _ (drop (S idx) scene_list));
    try exact Hrun; try done.
  all: try apply next_scene_keeps.
  - cbn. apply schedule_solve_restores.
  - intros st0 st1 Hb0 Hs0 Hl0 Hrun0. cbn in Hrun0.
    replace (S idx) with (idx + 1)%nat by lia.
    by eapply IH.
Qed.

(** ** When [schedule] answers and when it raises *)

Lemma timeline_known chart days :
  (∀ day, day ∈ days → is_Some (chart !! day)) ↔ is_Some (timeline chart days).
Proof.
  induction days as [|d days IH]; cbn [timeline].
  - split; [eauto|]. intros _ ? H. by apply elem_of_nil in H.
  - split.
    + intros H. destruct (H d) as [blocks ->]; [by left|].
      destruct (proj1 IH) as [rest ->]; [intros ??; apply H; by right|]. eauto.
    + intros Hs day Hday. destruct (chart !! d) as [blocks|] eqn:Hd; [|by destruct Hs].
      destruct (timeline chart days) as [rest|]; [|by destruct Hs].
      apply elem_of_cons in Hday as [->|Hday]; [by rewrite Hd|].
      apply IH; [eauto|done].
Qed.

Lemma scene_works_registered_raise sch scene sc day ts te e :
  Scheduler.scenes sch !! scene = Some sc →
  (Scheduler.scene_works scene day ts te sch).2 = Raise e →
  e = ZeroDivisionError ∧ Calendar.interval (Scheduler.calendar sch) = 0%Qc.
Proof.
  intros Hsc. rewrite scene_works_run, Hsc. cbn zeta.
  destruct (bool_decide _); [done|].
  destruct (decide _); [by intros [= <-]|done].
Qed.

Lemma try_positions_raises sch tb scene sc recurse rest :
  Scheduler.scenes sch !! scene = Some sc →
  keeps rest recurse →
  (∀ st st' e, Scheduler.self_ st = sch → length (Scheduler.schedule_ st) = length tb →
     recurse st = (st', Raise e) → raise_cause sch rest e) →
  ∀ positions st st' e,
    (∀ i, i ∈ positions → (i < length tb)%nat) →
    Scheduler.self_ st = sch → length (Scheduler.schedule_ st) = length tb →
    Scheduler.try_positions recurse tb scene (Scene.length sc) positions st
      = (st', Raise e) →
    raise_cause sch (scene :: rest) e.
Proof.
  intros Hsc Hk Hrec. induction positions as [|i positions IH];
    intros st st' e Hpos Hself Hlen; [done|].
  assert (∀ i, i ∈ positions → (i < length tb)%nat) as Hpos'
    by (intros ??; apply Hpos; by right).
  rewrite try_positions_cons by (by eapply keeps_length).
  destruct (lookup_lt_is_Some_2 tb i) as [[day ts] Htb]; [apply Hpos; by left|].
  rewrite Htb. destruct (range_open _ _ _) eqn:Hopen; [|by apply IH].
  rewrite Hself.
  destruct (Scheduler.scene_works _ _ _ _ _).2 as [[]|e0] eqn:Hw; [|by apply IH|].
  - destruct (recurse _) as [st1 [[]|e1]] eqn:Hrun; [done| |].
    + destruct (Hk _ _ _ Hrun) as [(Hs1 & Hl1 & _) _].
      apply IH; [done| |]; cbn.
      * by rewrite Hs1.
      * rewrite fill_length, Hl1. cbn. by rewrite fill_length.
    + intros [= _ ->]. apply Hrec in Hrun; [|done|by cbn; rewrite fill_length].
      destruct Hrun as [(-> & s & Hs & Hn)|?]; [left|by right].
      split; [done|]. exists s. split; [by right|done].
  - intros [= _ ->]. right. by eapply scene_works_registered_raise.
Qed.

Lemma schedule_solve_raises sch tb scene_list fuel :
  ∀ idx st st' e,
    (idx ≤ length scene_list)%nat → (length scene_list - idx ≤ fuel)%nat →
    Scheduler.self_ st = sch → length (Scheduler.schedule_ st) = length tb →
    Scheduler.schedule_solve_fuel fuel scene_list tb idx st = (st', Raise e) →
    raise_cause sch (drop idx scene_list) e.
Proof.
  induction fuel as [|fuel IH]; intros idx st st' e Hidx Hfuel Hself Hlen;
    rewrite schedule_solve_fuel_run.
  all: destruct (decide _) as [->|Hne]; [done|].
  all: destruct (lookup_lt_is_Some_2 scene_list idx) as [scene Hscene]; [lia|].
  all: rewrite Hscene, Hself, (drop_S _ _ _ Hscene).
  all: destruct (Scheduler.scenes sch !! scene) as [sc|] eqn:Hsc;
    [|intros [= _ <-]; left; split; [done|]; exists scene; split; [by left|done]].
  { lia. }
  apply (try_positions_raises sch tb scene sc); try done.
  - apply next_scene_keeps.
  - intros st0 st1 e0 Hs0 Hl0. cbn. replace (S idx) with (idx + 1)%nat by lia.
    apply IH; [lia|lia|done|done].
  - intros i Hi. apply elem_of_seq in Hi. lia.
Qed.

Lemma try_positions_returns sch tb scene sc recurse rest :
  Scheduler.scenes sch !! scene = Some sc →
  Calendar.interval (Scheduler.calendar sch) ≠ 0%Qc →
  keeps rest recurse →
  (∀ st, Scheduler.self_ st = sch → length (Scheduler.schedule_ st) = length tb →
     ∃ st' b, recurse st = (st', Ret b)) →
  ∀ positions st,
    (∀ i, i ∈ positions → (i < length tb)%nat) →
    Scheduler.self_ st = sch → length (Scheduler.schedule_ st) = length tb →
    ∃ st' b, Scheduler.try_positions recurse tb scene (Scene.length sc) positions st
             = (st', Ret b).
Proof.
  intros Hsc Hiv Hk Hrec. induction positions as [|i positions IH];
    intros st Hpos Hself Hlen; [by exists st, false|].
  assert (∀ i, i ∈ positions → (i < length tb)%nat) as Hpos'
    by (intros ??; apply Hpos; by right).
  rewrite try_positions_cons by (by eapply keeps_length).
  destruct (lookup_lt_is_Some_2 tb i) as [[day ts] Htb]; [apply Hpos; by left|].
  rewrite Htb. destruct (range_open _ _ _) eqn:Hopen; [|by apply IH].
  rewrite Hself.
  destruct (scene_works_total scene day ts Scheduler.default_time_end sch sc Hsc Hiv)
    as [b Hb].
  rewrite Hb. cbn [snd]. destruct b; [|by apply IH].
  destruct (Hrec (place st i (Scene.length sc) scene (Scheduler.Slot day ts)))
    as (st1 & b1 & Hrun); [done|by cbn; rewrite fill_length|].
  rewrite Hrun. destruct b1; [eauto|].
  destruct (Hk _ _ _ Hrun) as [(Hs1 & Hl1 & _) _]. apply IH; [done| |]; cbn.
  - by rewrite Hs1.
  - rewrite fill_length, Hl1. cbn. by rewrite fill_length.
Qed.

Lemma schedule_solve_returns sch tb scene_list :
  Calendar.interval (Scheduler.calendar sch) ≠ 0%Qc →
  (∀ s, s ∈ scene_list → is_Some (Scheduler.scenes sch !! s)) →
  ∀ fuel idx st,
    (idx ≤ length scene_list)%nat → (length scene_list - idx ≤ fuel)%nat →
    Scheduler.self_ st = sch → length (Scheduler.schedule_ st) = length tb →
    ∃ st' b, Scheduler.schedule_solve_fuel fuel scene_list tb idx st = (st', Ret b).
Proof.
  intros Hiv Hreg. induction fuel as [|fuel IH]; intros idx st Hidx Hfuel Hself Hlen;
    rewrite schedule_solve_fuel_run.
  all: destruct (decide _) as [->|Hne]; [by exists st, true|].
  { lia. }
  destruct (lookup_lt_is_Some_2 scene_list idx) as [scene Hscene]; [lia|].
  rewrite Hscene, Hself.
  destruct (Hreg scene) as [sc Hsc]; [by eapply list_elem_of_lookup_2|].
  rewrite Hsc.
  apply (try_positions_returns sch tb scene sc _ (drop (S idx) scene_list)); try done.
  - apply next_scene_keeps.
  - intros st0 Hs0 Hl0. cbn. apply IH; [lia|lia|done|done].
  - intros i Hi. apply elem_of_seq in Hi. lia.
Qed.

Lemma timeline_none chart days :
  timeline chart days = None → ∃ day, day ∈ days ∧ chart !! day = None.
Proof.
  induction days as [|d days IH]; cbn [timeline]; [done|].
  destruct (chart !! d) as [blocks|] eqn:Hd.
  - destruct (timeline chart days); [done|]. intros _.
    destruct (IH eq_refl) as (day & Hday & Hn). exists day. split; [by right|done].
  - intros _. exists d. split; [by left|done].
Qed.

Lemma initial_search_binary sch tb : binary (Scheduler.schedule_ (initial_search sch tb)).
Proof. cbn. apply Forall_replicate. by left. Qed.

Lemma placed_completable rest self tb sched arr ps :
  placed rest self tb sched arr ps → completable self tb sched rest.
Proof. intros (? & ? & ? & _). by exists ps. Qed.

(** X1.  With every requested day in the grid, every listed scene
    registered and a non-zero interval, [schedule] answers without raising
    and leaves the scheduler as it was; it answers [None] exactly when
    there is no way to give each listed scene a position of the timeline
    where its check passes and its positions exist, with no two scenes
    sharing a position. *)
Theorem schedule_decides (sch : Scheduler.t) (days scene_list : list string) :
  let cal := Scheduler.calendar sch in
  (∀ day, day ∈ days → is_Some (Calendar.day_time_chart cal !! day)) →
  (∀ s, s ∈ scene_list → is_Some (Scheduler.scenes sch !! s)) →
  Calendar.interval cal ≠ 0%Qc →
  ∃ tb r,
    timeline (Calendar.day_time_chart cal) days = Some tb ∧
    Scheduler.schedule days scene_list sch = (sch, Ret r) ∧
    (r = None ↔ ¬ completable sch tb (replicate (length tb) 0) scene_list).
Proof.
  intros cal Hdays Hreg Hiv.
  destruct (proj1 (timeline_known _ _) Hdays) as [tb Htl]. exists tb.
  destruct (schedule_solve_returns sch tb scene_list Hiv Hreg
              (length scene_list - 0) 0 (initial_search sch tb))
    as (st' & b & Hrun); [lia|lia|done|by cbn; rewrite length_replicate|].
  pose proof (schedule_frame days scene_list sch) as Hframe.
  pose proof (schedule_some days scene_list sch) as Hsome.
  rewrite schedule_run in Hframe, Hsome |- *. fold cal in Hframe, Hsome |- *.
  rewrite Htl in Hframe, Hsome |- *. unfold Scheduler.schedule_solve in *.
  rewrite Hrun in Hframe, Hsome |- *. cbn in Hframe. destruct b.
  - exists (Some (Scheduler.arrangement_ st')). split; [done|]. cbn in Hframe.
    split; [by rewrite Hframe|]. split; [done|]. intros Hno. exfalso. apply Hno.
    destruct (Hsome _ eq_refl) as (tb' & ps & [= <-] & Hplaced & _).
    by eapply placed_completable.
  - exists None. split; [done|]. cbn in Hframe. split; [by rewrite Hframe|].
    split; [|done]. intros _.
    refine (schedule_solve_complete sch tb scene_list _ 0 (initial_search sch tb) st'
              (initial_search_binary _ _) eq_refl _ Hrun).
    cbn. by rewrite length_replicate.
Qed.

(** The same on two days of two slots: a task of one timeblock and a task
    of two, both for A. *)
Lemma schedule_decides_witness :
  let chart : gmap string (list Qc) :=
    {[ "D1" := [1%Qc; Q2Qc (3 # 2)]; "D2" := [1%Qc; Q2Qc (3 # 2)] ]} in
  let one := {| Scene.name := "T1"; Scene.speaking_actors := ["A"];
                Scene.all_actors := ["A"]; Scene.length := 1 |} in
  let two := {| Scene.name := "T2"; Scene.speaking_actors := ["A"];
                Scene.all_actors := ["A"]; Scene.length := 2 |} in
  let sch := {| Scheduler.calendar :=
                  (Calendar.init ["A"] chart ["D1"; "D2"] (Q2Qc (1 # 2)) []).1;
                Scheduler.scenes := {[ "T1" := one; "T2" := two ]} |} in
  let cal := Scheduler.calendar sch in
  ∃ tb r,
    timeline (Calendar.day_time_chart cal) ["D1"; "D2"] = Some tb ∧
    Scheduler.schedule ["D1"; "D2"] ["T1"; "T2"] sch = (sch, Ret r) ∧
    (r = None ↔ ¬ completable sch tb (replicate (length tb) 0) ["T1"; "T2"]).
Proof.
  intros chart one two sch cal. apply (schedule_decides sch).
  - intros day Hday.
    apply elem_of_cons in Hday as [->|Hday];
      [|apply list_elem_of_singleton in Hday as ->]; eexists; by vm_compute.
  - intros s Hs.
    apply elem_of_cons in Hs as [->|Hs];
      [|apply list_elem_of_singleton in Hs as ->]; eexists; by vm_compute.
  - by vm_compute.
Defined.

(** X2.  What [schedule] can raise: [KeyError], when a requested day is
    not in the grid or a listed scene is not registered, and
    [ZeroDivisionError], only with a zero interval; nothing else, and in
    particular no [IndexError].  And when a requested day is not in the
    grid, [schedule] does raise [KeyError], before any search, whatever the
    scenes and the interval, and changes nothing. *)
Theorem schedule_raises (sch : Scheduler.t) (days scene_list : list string) :
  let cal := Scheduler.calendar sch in
  (∀ e, (Scheduler.schedule days scene_list sch).2 = Raise e →
     (e = KeyError ∧
      ((∃ day, day ∈ days ∧ Calendar.day_time_chart cal !! day = None) ∨
       (∃ s, s ∈ scene_list ∧ Scheduler.scenes sch !! s = None))) ∨
     (e = ZeroDivisionError ∧ Calendar.interval cal = 0%Qc)) ∧
  ((∃ day, day ∈ days ∧ Calendar.day_time_chart cal !! day = None) →
   Scheduler.schedule days scene_list sch = (sch, Raise KeyError)).
Proof.
  intros cal. rewrite schedule_run. fold cal.
  destruct (timeline (Calendar.day_time_chart cal) days) as [tb|] eqn:Htl.
  - split.
    + intros e. unfold Scheduler.schedule_solve.
      destruct (Scheduler.schedule_solve_fuel _ _ _ _ _) as [st [[]|e0]] eqn:Hrun;
        [done|done|].
      cbn. intros [= ->].
      apply (schedule_solve_raises sch tb scene_list) in Hrun;
        [|lia|lia|done|by cbn; rewrite length_replicate].
      rewrite drop_0 in Hrun.
      destruct Hrun as [[-> Hs]|?]; [left; split; [done|by right]|by right].
    + intros (day & Hday & Hn).
      assert (is_Some (Calendar.day_time_chart cal !! day)) as [? ?]; [|congruence].
      eapply timeline_known; [by rewrite Htl|done].
  - split; [|done]. cbn. intros e [= <-]. left. split; [done|]. left.
    by apply timeline_none.
Qed.

(** The same with a day that the grid does not have. *)
Lemma schedule_raises_witness :
  let chart : gmap string (list Qc) := {[ "D1" := [1%Qc; Q2Qc (3 # 2)] ]} in
  let one := {| Scene.name := "T1"; Scene.speaking_actors := ["A"];
                Scene.all_actors := ["A"]; Scene.length := 1 |} in
  let sch := {| Scheduler.calendar :=
                  (Calendar.init ["A"] chart ["D1"] (Q2Qc (1 # 2)) []).1;
                Scheduler.scenes := {[ "T1" := one ]} |} in
  Scheduler.schedule ["D1"; "D9"] ["T1"] sch = (sch, Raise KeyError).
Proof.
  intros chart one sch.
  apply (proj2 (schedule_raises sch ["D1"; "D9"] ["T1"])).
  exists "D9". split; [right; by left|by vm_compute].
Defined.

(** X3.  A search that fails has undone every placement it tried: the
    schedule list comes back as it went in, the scheduler is untouched, and
    no arrangement entry of a scene outside the remaining ones is written. *)
Theorem schedule_solve_undoes (fuel : nat) (scene_list : list string)
    (tb : list (string * Qc)) (idx : nat) (st st' : Scheduler.search) :
  binary (Scheduler.schedule_ st) →
  Scheduler.schedule_solve_fuel fuel scene_list tb idx st = (st', Ret false) →
  Scheduler.schedule_ st' = Scheduler.schedule_ st ∧
  Scheduler.self_ st' = Scheduler.self_ st ∧
  ∀ s, s ∉ drop idx scene_list →
       Scheduler.arrangement_ st' !! s = Scheduler.arrangement_ st !! s.
Proof.
  intros Hb Hrun. split; [by eapply schedule_solve_restores|].
  destruct (schedule_solve_keeps _ _ _ _ _ _ _ Hrun) as [(Hs & _) Harr]. done.
Qed.

(** The same for three tasks of two timeblocks on a day of four slots. *)
Lemma schedule_solve_undoes_witness :
  let chart : gmap string (list Qc) :=
    {[ "D1" := [1%Qc; Q2Qc (3 # 2); 2%Qc; Q2Qc (5 # 2)] ]} in
  let task := {| Scene.name := "T"; Scene.speaking_actors := ["A"];
                 Scene.all_actors := ["A"]; Scene.length := 2 |} in
  let sch := {| Scheduler.calendar :=
                  (Calendar.init ["A"] chart ["D1"] (Q2Qc (1 # 2)) []).1;
                Scheduler.scenes := {[ "T1" := task; "T2" := task; "T3" := task ]} |} in
  let tb := [("D1", 1%Qc); ("D1", Q2Qc (3 # 2)); ("D1", 2%Qc); ("D1", Q2Qc (5 # 2))] in
  let st := initial_search sch tb in
  let st' := (Scheduler.schedule_solve_fuel 3 ["T1"; "T2"; "T3"] tb 0 st).1 in
  Scheduler.schedule_ st' = Scheduler.schedule_ st ∧
  Scheduler.self_ st' = Scheduler.self_ st ∧
  ∀ s, s ∉ drop 0 ["T1"; "T2"; "T3"] →
       Scheduler.arrangement_ st' !! s = Scheduler.arrangement_ st !! s.
Proof.
  intros chart task sch tb st st'.
  apply (schedule_solve_undoes 3 ["T1"; "T2"; "T3"] tb 0 st st').
  - apply initial_search_binary.
  - by vm_compute.
Defined.

(** ** [generate_times] on any window *)

(** [int] on a number: the integers from 1 up that do not exceed the
    number are those that do not exceed its integer part. *)
Lemma py_int_ge (q : Qc) (m : Z) :
  (0 < m)%Z → (Qc_of_Z m ≤ q)%Qc ↔ (m ≤ py_int q)%Z.
Proof.
  intros Hm. unfold py_int, Qcle, Qle. destruct q as [[n d] Hq]. cbn.
  rewrite Z.mul_1_r.
  destruct (decide (0 ≤ n)%Z) as [Hn|Hn].
  - rewrite Z.quot_div_nonneg by lia. split.
    + intros H. apply Z.div_le_lower_bound; lia.
    + intros H. pose proof (Z.mul_div_le n (Z.pos d)). nia.
  - assert (n ÷ Z.pos d ≤ 0)%Z as Hq0.
    { replace n with (- (- n))%Z by lia. rewrite Z.quot_opp_l by lia.
      pose proof (Z.quot_pos (- n) (Z.pos d)). lia. }
    split; [nia|lia].
Qed.

Lemma slot_fits (ts te iv c : Qc) :
  (0 < iv)%Qc → (ts + iv * c ≤ te)%Qc ↔ (c ≤ (te - ts) / iv)%Qc.
Proof.
  intros Hiv. assert (iv ≠ 0%Qc) as Hne by (intros Heq; by apply (Qclt_not_eq _ _ Hiv)).
  rewrite (Qcmult_le_mono_pos_l c ((te - ts) / iv) iv Hiv).
  replace (iv * ((te - ts) / iv))%Qc with (te - ts)%Qc by (field; exact Hne).
  rewrite (Qcplus_le_mono_l (iv * c) (te - ts) ts).
  by replace (ts + (te - ts))%Qc with te by ring.
Qed.

(** X4.  [generate_times(time_start, time_end)] with a non-zero interval
    changes nothing and does not raise; it returns
    [int((time_end - time_start) / interval)] times, computed in float
    arithmetic, the k-th being [time_start + interval * k] in float
    arithmetic, and none when [time_end] is [time_start].  Where none of
    these operations rounds and the interval is positive, the times are
    the slot starts [time_start + k*interval] for exactly those [k] whose
    slot ends by [time_end]: the slot starting at [time_end] is not
    included, every returned time is at least [time_start] and less than
    [time_end], and nothing is returned when [time_end] is not after
    [time_start]. *)
Theorem generate_times_window (sch : Scheduler.t) (ts te : Qc) :
  let iv := Calendar.interval (Scheduler.calendar sch) in
  iv ≠ 0%Qc →
  ∃ times,
    Scheduler.generate_times ts te sch = (sch, Ret times) ∧
    length times = Z.to_nat (py_int (py_float (py_sub te ts / iv)%Qc)) ∧
    (∀ k t, times !! k = Some t → t = slot_at iv ts k) ∧
    (te = ts → times = []) ∧
    ((0 < iv)%Qc → window_unrounded iv ts te →
     (∀ k : nat, (k < length times)%nat ↔
                 (ts + iv * Qc_of_Z (Z.of_nat k + 1) ≤ te)%Qc) ∧
     (∀ k t, times !! k = Some t → t = (ts + iv * Qc_of_Z (Z.of_nat k))%Qc) ∧
     (∀ t, t ∈ times → (ts ≤ t)%Qc ∧ (t < te)%Qc ∧ (t + iv ≤ te)%Qc) ∧
     ((te ≤ ts)%Qc → times = [])).
Proof.
  intros iv Hne. exists (window_times iv ts te).
  split; [|split; [|split; [|split]]].
  - rewrite generate_times_general. fold iv. by rewrite decide_False.
  - unfold window_times, py_range. by rewrite length_fmap, length_seq.
  - intros k t Hk. unfold window_times, py_range in Hk. rewrite list_lookup_fmap in Hk.
    destruct (seq _ _ !! k) as [i|] eqn:Hi; [|done].
    apply lookup_seq in Hi as [-> _]. by injection Hk as <-.
  - intros ->. unfold window_times, py_sub.
    replace (ts - ts)%Qc with 0%Qc by ring. rewrite py_float_0.
    replace (0 / iv)%Qc with 0%Qc by (field; exact Hne).
    by rewrite py_float_0.
  - intros Hiv Hexact. rewrite (window_exact _ _ _ Hexact).
    assert (∀ k : nat, (k < length (occupied iv ts (py_int ((te - ts) / iv)%Qc)))%nat ↔
                       (ts + iv * Qc_of_Z (Z.of_nat k + 1) ≤ te)%Qc) as Hcount.
    { intros k. rewrite occupied_length, slot_fits, py_int_ge by (done || lia). lia. }
    assert (∀ k t, occupied iv ts (py_int ((te - ts) / iv)%Qc) !! k = Some t →
                   t = (ts + iv * Qc_of_Z (Z.of_nat k))%Qc) as Hnth.
    { intros k t Hk. unfold occupied in Hk. rewrite list_lookup_fmap in Hk.
      destruct (seq _ _ !! k) as [i|] eqn:Hi; [|done].
      apply lookup_seq in Hi as [-> _]. by injection Hk as <-. }
    assert (∀ t, t ∈ occupied iv ts (py_int ((te - ts) / iv)%Qc) →
                 (ts ≤ t)%Qc ∧ (t < te)%Qc ∧ (t + iv ≤ te)%Qc) as Hin.
    { intros t Ht. apply list_elem_of_lookup in Ht as [k Hk].
      pose proof (proj1 (Hcount k) (lookup_lt_Some _ _ _ Hk)) as Hfit.
      rewrite (Hnth _ _ Hk).
      assert (ts + iv * Qc_of_Z (Z.of_nat k) + iv
              = ts + iv * Qc_of_Z (Z.of_nat k + 1))%Qc as Hstep
        by (rewrite Z2Qc_inj_add, Z2Qc_inj_1; ring).
      split; [|split].
      - replace ts with (ts + iv * Qc_of_Z 0)%Qc at 1 by (rewrite Z2Qc_inj_0; ring).
        apply slot_mono; [done|lia].
      - eapply Qclt_le_trans; [|exact Hfit]. rewrite <-Hstep.
        rewrite <-(Qcplus_0_r (ts + iv * Qc_of_Z (Z.of_nat k))) at 1.
        by apply Qcplus_lt_mono_l.
      - by rewrite Hstep. }
    split; [done|split; [done|split; [done|]]].
    intros Hle. destruct (occupied _ _ _) as [|t l] eqn:Hocc; [done|].
    destruct (Hin t) as (H1 & H2 & _); [by left|].
    exfalso. eapply Qclt_not_le; [exact H2|]. by etrans.
Qed.

(** The example of the source: from 7 to 8 at interval 0.5, where nothing
    rounds. *)
Lemma generate_times_window_witness :
  let sch := {| Scheduler.calendar :=
                  (Calendar.init ["A"] {[ "D1" := [Qc_of_Z 7; Q2Qc (15 # 2)] ]} ["D1"]
                     (Q2Qc (1 # 2)) []).1;
                Scheduler.scenes := ∅ |} in
  let iv := Calendar.interval (Scheduler.calendar sch) in
  let ts := Qc_of_Z 7 in
  let te := Qc_of_Z 8 in
  ∃ times,
    Scheduler.generate_times ts te sch = (sch, Ret times) ∧
    (∀ k : nat, (k < length times)%nat ↔
                (ts + iv * Qc_of_Z (Z.of_nat k + 1) ≤ te)%Qc) ∧
    (∀ k t, times !! k = Some t → t = (ts + iv * Qc_of_Z (Z.of_nat k))%Qc) ∧
    (∀ t, t ∈ times → (ts ≤ t)%Qc ∧ (t < te)%Qc ∧ (t + iv ≤ te)%Qc) ∧
    ((te ≤ ts)%Qc → times = []).
Proof.
  intros sch iv ts te.
  destruct (generate_times_window sch ts te) as (times & Hrun & _ & _ & _ & Hexact);
    [by vm_compute|].
  exists times. split; [exact Hrun|]. apply Hexact; [by vm_compute|].
  apply window_unroundedb_spec. by vm_compute.
Defined.

(** Where the arithmetic rounds: with the interval 0.1, the window from 0
    to 1 gives ten times, the last 0.9, as ten exact tenths would; but
    the scene of two timeblocks at 0.5 is checked at 0.5 only, and the
    scene of one timeblock at 7 with the interval 1/3 at no slot. *)
Lemma generate_times_rounding :
  let tenth := py_float (Q2Qc (1 # 10)) in
  let third := py_float (Q2Qc (1 # 3)) in
  length (window_times tenth 0 1) = 10%nat ∧
  window_times tenth 0 1 !! 9%nat = Some (py_float (Q2Qc (9 # 10))) ∧
  checked tenth (Q2Qc (1 # 2)) 2 = [Q2Qc (1 # 2)] ∧
  checked third (Qc_of_Z 7) 1 = [].
Proof.
  cbv zeta. split; [by vm_compute|]. split; [|split].
  - apply (bool_decide_unpack _). by vm_compute.
  - apply (bool_decide_unpack _). by vm_compute.
  - apply (bool_decide_unpack _). by vm_compute.
Qed.

(** ** What [scene_works] raises *)

Lemma scene_works_raise_iff sch scene day ts te e :
  (Scheduler.scene_works scene day ts te sch).2 = Raise e ↔
  (e = KeyError ∧ Scheduler.scenes sch !! scene = None) ∨
  (e = ZeroDivisionError ∧ is_Some (Scheduler.scenes sch !! scene) ∧
   Calendar.interval (Scheduler.calendar sch) = 0%Qc ∧ (py_float ts ≤ te)%Qc).
Proof.
  rewrite scene_works_run.
  destruct (Scheduler.scenes sch !! scene) as [sc|] eqn:Hsc.
  - cbn zeta. destruct (decide (Calendar.interval (Scheduler.calendar sch) = 0%Qc))
      as [H0|H0].
    + rewrite H0. unfold scene_end, py_add, py_mul.
      rewrite Qcmult_0_r, py_float_0, Qcplus_0_r. case_bool_decide as Hlt; cbn [snd].
      * split; [done|]. intros [[_ [=]]|(_ & _ & _ & Hle)].
        by apply Qcle_not_lt in Hle.
      * apply Qcnot_lt_le in Hlt. split.
        -- intros [= <-]. right. eauto.
        -- intros [[_ [=]]|(-> & _)]. done.
    + destruct (bool_decide _); cbn [snd];
        (split; [done|]; intros [[_ [=]]|(_ & _ & ? & _)]; done).
  - cbn [snd]. split.
    + intros [= <-]. by left.
    + intros [[-> _]|(_ & [? [=]] & _)]. done.
Qed.

(** X5.  [scene_works] raises in two cases only: [KeyError] exactly when
    the scene is not registered, and [ZeroDivisionError] exactly when the
    scene is registered, the interval is zero and [time_start] is not after
    [time_end].  An unknown actor, day or slot never shows as an
    exception.  ([time_start] is compared after the addition
    [time_start + length * 0], which leaves a float as it is.) *)
Theorem scene_works_exceptions (sch : Scheduler.t) (scene day : string) (ts te : Qc)
    (e : exn) :
  ((Scheduler.scene_works scene day ts te sch).2 = Raise e ↔
   (e = KeyError ∧ Scheduler.scenes sch !! scene = None) ∨
   (e = ZeroDivisionError ∧ is_Some (Scheduler.scenes sch !! scene) ∧
    Calendar.interval (Scheduler.calendar sch) = 0%Qc ∧ (py_float ts ≤ te)%Qc)) ∧
  (representable ts →
   ((Scheduler.scene_works scene day ts te sch).2 = Raise e ↔
    (e = KeyError ∧ Scheduler.scenes sch !! scene = None) ∨
    (e = ZeroDivisionError ∧ is_Some (Scheduler.scenes sch !! scene) ∧
     Calendar.interval (Scheduler.calendar sch) = 0%Qc ∧ (ts ≤ te)%Qc))).
Proof.
  split; [apply scene_works_raise_iff|].
  intros Hts. pose proof (scene_works_raise_iff sch scene day ts te e) as H.
  unfold representable in Hts. by rewrite Hts in H.
Qed.

(** ** Conflicts given as lists of slots *)

Lemma set_slots_ledger v name day times cal a row :
  Calendar.actor_objects cal !! name = Some a →
  Actor.conflict_chart a !! day = Some row →
  ∃ cal',
    for_each times (fun t => Calendar.on_actor name (Actor.set_slot day t v)) cal
      = (cal', Ret tt) ∧
    Calendar.names cal' = Calendar.names cal ∧
    Calendar.day_time_chart cal' = Calendar.day_time_chart cal ∧
    Calendar.days cal' = Calendar.days cal ∧
    Calendar.interval cal' = Calendar.interval cal ∧
    (∀ name', is_Some (Calendar.actor_objects cal' !! name')
              ↔ is_Some (Calendar.actor_objects cal !! name')) ∧
    ∀ name' day' t,
      ledger_of cal' name' day' t =
        if decide (name' = name ∧ day' = day ∧ t ∈ times) then Some v
        else ledger_of cal name' day' t.
Proof.
  intros Ha Hrow. rewrite set_slots_run.
  destruct times as [|t0 times].
  { exists cal. repeat split; try done. intros name' day' t.
    rewrite decide_False; [done|]. intros (_ & _ & H). by apply elem_of_nil in H. }
  rewrite Ha, Hrow. eexists. split; [done|]. do 4 (split; [done|]). split.
  - intros name'. rewrite actor_objects_set.
    destruct (decide (name' = name)) as [->|Hne].
    + rewrite lookup_insert_eq, Ha. split; eauto.
    + by rewrite lookup_insert_ne.
  - intros name' day' t. unfold ledger_of. rewrite actor_objects_set.
    destruct (decide (name' = name)) as [->|Hne].
    + rewrite lookup_insert_eq, Ha. cbn [mbind option_bind].
      rewrite ledger_set_conflict_chart. unfold ledger.
      destruct (decide (day' = day)) as [->|Hd].
      * rewrite lookup_insert_eq, Hrow. cbn [mbind option_bind].
        rewrite mark_row_lookup.
        destruct (decide (t ∈ t0 :: times)) as [Hin|Hin].
        -- by rewrite decide_True.
        -- rewrite decide_False; [done|]. by intros (_ & _ & ?).
      * rewrite lookup_insert_ne by done.
        rewrite decide_False; [done|]. by intros (_ & ? & _).
    + rewrite lookup_insert_ne by done.
      rewrite decide_False; [done|]. by intros (? & _).
Qed.

Lemma set_slots_raise v name day times cal :
  times ≠ [] →
  (Calendar.actor_objects cal !! name = None ∨
   ∃ a, Calendar.actor_objects cal !! name = Some a ∧
        Actor.conflict_chart a !! day = None) →
  for_each times (fun t => Calendar.on_actor name (Actor.set_slot day t v)) cal
    = (cal, Raise KeyError).
Proof.
  intros Hne Hcase. rewrite set_slots_run. destruct times as [|t0 times]; [done|].
  destruct Hcase as [->|(a & -> & ->)]; done.
Qed.

(** X6.  [Calendar.add_conflict] and [Calendar.remove_conflict] with a
    list of slots.  For a known participant and a day its ledger has, the
    call succeeds, sets exactly the listed slots of that participant and
    day to unavailable (respectively available), adding the slots the
    ledger did not have, and leaves every other ledger entry, the grid,
    the names, the days and the interval as they were.  With an empty list nothing
    happens, whatever the name and the day.  With a non-empty list, an
    unknown participant or day raises [KeyError] and nothing is changed. *)
Theorem conflict_list_effect (cal : Calendar.t) (name day : string) (times : list Qc) :
  (∀ a row,
     Calendar.actor_objects cal !! name = Some a →
     Actor.conflict_chart a !! day = Some row →
     ∃ added removed,
       Calendar.add_conflict (name, day, times) cal = (added, Ret tt) ∧
       Calendar.remove_conflict (name, day, times) cal = (removed, Ret tt) ∧
       Calendar.day_time_chart added = Calendar.day_time_chart cal ∧
       Calendar.day_time_chart removed = Calendar.day_time_chart cal ∧
       Calendar.names added = Calendar.names cal ∧
       Calendar.names removed = Calendar.names cal ∧
       Calendar.days added = Calendar.days cal ∧
       Calendar.days removed = Calendar.days cal ∧
       Calendar.interval added = Calendar.interval cal ∧
       Calendar.interval removed = Calendar.interval cal ∧
       ∀ name' day' t,
         ledger_of added name' day' t =
           (if decide (name' = name ∧ day' = day ∧ t ∈ times) then Some false
            else ledger_of cal name' day' t) ∧
         ledger_of removed name' day' t =
           (if decide (name' = name ∧ day' = day ∧ t ∈ times) then Some true
            else ledger_of cal name' day' t)) ∧
  (times = [] →
     Calendar.add_conflict (name, day, times) cal = (cal, Ret tt) ∧
     Calendar.remove_conflict (name, day, times) cal = (cal, Ret tt)) ∧
  (times ≠ [] →
   (Calendar.actor_objects cal !! name = None ∨
    ∃ a, Calendar.actor_objects cal !! name = Some a ∧
         Actor.conflict_chart a !! day = None) →
     Calendar.add_conflict (name, day, times) cal = (cal, Raise KeyError) ∧
     Calendar.remove_conflict (name, day, times) cal = (cal, Raise KeyError)).
Proof.
  rewrite add_conflict_run, remove_conflict_run. split; [|split].
  - intros a row Ha Hrow.
    destruct (set_slots_ledger false name day times cal a row Ha Hrow)
      as (added & Hadd & Hn1 & Hc1 & Hd1 & Hi1 & _ & Hl1).
    destruct (set_slots_ledger true name day times cal a row Ha Hrow)
      as (removed & Hrem & Hn2 & Hc2 & Hd2 & Hi2 & _ & Hl2).
    exists added, removed. do 10 (split; [done|]). intros name' day' t.
    split; [apply Hl1 | apply Hl2].
  - by intros ->.
  - intros Hne Hcase. split; by apply set_slots_raise.
Qed.

(** The same for A on D1, with one listed slot in the grid and one not. *)
Lemma conflict_list_effect_witness :
  let cal := (Calendar.init ["A"; "B"] {[ "D1" := [1%Qc; Q2Qc (3 # 2)] ]} ["D1"]
                (Q2Qc (1 # 2)) []).1 in
  let times := [1%Qc; 2%Qc] in
  ∃ added removed,
    Calendar.add_conflict ("A", "D1", times) cal = (added, Ret tt) ∧
    Calendar.remove_conflict ("A", "D1", times) cal = (removed, Ret tt) ∧
    Calendar.day_time_chart added = Calendar.day_time_chart cal ∧
    Calendar.day_time_chart removed = Calendar.day_time_chart cal ∧
    Calendar.names added = Calendar.names cal ∧
    Calendar.names removed = Calendar.names cal ∧
    Calendar.days added = Calendar.days cal ∧
    Calendar.days removed = Calendar.days cal ∧
    Calendar.interval added = Calendar.interval cal ∧
    Calendar.interval removed = Calendar.interval cal ∧
    ∀ name' day' t,
      ledger_of added name' day' t =
        (if decide (name' = "A" ∧ day' = "D1" ∧ t ∈ times) then Some false
         else ledger_of cal name' day' t) ∧
      ledger_of removed name' day' t =
        (if decide (name' = "A" ∧ day' = "D1" ∧ t ∈ times) then Some true
         else ledger_of cal name' day' t).
Proof.
  intros cal times.
  destruct (conflict_list_effect cal "A" "D1" times) as [Heffect _].
  eapply Heffect; by vm_compute.
Defined.

Lemma mark_row_back v v' row times :
  (∀ t, t ∈ times → row !! t = Some v) →
  mark_row v (mark_row v' row times) times = row.
Proof.
  intros Hrow. apply map_eq. intros t. rewrite !mark_row_lookup.
  case_decide; [by rewrite Hrow|done].
Qed.

Lemma set_slots_back v v' name day times cal a :
  Calendar.actor_objects cal !! name = Some a →
  (∀ t, t ∈ times → ledger a day t = Some v) →
  ∃ cal1,
    for_each times (fun t => Calendar.on_actor name (Actor.set_slot day t v')) cal
      = (cal1, Ret tt) ∧
    for_each times (fun t => Calendar.on_actor name (Actor.set_slot day t v)) cal1
      = (cal, Ret tt).
Proof.
  intros Ha Hav. rewrite set_slots_run. destruct times as [|t0 times]; [by exists cal|].
  rewrite Ha.
  assert (∃ row, Actor.conflict_chart a !! day = Some row) as [row Hrow].
  { specialize (Hav t0 (list_elem_of_here _ _)). unfold ledger in Hav.
    destruct (Actor.conflict_chart a !! day); [eauto|done]. }
  rewrite Hrow. eexists. split; [done|].
  rewrite set_slots_run, actor_objects_set, lookup_insert_eq, conflict_chart_set,
    lookup_insert_eq. f_equal.
  rewrite set_actor_objects_set, insert_insert_eq, set_conflict_chart_set,
    insert_insert_eq, mark_row_back.
  - by rewrite (insert_id (Actor.conflict_chart a)), set_conflict_chart_id, insert_id,
      set_actor_objects_id.
  - intros t Ht. specialize (Hav t Ht). unfold ledger in Hav.
    by rewrite Hrow in Hav.
Qed.

(** X7.  A conflict all of whose slots the participant's ledger holds as
    available is undone by [remove_conflict]: after [add_conflict] and then
    [remove_conflict] with the same conflict the calendar is the one before.
    Likewise [add_conflict] undoes a [remove_conflict] of slots that were
    all unavailable. *)
Theorem conflict_list_round_trip (cal : Calendar.t) (name day : string)
    (times : list Qc) (a : Actor.t) (v : bool) :
  Calendar.actor_objects cal !! name = Some a →
  (∀ t, t ∈ times → ledger a day t = Some v) →
  if v then
    ∃ cal1, Calendar.add_conflict (name, day, times) cal = (cal1, Ret tt) ∧
            Calendar.remove_conflict (name, day, times) cal1 = (cal, Ret tt)
  else
    ∃ cal1, Calendar.remove_conflict (name, day, times) cal = (cal1, Ret tt) ∧
            Calendar.add_conflict (name, day, times) cal1 = (cal, Ret tt).
Proof.
  intros Ha Hav. destruct v.
  - apply (set_slots_back true false name day times cal a Ha Hav).
  - apply (set_slots_back false true name day times cal a Ha Hav).
Qed.

(** The same for A on the two slots of D1. *)
Lemma conflict_list_round_trip_witness :
  let cal := (Calendar.init ["A"] {[ "D1" := [1%Qc; Q2Qc (3 # 2)] ]} ["D1"]
                (Q2Qc (1 # 2)) []).1 in
  ∃ cal1,
    Calendar.add_conflict ("A", "D1", [1%Qc; Q2Qc (3 # 2)]) cal = (cal1, Ret tt) ∧
    Calendar.remove_conflict ("A", "D1", [1%Qc; Q2Qc (3 # 2)]) cal1 = (cal, Ret tt).
Proof.
  intros cal.
  refine (conflict_list_round_trip cal "A" "D1" [1%Qc; Q2Qc (3 # 2)]
            (Actor.init "A" {[ "D1" := [1%Qc; Q2Qc (3 # 2)] ]}) true _ _).
  - by vm_compute.
  - intros t Ht. apply elem_of_cons in Ht as [->|Ht];
      [|apply list_elem_of_singleton in Ht as ->]; by vm_compute.
Defined.

(** ** Building and resetting the calendar *)

Lemma created_objects_full chart names (objs : gmap string Actor.t) name :
  foldl (fun objs name => <[name := Actor.init name chart]> objs) objs names !! name =
    if decide (name ∈ names) then Some (Actor.init name chart) else objs !! name.
Proof.
  revert objs. induction names as [|n names IH]; intros objs; cbn [foldl].
  - rewrite decide_False; [done|]. by intros ?%elem_of_nil.
  - rewrite IH. destruct (decide (name ∈ names)) as [Hin|Hin].
    + rewrite decide_True; [done|by right].
    + destruct (decide (n = name)) as [->|Hne].
      * rewrite decide_True by left. by rewrite lookup_insert_eq.
      * rewrite lookup_insert_ne by done. rewrite decide_False; [done|].
        intros [?|?]%elem_of_cons; congruence.
Qed.

Lemma ledger_init name chart day t :
  ledger (Actor.init name chart) day t = fresh_ledger chart day t.
Proof.
  unfold ledger, fresh_ledger. cbn [Actor.conflict_chart Actor.init].
  unfold Actor.create_conflict_chart. rewrite lookup_fmap.
  destruct (chart !! day) as [blocks|]; [|done]. cbn [fmap option_fmap option_map mbind option_bind].
  fold (mark_row true ∅ blocks). rewrite mark_row_lookup.
  rewrite lookup_empty. by case_decide.
Qed.

Lemma create_actor_objects_run cal :
  Calendar.create_actor_objects cal =
    (Calendar.set_actor_objects
       (foldl (fun objs name => <[name := Actor.init name (Calendar.day_time_chart cal)]> objs)
          ∅ (Calendar.names cal)) cal, Ret tt).
Proof. reflexivity. Qed.

Lemma created_ledger cal name day t :
  ledger_of (Calendar.create_actor_objects cal).1 name day t =
    if decide (name ∈ Calendar.names cal)
    then fresh_ledger (Calendar.day_time_chart cal) day t else None.
Proof.
  rewrite create_actor_objects_run. cbn [fst]. unfold ledger_of.
  rewrite actor_objects_set, created_objects_full.
  case_decide; [|by rewrite lookup_empty]. cbn [mbind option_bind]. apply ledger_init.
Qed.

(** X8.  [clear_conflicts] always succeeds and rebuilds the ledgers from
    the names and the grid: afterwards exactly the names of the calendar
    are known, each with every slot of the grid available and no other
    entry, whatever the ledgers held before; names, grid, days and interval
    are kept. *)
Theorem clear_conflicts_resets (cal : Calendar.t) :
  ∃ cal',
    Calendar.clear_conflicts cal = (cal', Ret tt) ∧
    Calendar.names cal' = Calendar.names cal ∧
    Calendar.day_time_chart cal' = Calendar.day_time_chart cal ∧
    Calendar.days cal' = Calendar.days cal ∧
    Calendar.interval cal' = Calendar.interval cal ∧
    (∀ name, is_Some (Calendar.actor_objects cal' !! name) ↔ name ∈ Calendar.names cal) ∧
    (∀ name day t,
       ledger_of cal' name day t =
         if decide (name ∈ Calendar.names cal)
         then fresh_ledger (Calendar.day_time_chart cal) day t else None) ∧
    ledgers_match_grid cal'.
Proof.
  unfold Calendar.clear_conflicts. rewrite create_actor_objects_run.
  eexists. split; [done|]. do 4 (split; [done|]).
  split; [|split; [intros name day t; apply (created_ledger cal)|]].
  - intros name. rewrite actor_objects_set, created_objects_full.
    case_decide; [split; eauto|]. rewrite lookup_empty. split; [by intros []|done].
  - intros name a day t Ha. rewrite actor_objects_set, created_objects_full in Ha.
    destruct (decide (name ∈ Calendar.names cal)); [|by rewrite lookup_empty in Ha].
    injection Ha as <-. rewrite ledger_init. unfold fresh_ledger, in_grid.
    cbn [Calendar.day_time_chart Calendar.set_actor_objects].
    destruct (Calendar.day_time_chart cal !! day) as [blocks|]; cbn [mbind option_bind].
    + case_decide; split; eauto.
      * by intros [].
      * by intros (? & [= <-] & ?).
    + split; [by intros []|]. by intros (? & [=] & _).
Qed.

Lemma has_day_set_slots v name day times cal :
  let r := for_each times (fun t => Calendar.on_actor name (Actor.set_slot day t v)) cal in
  (r.2 = Ret tt ∨ (r = (cal, Raise KeyError) ∧ times ≠ [] ∧ ¬ has_day cal name day)) ∧
  Calendar.names r.1 = Calendar.names cal ∧
  Calendar.day_time_chart r.1 = Calendar.day_time_chart cal ∧
  Calendar.days r.1 = Calendar.days cal ∧
  Calendar.interval r.1 = Calendar.interval cal ∧
  ∀ name' day', has_day r.1 name' day' ↔ has_day cal name' day'.
Proof.
  cbv zeta. rewrite set_slots_run. destruct times as [|t0 times].
  { split; [by left|done]. }
  destruct (Calendar.actor_objects cal !! name) as [a|] eqn:Ha.
  2:{ split; [|done]. right. split; [done|]. split; [done|].
      intros (a & Ha' & _). congruence. }
  destruct (Actor.conflict_chart a !! day) as [row|] eqn:Hrow.
  2:{ split; [|done]. right. split; [done|]. split; [done|].
      intros (a' & Ha' & Hs). assert (a' = a) as -> by congruence.
      rewrite Hrow in Hs. by destruct Hs. }
  cbn [fst snd]. split; [by left|]. do 4 (split; [done|]).
  intros name' day'. unfold has_day. rewrite actor_objects_set.
  destruct (decide (name' = name)) as [->|Hne].
  - rewrite lookup_insert_eq, Ha. split.
    + intros (a' & [= <-] & Hs). exists a. split; [done|].
      rewrite conflict_chart_set in Hs.
      destruct (decide (day' = day)) as [->|Hd]; [by rewrite Hrow|].
      by rewrite lookup_insert_ne in Hs.
    + intros (a' & [= <-] & Hs). eexists. split; [done|].
      rewrite conflict_chart_set.
      destruct (decide (day' = day)) as [->|Hd]; [by rewrite lookup_insert_eq|].
      by rewrite lookup_insert_ne.
  - by rewrite lookup_insert_ne.
Qed.

Lemma has_day_ledger cal name day :
  has_day cal name day ↔
  ∃ a row, Calendar.actor_objects cal !! name = Some a ∧
           Actor.conflict_chart a !! day = Some row.
Proof.
  split.
  - intros (a & Ha & [row Hrow]). eauto.
  - intros (a & row & Ha & Hrow). exists a. split; [done|]. by rewrite Hrow.
Qed.

Lemma listed_dec conflicts name day t :
  listed conflicts name day t ∨ ¬ listed conflicts name day t.
Proof.
  induction conflicts as [|[[n d] ts] conflicts IH].
  - right. intros (? & H & _). by apply elem_of_nil in H.
  - destruct IH as [(times & Hin & Ht)|Hnot].
    { left. exists times. split; [by right|done]. }
    destruct (decide (n = name ∧ d = day ∧ t ∈ ts)) as [(-> & -> & Ht)|Hn].
    + left. exists ts. split; [by left|done].
    + right. intros (times & Hin & Ht).
      apply elem_of_cons in Hin as [[= <- <- <-]|Hin]; [by apply Hn|].
      apply Hnot. by exists times.
Qed.

(** A run of conflicts that are all about days the named ledgers have. *)
Lemma add_conflicts_ledger conflicts :
  ∀ cal,
    (∀ name day times, (name, day, times) ∈ conflicts → has_day cal name day) →
    ∃ cal',
      for_each conflicts Calendar.add_conflict cal = (cal', Ret tt) ∧
      Calendar.names cal' = Calendar.names cal ∧
      Calendar.day_time_chart cal' = Calendar.day_time_chart cal ∧
      Calendar.days cal' = Calendar.days cal ∧
      Calendar.interval cal' = Calendar.interval cal ∧
      ∀ name day t,
        (listed conflicts name day t → ledger_of cal' name day t = Some false) ∧
        (¬ listed conflicts name day t →
         ledger_of cal' name day t = ledger_of cal name day t).
Proof.
  induction conflicts as [|[[n d] ts] conflicts IH]; intros cal Hvalid.
  { exists cal. do 5 (split; [done|]). intros name day t. split; [|done].
    intros (? & H & _). by apply elem_of_nil in H. }
  destruct (proj1 (has_day_ledger cal n d) (Hvalid n d ts (list_elem_of_here _ _)))
    as (a & row & Ha & Hrow).
  destruct (set_slots_ledger false n d ts cal a row Ha Hrow)
    as (cal1 & Hrun & Hn & Hc & Hd & Hi & _ & Hl).
  pose proof (has_day_set_slots false n d ts cal) as Hhd. cbv zeta in Hhd.
  rewrite Hrun in Hhd. destruct Hhd as (_ & _ & _ & _ & _ & Hhd). cbn [fst] in Hhd.
  destruct (IH cal1) as (cal' & Hrun' & Hn' & Hc' & Hd' & Hi' & Hl').
  { intros name day times Hin. apply Hhd. eapply Hvalid. by right. }
  exists cal'. split.
  { cbn [for_each]. unfold bind. rewrite add_conflict_run, Hrun. exact Hrun'. }
  do 4 (split; [congruence|]).
  intros name day t. destruct (Hl' name day t) as [Hyes Hno]. split.
  - intros (times & Hin & Ht).
    destruct (listed_dec conflicts name day t) as [Hlisted|Hnot].
    + by apply Hyes.
    + rewrite (Hno Hnot), Hl.
      apply elem_of_cons in Hin as [[= -> -> ->]|Hin]; [by rewrite decide_True|].
      exfalso. apply Hnot. by exists times.
  - intros Hnot. rewrite Hno, Hl.
    + rewrite decide_False; [done|]. intros (-> & -> & Ht). apply Hnot.
      exists ts. split; [by left|done].
    + intros (times & Hin & Ht). apply Hnot. exists times. split; [by right|done].
Qed.

Lemma add_conflicts_fields conflicts :
  ∀ cal,
    let after := (for_each conflicts Calendar.add_conflict cal).1 in
    Calendar.names after = Calendar.names cal ∧
    Calendar.day_time_chart after = Calendar.day_time_chart cal ∧
    Calendar.days after = Calendar.days cal ∧
    Calendar.interval after = Calendar.interval cal.
Proof.
  induction conflicts as [|[[n d] ts] conflicts IH]; intros cal; [done|].
  cbv zeta. cbn [for_each]. unfold bind. rewrite add_conflict_run.
  pose proof (has_day_set_slots false n d ts cal) as Hhd. cbv zeta in Hhd.
  destruct (for_each ts _ cal) as [cal1 [[]|e]]; cbn [fst snd] in *.
  - destruct Hhd as (_ & Hn & Hc & Hd & Hi & _).
    destruct (IH cal1) as (Hn' & Hc' & Hd' & Hi'). repeat split; congruence.
  - by destruct Hhd as (_ & Hn & Hc & Hd & Hi & _).
Qed.

Lemma add_conflicts_raise conflicts :
  ∀ cal,
    (∃ name day times, (name, day, times) ∈ conflicts ∧ times ≠ [] ∧
                       ¬ has_day cal name day) →
    (for_each conflicts Calendar.add_conflict cal).2 = Raise KeyError.
Proof.
  induction conflicts as [|[[n d] ts] conflicts IH]; intros cal (name & day & times & Hin & Hne & Hno).
  { by apply elem_of_nil in Hin. }
  cbn [for_each]. unfold bind. rewrite add_conflict_run.
  pose proof (has_day_set_slots false n d ts cal) as Hhd. cbv zeta in Hhd.
  destruct Hhd as ([Hret|(Hraise & _)] & _ & _ & _ & _ & Hiff).
  - destruct (for_each ts _ cal) as [cal1 [[]|e]] eqn:Hrun; [|done].
    cbn [fst] in Hiff. apply IH. exists name, day, times.
    apply elem_of_cons in Hin as [[= -> -> ->]|Hin].
    + exfalso.
      assert (for_each ts (fun t => Calendar.on_actor n (Actor.set_slot d t false)) cal
              = (cal, Raise KeyError)) as Hr; [|congruence].
      apply set_slots_raise; [done|].
      destruct (Calendar.actor_objects cal !! n) as [a|] eqn:Ha; [|by left].
      right. exists a. split; [done|].
      destruct (Actor.conflict_chart a !! d) as [row|] eqn:Hrow; [|done].
      exfalso. apply Hno. exists a. split; [done|]. by rewrite Hrow.
    + split; [done|]. split; [done|]. by rewrite Hiff.
  - by rewrite Hraise.
Qed.

Lemma has_day_created names chart days iv name day :
  has_day (Calendar.create_actor_objects
             {| Calendar.names := names; Calendar.day_time_chart := chart;
                Calendar.days := days; Calendar.interval := iv;
                Calendar.actor_objects := ∅ |}).1 name day ↔
  name ∈ names ∧ is_Some (chart !! day).
Proof.
  rewrite create_actor_objects_run. unfold has_day. cbn [fst].
  rewrite actor_objects_set, created_objects_full. cbn [Calendar.names Calendar.day_time_chart].
  destruct (decide (name ∈ names)) as [Hin|Hin].
  - split.
    + intros (a & [= <-] & Hs). split; [done|].
      cbn in Hs. unfold Actor.create_conflict_chart in Hs.
      rewrite lookup_fmap in Hs. by apply fmap_is_Some in Hs.
    + intros [_ Hs]. eexists. split; [done|].
      cbn. unfold Actor.create_conflict_chart. rewrite lookup_fmap.
      by apply fmap_is_Some.
  - rewrite lookup_empty. split; [by intros (? & [=] & _)|]. by intros [? _].
Qed.

Lemma init_run names chart days iv conflicts :
  Calendar.init names chart days iv conflicts =
    for_each conflicts Calendar.add_conflict
      (Calendar.create_actor_objects
         {| Calendar.names := names; Calendar.day_time_chart := chart;
            Calendar.days := days; Calendar.interval := iv;
            Calendar.actor_objects := ∅ |}).1.
Proof. reflexivity. Qed.

(** X9.  The constructor with initial conflicts.  When every conflict
    names a participant of [names] and a day of the grid, construction
    succeeds; the new calendar keeps the names, grid, days and interval it
    was given, and in it a participant's slot is unavailable exactly when
    some conflict lists it for that participant and day; every other slot
    of the grid is available, and a ledger holds nothing else. *)
Theorem calendar_init_ledgers (names : list string) (chart : gmap string (list Qc))
    (days : list string) (iv : Qc) (conflicts : list Calendar.conflict) :
  (∀ name day times, (name, day, times) ∈ conflicts →
                     name ∈ names ∧ is_Some (chart !! day)) →
  ∃ cal,
    Calendar.init names chart days iv conflicts = (cal, Ret tt) ∧
    Calendar.names cal = names ∧
    Calendar.day_time_chart cal = chart ∧
    Calendar.days cal = days ∧
    Calendar.interval cal = iv ∧
    ∀ name day t,
      (listed conflicts name day t → ledger_of cal name day t = Some false) ∧
      (¬ listed conflicts name day t →
       ledger_of cal name day t =
         if decide (name ∈ names) then fresh_ledger chart day t else None).
Proof.
  intros Hvalid. rewrite init_run.
  destruct (add_conflicts_ledger conflicts
              (Calendar.create_actor_objects
                 {| Calendar.names := names; Calendar.day_time_chart := chart;
                    Calendar.days := days; Calendar.interval := iv;
                    Calendar.actor_objects := ∅ |}).1)
    as (cal & Hrun & Hn & Hc & Hd & Hi & Hl).
  { intros name day times Hin. apply has_day_created. by eapply Hvalid. }
  exists cal. split; [done|]. do 4 (split; [done|]).
  intros name day t. destruct (Hl name day t) as [Hyes Hno]. split; [done|].
  intros Hnot. rewrite (Hno Hnot). apply created_ledger.
Qed.

(** The conflicts of the example of the source, cut down to two actors
    and two days. *)
Lemma calendar_init_ledgers_witness :
  let names := ["Tal"; "Peter"] in
  let chart : gmap string (list Qc) :=
    {[ "Day 1" := [Qc_of_Z 7; Q2Qc (15 # 2)]; "Day 2" := [Qc_of_Z 7; Q2Qc (15 # 2)] ]} in
  let conflicts : list Calendar.conflict :=
    [("Tal", "Day 1", [Qc_of_Z 7; Q2Qc (15 # 2)]); ("Peter", "Day 2", [Q2Qc (15 # 2)])] in
  ∃ cal,
    Calendar.init names chart ["Day 1"; "Day 2"] (Q2Qc (1 # 2)) conflicts = (cal, Ret tt) ∧
    Calendar.names cal = names ∧
    Calendar.day_time_chart cal = chart ∧
    Calendar.days cal = ["Day 1"; "Day 2"] ∧
    Calendar.interval cal = Q2Qc (1 # 2) ∧
    ∀ name day t,
      (listed conflicts name day t → ledger_of cal name day t = Some false) ∧
      (¬ listed conflicts name day t →
       ledger_of cal name day t =
         if decide (name ∈ names) then fresh_ledger chart day t else None).
Proof.
  intros names chart conflicts. apply calendar_init_ledgers.
  intros name day times Hin.
  apply elem_of_cons in Hin as [[= -> -> ->]|Hin];
    [|apply list_elem_of_singleton in Hin as [= -> -> ->]].
  - split; [by left|]. eexists. by vm_compute.
  - split; [right; by left|]. eexists. by vm_compute.
Defined.

(** X10.  The constructor raises [KeyError] as soon as the list of
    conflicts holds one with at least one slot whose participant is not in
    [names] or whose day is not in the grid. *)
Theorem calendar_init_rejects (names : list string) (chart : gmap string (list Qc))
    (days : list string) (iv : Qc) (conflicts : list Calendar.conflict)
    (name day : string) (times : list Qc) :
  (name, day, times) ∈ conflicts →
  times ≠ [] →
  name ∉ names ∨ chart !! day = None →
  (Calendar.init names chart days iv conflicts).2 = Raise KeyError.
Proof.
  intros Hin Hne Hbad. rewrite init_run. apply add_conflicts_raise.
  exists name, day, times. do 2 (split; [done|]).
  rewrite has_day_created. intros [Hn [blocks Hb]].
  destruct Hbad as [Hbad|Hbad]; [done|congruence].
Qed.

(** A conflict for an actor who is not in the cast. *)
Lemma calendar_init_rejects_witness :
  (Calendar.init ["Tal"] {[ "Day 1" := [Qc_of_Z 7] ]} ["Day 1"] (Q2Qc (1 # 2))
     [("Tal", "Day 1", [Qc_of_Z 7]); ("Kacie", "Day 1", [Qc_of_Z 7])]).2
  = Raise KeyError.
Proof.
  apply (calendar_init_rejects _ _ _ _ _ "Kacie" "Day 1" [Qc_of_Z 7]).
  - right. by left.
  - done.
  - left. intros Hin. apply list_elem_of_singleton in Hin. discriminate Hin.
Defined.

(** X11.  [clear_conflicts] forgets every conflict: applied to a calendar
    that was constructed with any list of conflicts, also one on which the
    constructor raised, it gives the calendar constructed with none. *)
Theorem clear_conflicts_after_init (names : list string) (chart : gmap string (list Qc))
    (days : list string) (iv : Qc) (conflicts : list Calendar.conflict) :
  Calendar.clear_conflicts (Calendar.init names chart days iv conflicts).1
  = ((Calendar.init names chart days iv []).1, Ret tt).
Proof.
  unfold Calendar.clear_conflicts. rewrite create_actor_objects_run, init_run.
  destruct (add_conflicts_fields conflicts
              (Calendar.create_actor_objects
                 {| Calendar.names := names; Calendar.day_time_chart := chart;
                    Calendar.days := days; Calendar.interval := iv;
                    Calendar.actor_objects := ∅ |}).1) as (Hn & Hc & Hd & Hi).
  cbv zeta in Hn, Hc, Hd, Hi. rewrite Hn, Hc.
  unfold Calendar.set_actor_objects. rewrite Hn, Hc, Hd, Hi. reflexivity.
Qed.

(** ** Scenes that share a list object *)

Lemma append_run l x (st : gmap positive (list string)) xs :
  st !! l = Some xs → Scene.append l x st = (<[l := xs ++ [x]]> st, Ret tt).
Proof.
  intros Hl. unfold Scene.append. rewrite bind_gets_run. unfold bind, id.
  by rewrite getitem_run, Hl.
Qed.

Lemma init_run_store name len sp ns (st : gmap positive (list string)) l1 l2 :
  st !! sp = Some l1 → st !! ns = Some l2 →
  Scene.init name len sp ns st =
    (<[sp := l1 ++ l2]> st,
     Ret {| Scene.o_name := name; Scene.o_speaking_actors := sp;
            Scene.o_all_actors := sp; Scene.o_length := len |}).
Proof.
  intros Hsp Hns. unfold Scene.init, bind. by rewrite (extend_run _ _ _ l1 l2).
Qed.

(** X12.  [add_actor] on a scene whose two attributes are the same list
    object, as [Scene.__init__] leaves them: with [speaking] true the name
    is appended twice, and with [speaking] false the name is appended once
    and is then also among the speaking actors. *)
Theorem add_actor_aliased (st : gmap positive (list string)) (self : Scene.obj)
    (who : string) (speaking : bool) (l : list string) :
  Scene.o_all_actors self = Scene.o_speaking_actors self →
  st !! Scene.o_all_actors self = Some l →
  let l' := l ++ (if speaking then [who; who] else [who]) in
  ∃ st',
    Scene.add_actor self who speaking st = (st', Ret tt) ∧
    st' = <[Scene.o_all_actors self := l']> st ∧
    Scene.view st' self =
      Some {| Scene.name := Scene.o_name self; Scene.speaking_actors := l';
              Scene.all_actors := l'; Scene.length := Scene.o_length self |}.
Proof.
  intros Halias Hl l'. exists (<[Scene.o_all_actors self := l']> st).
  split; [|split; [done|]].
  - unfold Scene.add_actor, bind. rewrite (append_run _ _ _ l) by done.
    destruct speaking.
    + rewrite <-Halias, (append_run _ _ _ (l ++ [who])) by (by rewrite lookup_insert_eq).
      rewrite insert_insert_eq. unfold l'. by rewrite <-app_assoc.
    + done.
  - unfold Scene.view. rewrite <-Halias, lookup_insert_eq. done.
Qed.

(** The same on a scene just built from ["Kacie"] and no nonspeaking
    actors. *)
Lemma add_actor_aliased_witness :
  let st : gmap positive (list string) := {[ 1%positive := ["Kacie"]; 2%positive := [] ]} in
  let built := Scene.init "Scene 9" 4 1%positive 2%positive st in
  let self := {| Scene.o_name := "Scene 9"; Scene.o_speaking_actors := 1%positive;
                 Scene.o_all_actors := 1%positive; Scene.o_length := 4 |} in
  built.2 = Ret self ∧
  ∃ st',
    Scene.add_actor self "Tal" true built.1 = (st', Ret tt) ∧
    st' = <[Scene.o_all_actors self := ["Kacie"] ++ ["Tal"; "Tal"]]> built.1 ∧
    Scene.view st' self =
      Some {| Scene.name := Scene.o_name self;
              Scene.speaking_actors := ["Kacie"] ++ ["Tal"; "Tal"];
              Scene.all_actors := ["Kacie"] ++ ["Tal"; "Tal"];
              Scene.length := Scene.o_length self |}.
Proof.
  intros st built self. split; [by vm_compute|].
  apply (add_actor_aliased built.1 self "Tal" true ["Kacie"]); by vm_compute.
Defined.

(** X13.  Two scenes built from the same list object of speaking actors
    share it: after the second construction both scenes have, as speaking
    and as all actors, the original names followed by the nonspeaking
    actors of the first scene and those of the second. *)
Theorem scene_init_shared (st : gmap positive (list string)) (name1 name2 : string)
    (len1 len2 : Z) (speaking ns1 ns2 : positive) (l l1 l2 : list string) :
  st !! speaking = Some l → st !! ns1 = Some l1 → st !! ns2 = Some l2 →
  ns1 ≠ speaking → ns2 ≠ speaking →
  ∃ st2 s1 s2,
    (let* s1 := Scene.init name1 len1 speaking ns1 in
     let* s2 := Scene.init name2 len2 speaking ns2 in
     ret (s1, s2)) st = (st2, Ret (s1, s2)) ∧
    Scene.view st2 s1 =
      Some {| Scene.name := name1; Scene.speaking_actors := l ++ l1 ++ l2;
              Scene.all_actors := l ++ l1 ++ l2; Scene.length := len1 |} ∧
    Scene.view st2 s2 =
      Some {| Scene.name := name2; Scene.speaking_actors := l ++ l1 ++ l2;
              Scene.all_actors := l ++ l1 ++ l2; Scene.length := len2 |}.
Proof.
  intros Hsp Hn1 Hn2 Hne1 Hne2. do 3 eexists. split.
  - unfold bind at 1. rewrite (init_run_store _ _ _ _ _ l l1) by done.
    unfold bind at 1. rewrite (init_run_store _ _ _ _ _ (l ++ l1) l2);
      [done|by rewrite lookup_insert_eq|by rewrite lookup_insert_ne].
  - unfold Scene.view. cbn. rewrite lookup_insert_eq. by rewrite <-app_assoc.
Qed.

(** The same with one cast list used for two scenes. *)
Lemma scene_init_shared_witness :
  let st : gmap positive (list string) :=
    {[ 1%positive := ["Kacie"]; 2%positive := ["Tal"]; 3%positive := ["Peter"] ]} in
  ∃ st2 s1 s2,
    (let* s1 := Scene.init "Scene 1" 4 1%positive 2%positive in
     let* s2 := Scene.init "Scene 2" 2 1%positive 3%positive in
     ret (s1, s2)) st = (st2, Ret (s1, s2)) ∧
    Scene.view st2 s1 =
      Some {| Scene.name := "Scene 1";
              Scene.speaking_actors := ["Kacie"] ++ ["Tal"] ++ ["Peter"];
              Scene.all_actors := ["Kacie"] ++ ["Tal"] ++ ["Peter"]; Scene.length := 4 |} ∧
    Scene.view st2 s2 =
      Some {| Scene.name := "Scene 2";
              Scene.speaking_actors := ["Kacie"] ++ ["Tal"] ++ ["Peter"];
              Scene.all_actors := ["Kacie"] ++ ["Tal"] ++ ["Peter"]; Scene.length := 2 |}.
Proof.
  intros st. apply scene_init_shared; by vm_compute.
Defined.

(** ** The two queries *)

Lemma filter_pairs {A B} (f : A * B → bool) (a : A) (l : list B) :
  List.filter f ((fun b => (a, b)) <$> l) = (fun b => (a, b)) <$> List.filter (fun b => f (a, b)) l.
Proof.
  induction l as [|b l IH]; [done|]. cbn. destruct (f (a, b)); cbn; by rewrite IH.
Qed.

Lemma times_for_scene_on_run str_time scene sc day times working sch :
  Scheduler.scenes sch !! scene = Some sc →
  Calendar.interval (Scheduler.calendar sch) ≠ 0%Qc →
  Scheduler.times_for_scene_on str_time scene day times working sch =
    (sch, Ret (working ++ (at_text str_time <$>
                 List.filter (feasible_start sch scene) ((fun t => (day, t)) <$> times)))).
Proof.
  intros Hsc Hiv. revert working. induction times as [|t times IH]; intros working.
  { cbn. by rewrite app_nil_r. }
  cbn [Scheduler.times_for_scene_on]. unfold bind at 1.
  destruct (scene_works_total scene day t Scheduler.default_time_end sch sc Hsc Hiv)
    as [b Hb].
  rewrite Hb, fmap_cons. cbn [List.filter]. unfold feasible_start at 1. cbn [fst snd].
  rewrite Hb. cbn [snd is_true_outcome]. destruct b.
  - rewrite IH, fmap_cons, <-app_assoc. done.
  - by rewrite IH.
Qed.

Lemma times_for_scene_days_run str_time scene sc sch :
  Scheduler.scenes sch !! scene = Some sc →
  Calendar.interval (Scheduler.calendar sch) ≠ 0%Qc →
  ∀ day_keys tb working,
    timeline (Calendar.day_time_chart (Scheduler.calendar sch)) day_keys = Some tb →
    Scheduler.times_for_scene_days str_time scene day_keys working sch =
      (sch, Ret (working ++ (at_text str_time <$> List.filter (feasible_start sch scene) tb))).
Proof.
  intros Hsc Hiv. induction day_keys as [|day day_keys IH]; intros tb working.
  { intros [= <-]. cbn. by rewrite app_nil_r. }
  cbn [timeline Scheduler.times_for_scene_days]. rewrite bind_gets_run.
  unfold bind at 1. rewrite getitem_run.
  destruct (Calendar.day_time_chart (Scheduler.calendar sch) !! day) as [blocks|]; [|done].
  destruct (timeline _ day_keys) as [rest|]; [|done]. intros [= <-].
  unfold bind at 1. rewrite (times_for_scene_on_run _ _ sc) by done.
  rewrite (IH rest) by done. rewrite List.filter_app, fmap_app, <-app_assoc. done.
Qed.

(** X14.  [return_times_for_scene] for a registered scene and a non-zero
    interval: it changes nothing, does not raise, and answers with one
    text [day + " at " + str(time)] for each slot of the grid, day by day
    in the order of the dictionary and slot by slot, at which the
    feasibility check (with the default window) passes, and for no
    other. *)
Theorem return_times_for_scene_lists (str_time : Qc → string) (sch : Scheduler.t)
    (day_keys : list string) (scene : string) (sc : Scene.t) (tb : list (string * Qc)) :
  Scheduler.scenes sch !! scene = Some sc →
  Calendar.interval (Scheduler.calendar sch) ≠ 0%Qc →
  timeline (Calendar.day_time_chart (Scheduler.calendar sch)) day_keys = Some tb →
  Scheduler.return_times_for_scene str_time day_keys scene sch =
    (sch, Ret (at_text str_time <$> List.filter (feasible_start sch scene) tb)).
Proof.
  intros Hsc Hiv Htl. unfold Scheduler.return_times_for_scene.
  by rewrite (times_for_scene_days_run _ _ sc _ Hsc Hiv _ tb).
Qed.

(** The same on the scenario of the specification, with every number
    printed as a question mark. *)
Lemma return_times_for_scene_lists_witness :
  let chart : gmap string (list Qc) :=
    {[ "D1" := [1%Qc; Q2Qc (3 # 2); 2%Qc; Q2Qc (5 # 2)] ]} in
  let task := {| Scene.name := "T"; Scene.speaking_actors := ["A"];
                 Scene.all_actors := ["A"]; Scene.length := 2 |} in
  let sch := {| Scheduler.calendar :=
                  (Calendar.init ["A"] chart ["D1"] (Q2Qc (1 # 2)) []).1;
                Scheduler.scenes := {[ "T" := task ]} |} in
  let tb := [("D1", 1%Qc); ("D1", Q2Qc (3 # 2)); ("D1", 2%Qc); ("D1", Q2Qc (5 # 2))] in
  Scheduler.return_times_for_scene (fun _ => "?") ["D1"] "T" sch =
    (sch, Ret (at_text (fun _ => "?") <$> List.filter (feasible_start sch "T") tb)).
Proof.
  intros chart task sch tb.
  apply (return_times_for_scene_lists _ sch ["D1"] "T" task tb); by vm_compute.
Defined.

Lemma times_for_scene_on_unregistered str_time scene day times working sch :
  Scheduler.scenes sch !! scene = None →
  Scheduler.times_for_scene_on str_time scene day times working sch =
    match times with
    | [] => (sch, Ret working)
    | _ :: _ => (sch, Raise KeyError)
    end.
Proof.
  intros Hsc. destruct times as [|t times]; [done|].
  cbn [Scheduler.times_for_scene_on]. unfold bind.
  by rewrite scene_works_run, Hsc.
Qed.

(** X15.  [return_times_for_scene] for a scene that is not registered
    raises [KeyError] at the first slot it comes to; when the grid has no
    slot at all it answers with the empty list instead. *)
Theorem return_times_for_scene_unregistered (str_time : Qc → string) (sch : Scheduler.t)
    (day_keys : list string) (scene : string) (tb : list (string * Qc)) :
  Scheduler.scenes sch !! scene = None →
  timeline (Calendar.day_time_chart (Scheduler.calendar sch)) day_keys = Some tb →
  Scheduler.return_times_for_scene str_time day_keys scene sch =
    match tb with
    | [] => (sch, Ret [])
    | _ :: _ => (sch, Raise KeyError)
    end.
Proof.
  intros Hsc. unfold Scheduler.return_times_for_scene. generalize (@nil string).
  revert tb. induction day_keys as [|day day_keys IH]; intros tb working.
  { by intros [= <-]. }
  cbn [timeline Scheduler.times_for_scene_days]. rewrite bind_gets_run.
  unfold bind at 1. rewrite getitem_run.
  destruct (Calendar.day_time_chart (Scheduler.calendar sch) !! day) as [blocks|]; [|done].
  destruct (timeline _ day_keys) as [rest|] eqn:Hrest; [|done]. intros [= <-].
  unfold bind at 1. rewrite times_for_scene_on_unregistered by done.
  destruct blocks as [|b blocks]; [|done]. cbn [fmap list_fmap app].
  rewrite (IH rest) by done. by destruct rest.
Qed.

(** The same on a grid of one slot and on a grid without slots. *)
Lemma return_times_for_scene_unregistered_witness :
  let sch := {| Scheduler.calendar :=
                  (Calendar.init ["A"] {[ "D1" := [1%Qc] ]} ["D1"] (Q2Qc (1 # 2)) []).1;
                Scheduler.scenes := ∅ |} in
  Scheduler.return_times_for_scene (fun _ => "?") ["D1"] "T" sch = (sch, Raise KeyError).
Proof.
  intros sch.
  apply (return_times_for_scene_unregistered _ sch ["D1"] "T" [("D1", 1%Qc)]);
    by vm_compute.
Defined.

Lemma timeline_elem chart day_keys tb day blocks t :
  timeline chart day_keys = Some tb → day ∈ day_keys →
  chart !! day = Some blocks → t ∈ blocks → (day, t) ∈ tb.
Proof.
  revert tb. induction day_keys as [|d day_keys IH]; intros tb; cbn [timeline].
  { intros _ H. by apply elem_of_nil in H. }
  destruct (chart !! d) as [bl|] eqn:Hd; [|done].
  destruct (timeline chart day_keys) as [rest|]; [|done].
  intros [= <-] Hday Hblocks Ht. apply elem_of_app.
  destruct (decide (day = d)) as [->|Hne].
  - left. assert (bl = blocks) as -> by congruence. by apply list_elem_of_fmap_2.
  - right. apply elem_of_cons in Hday as [?|Hday]; [done|]. by apply IH.
Qed.

(** X16.  The two agree: when [schedule] returns an arrangement, the
    place it gives to a scene, a day among the keys of the grid and a slot,
    is among the answers of [return_times_for_scene] for that scene. *)
Theorem schedule_within_return_times (str_time : Qc → string) (sch : Scheduler.t)
    (days scene_list day_keys : list string) (arr : gmap string Scheduler.entry)
    (grid : list (string * Qc)) (s day : string) (t : Qc) :
  (Scheduler.schedule days scene_list sch).2 = Ret (Some arr) →
  arr !! s = Some (Scheduler.Slot day t) →
  timeline (Calendar.day_time_chart (Scheduler.calendar sch)) day_keys = Some grid →
  day ∈ day_keys →
  ∃ answers,
    Scheduler.return_times_for_scene str_time day_keys s sch = (sch, Ret answers) ∧
    (day +:+ " at " +:+ str_time t) ∈ answers.
Proof.
  intros Hret Hs Hgrid Hday.
  destruct (schedule_some _ _ _ _ Hret)
    as (tb & ps & Htl & (Hfst & Hgood & Hdis & Hin) & Hout).
  assert (s ∈ scene_list) as Hmem.
  { destruct (decide (s ∈ scene_list)) as [|Hn]; [done|]. by rewrite (Hout s Hn) in Hs. }
  destruct (Hin s Hmem) as (i & d & t' & Hp & Htb & Harr).
  rewrite Hs in Harr. injection Harr as <- <-.
  rewrite list.Forall_forall in Hgood.
  destruct (Hgood _ Hp) as (sc & d' & t' & Hsc & Htb' & Hw & _). cbn [fst snd] in *.
  rewrite Htb in Htb'. injection Htb' as <- <-.
  destruct (proj1 (scene_works_true _ _ _ _ _) Hw) as (sc' & Hsc' & _ & Hiv & _).
  exists (at_text str_time <$> List.filter (feasible_start sch s) grid).
  split.
  { unfold Scheduler.return_times_for_scene.
    by rewrite (times_for_scene_days_run _ _ sc _ Hsc Hiv _ grid). }
  destruct (timeline_blocks _ _ _ _ _ _ Htl Htb) as (blocks & Hblocks & Ht).
  change (day +:+ " at " +:+ str_time t) with (at_text str_time (day, t)).
  apply list_elem_of_fmap_2. apply list_elem_of_In, List.filter_In. split.
  - apply list_elem_of_In. by eapply timeline_elem.
  - unfold feasible_start. cbn [fst snd]. by rewrite Hw.
Qed.

(** The same on the scenario of the specification. *)
Lemma schedule_within_return_times_witness :
  let chart : gmap string (list Qc) :=
    {[ "D1" := [1%Qc; Q2Qc (3 # 2); 2%Qc; Q2Qc (5 # 2)] ]} in
  let task := {| Scene.name := "T"; Scene.speaking_actors := ["A"];
                 Scene.all_actors := ["A"]; Scene.length := 2 |} in
  let sch := {| Scheduler.calendar :=
                  (Calendar.init ["A"] chart ["D1"] (Q2Qc (1 # 2)) []).1;
                Scheduler.scenes := {[ "T" := task ]} |} in
  ∃ answers,
    Scheduler.return_times_for_scene (fun _ => "?") ["D1"] "T" sch = (sch, Ret answers) ∧
    ("D1" +:+ " at " +:+ "?") ∈ answers.
Proof.
  intros chart task sch.
  apply (schedule_within_return_times (fun _ => "?") sch ["D1"] ["T"] ["D1"]
           {[ "T" := Scheduler.Slot "D1" 1%Qc ]}
           [("D1", 1%Qc); ("D1", Q2Qc (3 # 2)); ("D1", 2%Qc); ("D1", Q2Qc (5 # 2))]
           "T" "D1" 1%Qc).
  - by vm_compute.
  - by vm_compute.
  - by vm_compute.
  - by left.
Defined.

Lemma scenes_that_fit_on_run str_time scene sc day te times working sch :
  Scheduler.scenes sch !! scene = Some sc →
  Calendar.interval (Scheduler.calendar sch) ≠ 0%Qc →
  Scheduler.scenes_that_fit_on str_time scene day te times working sch =
    (sch, Ret (working ++ (at_text str_time <$>
                 List.filter (fits_window sch day te) ((fun t => (scene, t)) <$> times)))).
Proof.
  intros Hsc Hiv. revert working. induction times as [|t times IH]; intros working.
  { cbn. by rewrite app_nil_r. }
  cbn [Scheduler.scenes_that_fit_on]. unfold bind at 1.
  destruct (scene_works_total scene day t te sch sc Hsc Hiv) as [b Hb].
  rewrite Hb, fmap_cons. cbn [List.filter]. unfold fits_window at 1. cbn [fst snd].
  rewrite Hb. cbn [snd is_true_outcome]. destruct b.
  - rewrite IH, fmap_cons, <-app_assoc. done.
  - by rewrite IH.
Qed.

Lemma list_prod_cons {A B} (a : A) (l : list A) (k : list B) :
  list_prod (a :: l) k = ((fun b => (a, b)) <$> k) ++ list_prod l k.
Proof. reflexivity. Qed.

Lemma scenes_that_fit_scenes_run str_time day te times sch :
  Calendar.interval (Scheduler.calendar sch) ≠ 0%Qc →
  ∀ scene_keys working,
    (∀ s, s ∈ scene_keys → is_Some (Scheduler.scenes sch !! s)) →
    Scheduler.scenes_that_fit_scenes str_time day te times scene_keys working sch =
      (sch, Ret (working ++ (at_text str_time <$>
                   List.filter (fits_window sch day te) (list_prod scene_keys times)))).
Proof.
  intros Hiv. induction scene_keys as [|scene scene_keys IH]; intros working Hreg.
  { cbn. by rewrite app_nil_r. }
  cbn [Scheduler.scenes_that_fit_scenes]. unfold bind at 1.
  destruct (Hreg scene) as [sc Hsc]; [by left|].
  rewrite (scenes_that_fit_on_run _ _ sc) by done.
  rewrite IH by (intros ??; apply Hreg; by right).
  by rewrite list_prod_cons, List.filter_app, fmap_app, <-app_assoc.
Qed.

(** X17.  [return_scenes_that_fit(day, time_start, time_end)] with a
    non-zero interval and over registered scenes changes nothing, does not
    raise, and answers with one text [scene + " at " + str(time)] for each
    scene, in the order of the dictionary, and each of the times that
    [generate_times(time_start, time_end)] returns at which the scene
    passes the check with the bound [time_end], and with no other text;
    the end that the check computes for a listed scene is by
    [time_end]. *)
Theorem return_scenes_that_fit_lists (str_time : Qc → string) (sch : Scheduler.t)
    (scene_keys : list string) (day : string) (ts te : Qc) :
  let iv := Calendar.interval (Scheduler.calendar sch) in
  iv ≠ 0%Qc →
  (∀ s, s ∈ scene_keys → is_Some (Scheduler.scenes sch !! s)) →
  ∃ times,
    Scheduler.generate_times ts te sch = (sch, Ret times) ∧
    let found := List.filter (fits_window sch day te) (list_prod scene_keys times) in
    Scheduler.return_scenes_that_fit str_time scene_keys day ts te sch =
      (sch, Ret (at_text str_time <$> found)) ∧
    ∀ s t, (s, t) ∈ found →
      ∃ sc k, Scheduler.scenes sch !! s = Some sc ∧
              times !! k = Some t ∧ t = slot_at iv ts k ∧
              (scene_end iv t (Scene.length sc) ≤ te)%Qc.
Proof.
  intros iv Hne Hreg. exists (window_times iv ts te).
  assert (Scheduler.generate_times ts te sch = (sch, Ret (window_times iv ts te))) as Hgen.
  { rewrite generate_times_general. fold iv. by rewrite decide_False. }
  split; [exact Hgen|]. cbn zeta. split.
  - unfold Scheduler.return_scenes_that_fit, bind. rewrite Hgen.
    by rewrite scenes_that_fit_scenes_run.
  - intros s t Hin. apply list_elem_of_In, List.filter_In in Hin as [Hprod Hfit].
    apply in_prod_iff in Hprod as [_ Ht]. apply list_elem_of_In in Ht.
    unfold fits_window in Hfit. cbn [fst snd] in Hfit.
    destruct (Scheduler.scene_works s day t te sch).2 as [[]|] eqn:Hw; try done.
    destruct (proj1 (scene_works_true _ _ _ _ _) Hw) as (sc & Hsc & Hle & _).
    apply list_elem_of_lookup in Ht as [k Hk].
    exists sc, k. split; [done|]. split; [done|]. split; [|done].
    unfold window_times, py_range in Hk. rewrite list_lookup_fmap in Hk.
    destruct (seq _ _ !! k) as [i|] eqn:Hi; [|done].
    apply lookup_seq in Hi as [-> _]. by injection Hk as <-.
Qed.

(** The same on the scenario of the specification, for the window from 1
    to 2.5. *)
Lemma return_scenes_that_fit_lists_witness :
  let chart : gmap string (list Qc) :=
    {[ "D1" := [1%Qc; Q2Qc (3 # 2); 2%Qc; Q2Qc (5 # 2)] ]} in
  let task := {| Scene.name := "T"; Scene.speaking_actors := ["A"];
                 Scene.all_actors := ["A"]; Scene.length := 2 |} in
  let sch := {| Scheduler.calendar :=
                  (Calendar.init ["A"] chart ["D1"] (Q2Qc (1 # 2)) []).1;
                Scheduler.scenes := {[ "T" := task ]} |} in
  let iv := Calendar.interval (Scheduler.calendar sch) in
  let ts := 1%Qc in
  let te := Q2Qc (5 # 2) in
  ∃ times,
    Scheduler.generate_times ts te sch = (sch, Ret times) ∧
    let found := List.filter (fits_window sch "D1" te) (list_prod ["T"] times) in
    Scheduler.return_scenes_that_fit (fun _ => "?") ["T"] "D1" ts te sch =
      (sch, Ret (at_text (fun _ => "?") <$> found)) ∧
    ∀ s t, (s, t) ∈ found →
      ∃ sc k, Scheduler.scenes sch !! s = Some sc ∧
              times !! k = Some t ∧ t = slot_at iv ts k ∧
              (scene_end iv t (Scene.length sc) ≤ te)%Qc.
Proof.
  intros chart task sch iv ts te.
  apply (return_scenes_that_fit_lists (fun _ => "?") sch ["T"] "D1" ts te).
  - by vm_compute.
  - intros s Hs. apply list_elem_of_singleton in Hs as ->. eexists. by vm_compute.
Defined.

(** ** The first scene gets the earliest position that works *)

Lemma try_positions_earliest sch tb scene sc recurse rest :
  Scheduler.scenes sch !! scene = Some sc →
  keeps rest recurse → restores recurse →
  (∀ st st', binary (Scheduler.schedule_ st) → Scheduler.self_ st = sch →
     length (Scheduler.schedule_ st) = length tb →
     recurse st = (st', Ret false) →
     ¬ completable sch tb (Scheduler.schedule_ st) rest) →
  ∀ positions st st',
    binary (Scheduler.schedule_ st) → Scheduler.self_ st = sch →
    length (Scheduler.schedule_ st) = length tb →
    Scheduler.try_positions recurse tb scene (Scene.length sc) positions st
      = (st', Ret true) →
    ∃ pre i post day ts,
      positions = pre ++ i :: post ∧
      tb !! i = Some (day, ts) ∧
      (scene ∉ rest → Scheduler.arrangement_ st' !! scene = Some (Scheduler.Slot day ts)) ∧
      ∀ j ps,
        j ∈ pre → ps.*1 = rest →
        Forall (good_placement sch tb (Scheduler.schedule_ st)) ((scene, j) :: ps) →
        all_disjoint (span_of sch <$> ((scene, j) :: ps)) → False.
Proof.
  intros Hsc Hk Hres Hrec. induction positions as [|i0 positions IH];
    intros st st' Hb Hself Hlen Hrun; [done|].
  pose proof (try_positions_cons recurse tb scene (Scene.length sc) i0 [] st
                (keeps_length _ _ Hk)) as Hone.
  rewrite try_positions_cons in Hrun by (by eapply keeps_length).
  assert (∀ st2 st'',
            Scheduler.schedule_ st2 = Scheduler.schedule_ st →
            Scheduler.self_ st2 = sch →
            Scheduler.try_positions recurse tb scene (Scene.length sc) [i0] st
              = (st2, Ret false) →
            Scheduler.try_positions recurse tb scene (Scene.length sc) positions st2
              = (st'', Ret true) →
            ∃ pre i post day ts,
              i0 :: positions = pre ++ i :: post ∧
              tb !! i = Some (day, ts) ∧
              (scene ∉ rest →
               Scheduler.arrangement_ st'' !! scene = Some (Scheduler.Slot day ts)) ∧
              ∀ j ps,
                j ∈ pre → ps.*1 = rest →
                Forall (good_placement sch tb (Scheduler.schedule_ st)) ((scene, j) :: ps) →
                all_disjoint (span_of sch <$> ((scene, j) :: ps)) → False) as Hskip.
  { intros st2 st'' Heq Hs2 Hfail Hnext.
    destruct (IH st2 st'') as (pre & i & post & day & ts & -> & Htb & Harr & Hpre);
      [by rewrite Heq|done|by rewrite Heq|done|].
    exists (i0 :: pre), i, post, day, ts. split; [done|]. split; [done|]. split; [done|].
    intros j ps [->|Hj]%elem_of_cons Hfst Hgood Hdis.
    - eapply (try_positions_complete sch tb scene sc recurse rest Hsc Hk Hres Hrec
                [i0] st st2); try done. by left.
    - eapply Hpre; try done. by rewrite Heq. }
  destruct (tb !! i0) as [[day0 ts0]|] eqn:Htb0; [|done].
  destruct (range_open _ _ _) eqn:Hopen; [|by eapply Hskip].
  rewrite Hself in Hrun, Hone.
  destruct (Scheduler.scene_works _ _ _ _ _).2 as [[]|e] eqn:Hw0;
    [|by eapply Hskip|done].
  destruct (recurse _) as [st1 [[]|e]] eqn:Hrec1; [| |done].
  - injection Hrun as <-. exists [], i0, positions, day0, ts0.
    split; [done|]. split; [done|]. split.
    + intros Hnot. destruct (Hk _ _ _ Hrec1) as [_ Harr]. rewrite Harr by done.
      cbn. by rewrite lookup_insert_eq.
    + intros j ps Hj. by apply elem_of_nil in Hj.
  - assert (binary (Scheduler.schedule_ (place st i0 (Scene.length sc) scene
                                           (Scheduler.Slot day0 ts0)))) as Hb1
      by (cbn; apply fill_binary; [by right|done]).
    eapply (Hskip (withdraw st1 i0 (Scene.length sc) scene)); try done.
    + cbn. rewrite (Hres _ _ Hb1 Hrec1). cbn.
      apply fill_undo; [done|]. by apply range_open_spec.
    + cbn. by destruct (Hk _ _ _ Hrec1) as [(-> & _) _].
Qed.

Lemma seq_split_prefix (n : nat) (pre : list nat) (i : nat) (post : list nat) :
  seq 0 n = pre ++ i :: post → ∀ j, (j < i)%nat → j ∈ pre.
Proof.
  intros Hseq j Hj.
  assert (i = length pre) as ->.
  { assert (seq 0 n !! length pre = Some i) as Hi
      by (rewrite Hseq, lookup_app_r, Nat.sub_diag by lia; done).
    apply lookup_seq in Hi. lia. }
  assert (seq 0 n !! j = Some j) as Hlook.
  { apply lookup_seq. split; [lia|].
    apply (f_equal length) in Hseq. rewrite length_seq, length_app in Hseq. cbn in Hseq. lia. }
  rewrite Hseq, lookup_app_l in Hlook by done. by eapply list_elem_of_lookup_2.
Qed.

(** X18.  First fit.  When [schedule] returns an arrangement, the first
    scene of the list (if it is not listed again) is at the earliest
    position of the timeline from which all the listed scenes can be
    placed: for no earlier position is there a placement of all the scenes
    that puts the first scene there. *)
Theorem schedule_first_fit (sch : Scheduler.t) (days : list string) (first : string)
    (rest : list string) (arr : gmap string Scheduler.entry) (tb : list (string * Qc)) :
  (Scheduler.schedule days (first :: rest) sch).2 = Ret (Some arr) →
  first ∉ rest →
  timeline (Calendar.day_time_chart (Scheduler.calendar sch)) days = Some tb →
  ∃ i day t,
    tb !! i = Some (day, t) ∧
    arr !! first = Some (Scheduler.Slot day t) ∧
    ∀ j ps,
      (j < i)%nat → ps.*1 = rest →
      Forall (good_placement sch tb (replicate (length tb) 0)) ((first, j) :: ps) →
      all_disjoint (span_of sch <$> ((first, j) :: ps)) → False.
Proof.
  intros Hret Hfirst Htl. rewrite schedule_run, Htl in Hret.
  unfold Scheduler.schedule_solve in Hret.
  destruct (Scheduler.schedule_solve_fuel _ _ _ _ _) as [st' [[]|e]] eqn:Hrun;
    [|done|done].
  cbn in Hret. injection Hret as <-.
  rewrite schedule_solve_fuel_run in Hrun. cbn [length] in Hrun.
  rewrite decide_False in Hrun by lia. cbn [lookup list_lookup] in Hrun.
  change (Scheduler.self_ (initial_search sch tb)) with sch in Hrun.
  destruct (Scheduler.scenes sch !! first) as [sc|] eqn:Hsc; [|done].
  change (next_scene _ (first :: rest) tb 0)
    with (Scheduler.schedule_solve_fuel (length rest) (first :: rest) tb 1) in Hrun.
  destruct (try_positions_earliest sch tb first sc _ rest Hsc
              (schedule_solve_keeps (length rest) (first :: rest) tb 1)
              (schedule_solve_restores (length rest) (first :: rest) tb 1)
              (fun st st' Hb Hs Hl Hr =>
                 schedule_solve_complete sch tb (first :: rest) (length rest) 1
                   st st' Hb Hs Hl Hr)
              _ _ _ (initial_search_binary sch tb) eq_refl
              (length_replicate _ _) Hrun)
    as (pre & i & post & day & t & Hseq & Htb & Harr & Hpre).
  exists i, day, t. split; [done|]. split; [by apply Harr|].
  intros j ps Hj. apply Hpre. eapply seq_split_prefix; [exact Hseq|done].
Qed.

(** The same when A is unavailable at the first slot of the day: the task
    is placed at position 1, and position 0 does not work. *)
Lemma schedule_first_fit_witness :
  let chart : gmap string (list Qc) :=
    {[ "D1" := [1%Qc; Q2Qc (3 # 2); 2%Qc; Q2Qc (5 # 2)] ]} in
  let task := {| Scene.name := "T"; Scene.speaking_actors := ["A"];
                 Scene.all_actors := ["A"]; Scene.length := 2 |} in
  let sch := {| Scheduler.calendar :=
                  (Calendar.init ["A"] chart ["D1"] (Q2Qc (1 # 2))
                     [("A", "D1", [1%Qc])]).1;
                Scheduler.scenes := {[ "T" := task ]} |} in
  let tb := [("D1", 1%Qc); ("D1", Q2Qc (3 # 2)); ("D1", 2%Qc); ("D1", Q2Qc (5 # 2))] in
  let arr : gmap string Scheduler.entry := {[ "T" := Scheduler.Slot "D1" (Q2Qc (3 # 2)) ]} in
  ∃ i day t,
    tb !! i = Some (day, t) ∧
    arr !! "T" = Some (Scheduler.Slot day t) ∧
    ∀ j ps,
      (j < i)%nat → ps.*1 = [] →
      Forall (good_placement sch tb (replicate (length tb) 0)) (("T", j) :: ps) →
      all_disjoint (span_of sch <$> (("T", j) :: ps)) → False.
Proof.
  intros chart task sch tb arr.
  apply (schedule_first_fit sch ["D1"] "T" [] arr tb).
  - by vm_compute.
  - by intros ?%elem_of_nil.
  - by vm_compute.
Defined.

(** ** [schedule] only reads *)

(** X19.  [schedule] leaves the scheduler exactly as it found it, whether
    it returns an arrangement, [None], or raises: the places it gives are
    not written to the ledgers.  A call made afterwards, of [schedule] or
    of the feasibility check, answers as on the scheduler before. *)
Theorem schedule_no_mutation (sch : Scheduler.t) (days scene_list : list string) :
  let after := (Scheduler.schedule days scene_list sch).1 in
  after = sch ∧
  (∀ name d t, ledger_of (Scheduler.calendar after) name d t
               = ledger_of (Scheduler.calendar sch) name d t) ∧
  (∀ days' scene_list',
     Scheduler.schedule days' scene_list' after = Scheduler.schedule days' scene_list' sch) ∧
  ∀ scene day ts te,
    Scheduler.scene_works scene day ts te after = Scheduler.scene_works scene day ts te sch.
Proof.
  cbn zeta. rewrite schedule_frame. by repeat split.
Qed.

(** ** The first slot that is not available decides *)

(** X20.  [Actor.is_available] stops at the first requested slot that the
    ledger does not mark available: it answers [False] when the ledger
    holds the slot, and raises [KeyError] when the ledger lacks the day or
    the slot; the slots after it are not read, and the actor is
    unchanged. *)
Theorem actor_is_available_first_unavailable (a : Actor.t) (day : string)
    (pre : list Qc) (t : Qc) (post : list Qc) :
  (∀ u, u ∈ pre → ledger a day u = Some true) →
  ledger a day t ≠ Some true →
  Actor.is_available day (pre ++ t :: post) a =
    (a, match ledger a day t with
        | Some _ => Ret false
        | None => Raise KeyError
        end).
Proof.
  intros Hpre Ht. induction pre as [|u pre IH]; cbn [app];
    rewrite actor_is_available_cons.
  - by destruct (ledger a day t) as [[]|].
  - rewrite (Hpre u) by (by left). apply IH. intros v Hv. apply Hpre. by right.
Qed.

(** An actor free at 1 and busy at 1.5: asked for 1, 1.5 and 7, the answer
    is [False], though the ledger has no slot 7. *)
Lemma actor_is_available_first_unavailable_witness :
  let a := {| Actor.name := "A";
              Actor.conflict_chart :=
                {[ "D1" := {[ 1%Qc := true; Q2Qc (3 # 2) := false ]} ]} |} in
  Actor.is_available "D1" ([1%Qc] ++ Q2Qc (3 # 2) :: [Qc_of_Z 7]) a =
    (a, match ledger a "D1" (Q2Qc (3 # 2)) with
        | Some _ => Ret false
        | None => Raise KeyError
        end).
Proof.
  intros a. apply (actor_is_available_first_unavailable a "D1" [1%Qc] (Q2Qc (3 # 2))).
  - intros u ->%list_elem_of_singleton. by vm_compute.
  - by vm_compute.
Defined.

(** ** Scenes without length *)

(** X21.  A check that looks at no slot passes on any day.  For a
    registered scene and a non-zero interval: when the check generates no
    slot, it answers [True] exactly when the end it computes is by
    [time_end] and every actor of the scene is known to the calendar,
    whatever the day, also one the calendar does not have, and whatever
    the ledgers hold.  A scene whose length is zero or negative is such a
    case where the arithmetic does not round: it has no slot, and its end
    is [time_start + length * interval]. *)
Theorem scene_works_no_length (sch : Scheduler.t) (scene : string) (sc : Scene.t)
    (day : string) (ts te : Qc) :
  let cal := Scheduler.calendar sch in
  let iv := Calendar.interval cal in
  Scheduler.scenes sch !! scene = Some sc →
  iv ≠ 0%Qc →
  (checked iv ts (Scene.length sc) = [] →
   ((Scheduler.scene_works scene day ts te sch).2 = Ret true ↔
    (scene_end iv ts (Scene.length sc) ≤ te)%Qc ∧
    ∀ name, name ∈ Scene.all_actors sc → is_Some (Calendar.actor_objects cal !! name))) ∧
  ((Scene.length sc ≤ 0)%Z → unrounded iv ts (Scene.length sc) →
   checked iv ts (Scene.length sc) = [] ∧
   scene_end iv ts (Scene.length sc) = (ts + Qc_of_Z (Scene.length sc) * iv)%Qc).
Proof.
  intros cal iv Hsc Hiv. split.
  - intros Hnone. rewrite scene_works_true. fold cal iv. split.
    + intros (sc' & Hsc' & Hle & _ & Hact). rewrite Hsc in Hsc'. injection Hsc' as <-.
      split; [done|]. intros name Hin. destruct (Hact name Hin) as (a & -> & _). eauto.
    + intros [Hle Hact]. exists sc. split; [done|]. split; [done|]. split; [done|].
      intros name Hin. destruct (Hact name Hin) as [a Ha]. exists a. split; [done|].
      rewrite Hnone. by intros t ?%elem_of_nil.
  - intros Hn Hexact. destruct (unrounded_exact iv ts _ Hiv Hexact) as [Hend Hslots].
    split; [|done]. rewrite Hslots. unfold occupied.
    by replace (Z.to_nat (Scene.length sc)) with 0%nat by lia.
Qed.

(** A break of no length for A passes on a day the calendar does not
    have. *)
Lemma scene_works_no_length_witness :
  let chart : gmap string (list Qc) := {[ "D1" := [1%Qc; Q2Qc (3 # 2)] ]} in
  let pause := {| Scene.name := "P"; Scene.speaking_actors := ["A"];
                  Scene.all_actors := ["A"]; Scene.length := 0 |} in
  let sch := {| Scheduler.calendar :=
                  (Calendar.init ["A"] chart ["D1"] (Q2Qc (1 # 2)) []).1;
                Scheduler.scenes := {[ "P" := pause ]} |} in
  let cal := Scheduler.calendar sch in
  let iv := Calendar.interval cal in
  ((Scheduler.scene_works "P" "Sunday" 1%Qc 2%Qc sch).2 = Ret true ↔
   (scene_end iv 1 (Scene.length pause) ≤ 2)%Qc ∧
   ∀ name, name ∈ Scene.all_actors pause → is_Some (Calendar.actor_objects cal !! name)) ∧
  checked iv 1 (Scene.length pause) = [] ∧
  scene_end iv 1 (Scene.length pause) = (1 + Qc_of_Z (Scene.length pause) * iv)%Qc.
Proof.
  intros chart pause sch cal iv.
  destruct (scene_works_no_length sch "P" pause "Sunday" 1%Qc 2%Qc) as [Hiff Hzero];
    [by vm_compute|by vm_compute|].
  destruct Hzero as [Hnone Hend]; [by vm_compute|apply unroundedb_spec; by vm_compute|].
  split; [by apply Hiff|done].
Defined.
